(** * SpacetimeRL: matchmaking and match-client adapter

    A shallow embedding of
      - [rlcompetition/matchmaking/MatchmakingClient.py]  (password hashing,
        the client helper [request_game]),
      - [rlcompetition/matchmaking/MatchmakingServer.py]  (matchmaker start-up,
        the request loop of [MatchmakingThread.run], [MatchProcessJanitor.run]),
      - [rlcompetition/client_network_env.py]             (the worker
        [client_app] and the facade [ClientNetworkEnv]),
    together with the properties the specification states about them.

    Conventions.
      - Python [int] is [Z]; [bytes] is [list byte]; a Python [str] whose code
        points are below 256 is a [string] (one character per code point).
      - A [collections.deque] and a [queue.Queue] are lists written left to
        right; [append]/[put] add on the right.
      - Threads are interleaved by an explicit list of events. *)

From Stdlib Require Import ZArith Lia QArith.
From Stdlib Require Import Strings.Byte Strings.Ascii Strings.String.
From stdpp Require Import gmap strings list pretty.

Local Open Scope Z_scope.

#[global] Instance byte_eq_decision : EqDecision byte.
Proof.
  intros x y. destruct (Byte.eqb x y) eqn:E.
  - left. by apply Byte.byte_dec_bl.
  - right. by apply Byte.eqb_false.
Defined.

(* ===================================================================== *)
(** ** Python strings                                                     *)
(* ===================================================================== *)

Module PyStr.

Definition byte_of_Z (z : Z) : byte :=
  match Byte.of_N (Z.to_N (z mod 256)) with
  | Some b => b
  | None => x00
  end.

Definition Z_of_byte (b : byte) : Z := Z.of_N (Byte.to_N b).

Definition code_point (c : ascii) : Z := Z.of_N (N_of_ascii c).

Definition chr (z : Z) : ascii := ascii_of_N (Z.to_N z).

(** [str.lower()] on one code point below 256.  The characters with a
    lowercase mapping in that range are A-Z, U+00C0-U+00D6 and
    U+00D8-U+00DE; each maps to the code point 32 above it. *)
Definition lower_char (c : ascii) : ascii :=
  let n := code_point c in
  if ((65 <=? n) && (n <=? 90)) || ((192 <=? n) && (n <=? 214))
     || ((216 <=? n) && (n <=? 222))
  then chr (n + 32) else c.

(** [str.lower()] on a string of code points below 256, where it works
    character by character.  Strings with other code points are outside
    this model: there [str.lower()] can change the number of characters
    (U+0130 becomes two), so nothing here speaks of lengths. *)
Fixpoint lower (s : string) : string :=
  match s with
  | EmptyString => EmptyString
  | String c s' => String (lower_char c) (lower s')
  end.

(** [str.encode()]: UTF-8.  Code points below 128 are one byte, the
    others (below 256 here) two bytes. *)
Definition encode_char (c : ascii) : list byte :=
  let n := code_point c in
  if n <? 128 then [byte_of_Z n]
  else [byte_of_Z (Z.lor 192 (Z.shiftr n 6));
        byte_of_Z (Z.lor 128 (Z.land n 63))].

Fixpoint encode (s : string) : list byte :=
  match s with
  | EmptyString => []
  | String c s' => encode_char c ++ encode s'
  end.

Definition hex_digit (z : Z) : ascii :=
  if z <? 10 then chr (48 + z) else chr (87 + z).

(** [binascii.hexlify(bs).decode('ascii')] / [bytes.hex()] *)
Fixpoint hexlify (bs : list byte) : string :=
  match bs with
  | [] => EmptyString
  | b :: bs' =>
      String (hex_digit (Z_of_byte b / 16))
        (String (hex_digit (Z_of_byte b mod 16)) (hexlify bs'))
  end.

Definition is_hex_char (c : ascii) : bool :=
  let n := code_point c in
  ((48 <=? n) && (n <=? 57)) || ((97 <=? n) && (n <=? 102)).

Fixpoint all_hex (s : string) : bool :=
  match s with
  | EmptyString => true
  | String c s' => is_hex_char c && all_hex s'
  end.

End PyStr.

(* ===================================================================== *)
(** ** SHA-256 (FIPS 180-4) and the [hashlib] hash object                *)
(* ===================================================================== *)

Module Sha256.
Import PyStr.

Definition mask32 : Z := 0xffffffff.
Definition add32 (x y : Z) : Z := (x + y) mod 2 ^ 32.
Definition rotr (n x : Z) : Z :=
  Z.lor (Z.shiftr x n) (Z.land (Z.shiftl x (32 - n)) mask32).
Definition shr (n x : Z) : Z := Z.shiftr x n.

Definition Ch (x y z : Z) : Z :=
  Z.lxor (Z.land x y) (Z.land (Z.lxor x mask32) z).
Definition Maj (x y z : Z) : Z :=
  Z.lxor (Z.lxor (Z.land x y) (Z.land x z)) (Z.land y z).
Definition Sig0 (x : Z) : Z :=
  Z.lxor (Z.lxor (rotr 2 x) (rotr 13 x)) (rotr 22 x).
Definition Sig1 (x : Z) : Z :=
  Z.lxor (Z.lxor (rotr 6 x) (rotr 11 x)) (rotr 25 x).
Definition sig0 (x : Z) : Z :=
  Z.lxor (Z.lxor (rotr 7 x) (rotr 18 x)) (shr 3 x).
Definition sig1 (x : Z) : Z :=
  Z.lxor (Z.lxor (rotr 17 x) (rotr 19 x)) (shr 10 x).

(** The constants are defined from the primes (FIPS 180-4, 4.2.2 and
    5.3.3): the first 32 bits of the fractional parts of the cube roots of
    the first 64 primes, and of the square roots of the first 8. *)
Definition is_prime (n : nat) : bool :=
  (2 <=? n)%nat && forallb (fun d => negb (n mod d =? 0)%nat) (seq 2 (n - 2)).

Definition primes : list Z := map Z.of_nat (filter is_prime (seq 2 310)).

(** Largest [r] below [2 ^ bits] with [r ^ 3 <= n], built bit by bit. *)
Fixpoint cube_root (bits : nat) (n r : Z) : Z :=
  match bits with
  | O => r
  | S b =>
      let r' := r + 2 ^ Z.of_nat b in
      cube_root b n (if r' * r' * r' <=? n then r' else r)
  end.

Definition K : list Z :=
  Eval vm_compute in
    map (fun p => cube_root 36 (p * 2 ^ 96) 0 mod 2 ^ 32) primes.

Definition initial_words : list Z :=
  Eval vm_compute in
    map (fun p => Z.sqrt (p * 2 ^ 64) mod 2 ^ 32) (take 8 primes).

(** The eight working variables / the chaining value. *)
Record regs : Type := Regs {
  ra : Z; rb : Z; rc : Z; rd : Z; re : Z; rf : Z; rg : Z; rh : Z
}.

Definition H0 : regs :=
  Regs (nth 0 initial_words 0) (nth 1 initial_words 0) (nth 2 initial_words 0)
       (nth 3 initial_words 0) (nth 4 initial_words 0) (nth 5 initial_words 0)
       (nth 6 initial_words 0) (nth 7 initial_words 0).

(** Big-endian 32-bit words of a block. *)
Fixpoint words_of (bs : list byte) : list Z :=
  match bs with
  | b0 :: b1 :: b2 :: b3 :: rest =>
      (((Z_of_byte b0 * 256 + Z_of_byte b1) * 256 + Z_of_byte b2) * 256
       + Z_of_byte b3) :: words_of rest
  | _ => []
  end.

(** Message schedule, kept most-recent-first while it is extended. *)
Fixpoint expand (n : nat) (rw : list Z) : list Z :=
  match n with
  | O => rw
  | S n' =>
      let wt := add32 (add32 (sig1 (nth 1 rw 0)) (nth 6 rw 0))
                      (add32 (sig0 (nth 14 rw 0)) (nth 15 rw 0)) in
      expand n' (wt :: rw)
  end.

Definition schedule (block : list byte) : list Z :=
  rev (expand 48 (rev (words_of block))).

Definition round (r : regs) (kw : Z * Z) : regs :=
  let t1 := add32 (add32 (add32 (rh r) (Sig1 (re r)))
                         (add32 (Ch (re r) (rf r) (rg r)) (fst kw))) (snd kw) in
  let t2 := add32 (Sig0 (ra r)) (Maj (ra r) (rb r) (rc r)) in
  Regs (add32 t1 t2) (ra r) (rb r) (rc r) (add32 (rd r) t1) (re r) (rf r) (rg r).

Definition compress (h : regs) (block : list byte) : regs :=
  let r := fold_left round (zip K (schedule block)) h in
  Regs (add32 (ra h) (ra r)) (add32 (rb h) (rb r)) (add32 (rc h) (rc r))
       (add32 (rd h) (rd r)) (add32 (re h) (re r)) (add32 (rf h) (rf r))
       (add32 (rg h) (rg r)) (add32 (rh h) (rh r)).

(** Consume the complete 64-byte blocks at the front of [data]; what is
    left (fewer than 64 bytes when the fuel suffices) is returned. *)
Fixpoint absorb (fuel : nat) (h : regs) (data : list byte) : regs * list byte :=
  match fuel with
  | O => (h, data)
  | S fuel' =>
      if (length data <? 64)%nat then (h, data)
      else absorb fuel' (compress h (take 64 data)) (drop 64 data)
  end.

Fixpoint be_bytes (n : nat) (z : Z) : list byte :=
  match n with
  | O => []
  | S n' => be_bytes n' (z / 256) ++ [byte_of_Z z]
  end.

(** Padding for a message of [len] bytes: 0x80, zeros up to 56 mod 64,
    then the bit length as a 64-bit big-endian integer. *)
Definition pad (len : nat) : list byte :=
  x80 :: repeat x00 (Z.to_nat ((55 - Z.of_nat len) mod 64))
      ++ be_bytes 8 ((8 * Z.of_nat len) mod 2 ^ 64).

Definition output (h : regs) : list byte :=
  be_bytes 4 (ra h) ++ be_bytes 4 (rb h) ++ be_bytes 4 (rc h)
  ++ be_bytes 4 (rd h) ++ be_bytes 4 (re h) ++ be_bytes 4 (rf h)
  ++ be_bytes 4 (rg h) ++ be_bytes 4 (rh h).

(** One-shot SHA-256 of a byte string. *)
Definition sha256 (msg : list byte) : list byte :=
  let padded := msg ++ pad (length msg) in
  output (fst (absorb (length padded) H0 padded)).

(** The object returned by [hashlib.sha256()]: chaining value, the bytes
    not yet forming a block, and the number of bytes fed so far. *)
Record hasher : Type := Hasher {
  chain : regs;
  pending : list byte;
  fed : nat
}.

Definition new : hasher := Hasher H0 [] 0.

Definition update (m : hasher) (data : list byte) : hasher :=
  let buf := pending m ++ data in
  let '(h, rest) := absorb (length buf) (chain m) buf in
  Hasher h rest (fed m + length data).

Definition digest (m : hasher) : list byte :=
  let tail := pending m ++ pad (fed m) in
  output (fst (absorb (length tail) (chain m) tail)).

End Sha256.

(* ===================================================================== *)
(** ** The ranking database                                               *)
(* ===================================================================== *)

Module RankingDatabase.

(** Modelled from the spec: the results of [login].  The matchmaker names
    [NoUser], [LoginDuplicate] and [LoginFail]; the fourth is success. *)
Inductive LoginResult : Type :=
| LoginSuccess | LoginFail | LoginDuplicate | NoUser.

(** Modelled from the spec: [RankingDatabase.py] is not among the sources.
    A user row is (username, password_hash, ranking, logged_in), unique
    by username. *)
Record user : Type := User {
  password_hash : list byte;
  ranking : Q;
  logged_in : bool
}.

(** Modelled from the spec: the initial ranking of a new user (the spec's
    example value). *)
Definition default_ranking : Q := 1000%Q.

(** Modelled from the spec: the user table persists in a database file, and
    the logged-in state of every user is reset to false on start-up. *)
Definition connect (stored : gmap string user) : gmap string user :=
  (fun u => User (password_hash u) (ranking u) false) <$> stored.

(** Modelled from the spec: [set(username, password_hash)] inserts a new
    user with default ranking and logged-out; fails silently if the user
    exists. *)
Definition set (db : gmap string user) (username : string)
    (password : list byte) : gmap string user :=
  match db !! username with
  | Some _ => db
  | None => <[username := User password default_ranking false]> db
  end.

(** Modelled from the spec: [login(username, password_hash)] returns one
    of NoUser / wrong password / already logged in / success, and sets
    [logged_in] only on success. *)
Definition login (db : gmap string user) (username : string)
    (password : list byte) : LoginResult * gmap string user :=
  match db !! username with
  | None => (NoUser, db)
  | Some u =>
      if negb (bool_decide (password_hash u = password)) then (LoginFail, db)
      else if logged_in u then (LoginDuplicate, db)
      else (LoginSuccess,
            <[username := User (password_hash u) (ranking u) true]> db)
  end.

(** Modelled from the spec: [logoff(username)] clears [logged_in];
    idempotent, and a no-op for an unknown user. *)
Definition logoff (db : gmap string user) (username : string)
    : gmap string user :=
  match db !! username with
  | None => db
  | Some u => <[username := User (password_hash u) (ranking u) false]> db
  end.

(** Modelled from the spec: [get_multi(usernames...)] is a read-only bulk
    fetch of (name, password_hash, ranking) rows. *)
Definition get_multi (db : gmap string user) (usernames : list string)
    : list (string * list byte * Q) :=
  omap (fun name =>
          match db !! name with
          | Some u => Some (name, password_hash u, ranking u)
          | None => None
          end) usernames.

End RankingDatabase.

(* ===================================================================== *)
(** ** The matchmaking messages and the client helper                     *)
(* ===================================================================== *)

(** The two messages of [grpc_gen/server_pb2], as the code constructs and
    reads them. *)
Module Messages.

Record QuickMatchRequest : Type := Request {
  username : string;
  password : list byte
}.

Record QuickMatchReply : Type := Reply {
  reply_username : string;
  server : string;
  auth_key : string;
  reply_ranking : Q;
  response : string
}.

End Messages.

Module MatchmakingClient.
Import PyStr Messages.

(** [hash_password(username, password)] *)
Definition hash_password (username password : string) : list byte :=
  let m := Sha256.new in
  let m := Sha256.update m (encode password) in
  let m := Sha256.update m (encode username) in
  Sha256.digest m.

(** The [QuickMatchRequest] that [request_game] sends. *)
Definition request_game_request (username password : string)
    : QuickMatchRequest :=
  let username := lower username in
  let hashed_password := hash_password username password in
  Request username hashed_password.

End MatchmakingClient.

(* ===================================================================== *)
(** ** The matchmaker                                                     *)
(* ===================================================================== *)

Module Matchmaker.
Import PyStr RankingDatabase Messages.

(** An element of the waiting deque: (identity, request, token). *)
Definition entry : Type := list byte * QuickMatchRequest * string.

(** The operating system's randomness, read sequentially. *)
Record rng : Type := Rng {
  stream : nat -> byte;
  pos : nat
}.

(** [secrets.token_bytes(n)] *)
Definition token_bytes (n : nat) (r : rng) : list byte * rng :=
  (map (stream r) (seq (pos r) n), Rng (stream r) (pos r + n)).

(** [secrets.token_hex(n)] *)
Definition token_hex (n : nat) (r : rng) : string * rng :=
  (hexlify (fst (token_bytes n r)), snd (token_bytes n r)).

(** How [app.start(...)] of a janitor ends. *)
Inductive start_outcome : Type := Returned | Raised.

(** Where the thread of a janitor is in its [run]. *)
Inductive janitor_status : Type :=
| Running                           (* inside [app.start] *)
| Ended                             (* [app.start] has returned *)
| LoggingOff (rest : list string)   (* port put back; users still to log off *)
| Finished                          (* semaphore released; [run] is over *)
| Failed.                           (* an exception left [run] *)

Record janitor : Type := Janitor {
  j_port : Z;
  player_list : list string;
  whitelist : list string;
  ready : bool;
  status : janitor_status
}.

(** Where the matchmaker thread is blocked. *)
Inductive control : Type :=
| Receiving
| Acquiring
| GettingPort (new_players : list entry)
| WaitingReady (jid : nat) (new_players : list entry) (match_port : Z)
               (database_entries : gmap string Q)
| Crashed.

Record state : Type := State {
  players_per_game : Z;
  hostname : string;
  match_requests : list entry;
  match_limit : nat;
  ports_to_use : list Z;
  database : gmap string user;
  sent : list (list byte * QuickMatchReply);
  janitors : list janitor;
  entropy : rng;
  pc : control
}.

Definition with_pc (c : control) (s : state) : state :=
  State (players_per_game s) (hostname s) (match_requests s) (match_limit s)
        (ports_to_use s) (database s) (sent s) (janitors s) (entropy s) c.

Definition with_database (db : gmap string user) (s : state) : state :=
  State (players_per_game s) (hostname s) (match_requests s) (match_limit s)
        (ports_to_use s) db (sent s) (janitors s) (entropy s) (pc s).

Definition with_janitors (js : list janitor) (s : state) : state :=
  State (players_per_game s) (hostname s) (match_requests s) (match_limit s)
        (ports_to_use s) (database s) (sent s) js (entropy s) (pc s).

Definition send_multipart (identity : list byte) (r : QuickMatchReply)
    (s : state) : state :=
  State (players_per_game s) (hostname s) (match_requests s) (match_limit s)
        (ports_to_use s) (database s) (sent s ++ [(identity, r)])
        (janitors s) (entropy s) (pc s).

(** *** [MatchmakingThread.__init__] *)

Inductive init_result : Type :=
| InitOk (s : state)
| InitValueError
| InitOSError (starting_port max_port max_simultaneous_games : Z).

(** [range(a, b)] *)
Definition py_range (a b : Z) : list Z :=
  map (fun i => a + Z.of_nat i) (seq 0 (Z.to_nat (b - a))).

Definition probe_ports (is_port_in_use : Z -> bool)
    (starting_port max_port : Z) : list Z :=
  filter (fun port => is_port_in_use port = false)
         (py_range starting_port max_port).

Definition init (is_port_in_use : Z -> bool) (random : nat -> byte)
    (stored : gmap string user)
    (starting_port : Z) (host : string) (max_simultaneous_games : Z)
    (min_players : Z) : init_result :=
  (* Semaphore(value) raises ValueError for a negative value *)
  if max_simultaneous_games <? 0 then InitValueError
  else
    let max_port := starting_port + 2 * max_simultaneous_games in
    let ports := probe_ports is_port_in_use starting_port max_port in
    if Z.of_nat (length ports) <? max_simultaneous_games
    then InitOSError starting_port max_port max_simultaneous_games
    else InitOk (State min_players host [] (Z.to_nat max_simultaneous_games)
                       ports (connect stored) [] [] (Rng random 0) Receiving).

(** *** [MatchProcessJanitor.run] *)

Definition cleanup (port : Z) (players : list string) (s : state) : state :=
  State (players_per_game s) (hostname s) (match_requests s)
        (S (match_limit s))
        (ports_to_use s ++ [port])
        (foldl logoff (database s) players)
        (sent s) (janitors s) (entropy s) (pc s).

(** The body of [run]: [None] when an exception leaves it. *)
Definition janitor_run (j : janitor) (o : start_outcome) (s : state)
    : option unit * state :=
  match o with
  | Raised => (None, s)
  | Returned => (Some tt, cleanup (j_port j) (player_list j) s)
  end.

(** The cleanup of [run] one statement at a time, as another thread sees
    it: [ports_to_use_queue.put(port)], then one [database.logoff(user)]
    for each user of [player_list] in order, then [match_limit.release()].
    The result is the janitor's next position and the state; [None] when
    the janitor is not in its cleanup. *)
Definition cleanup_step (j : janitor) (s : state)
    : option (janitor_status * state) :=
  match status j with
  | Ended =>
      Some (LoggingOff (player_list j),
            State (players_per_game s) (hostname s) (match_requests s)
                  (match_limit s) (ports_to_use s ++ [j_port j])
                  (database s) (sent s) (janitors s) (entropy s) (pc s))
  | LoggingOff (user :: rest) =>
      Some (LoggingOff rest, with_database (logoff (database s) user) s)
  | LoggingOff [] =>
      Some (Finished,
            State (players_per_game s) (hostname s) (match_requests s)
                  (S (match_limit s)) (ports_to_use s)
                  (database s) (sent s) (janitors s) (entropy s) (pc s))
  | _ => None
  end.

(** *** [MatchmakingThread.run] *)

Definition fail_reply (u : string) (why : string) : QuickMatchReply :=
  Reply u "FAIL" "FAIL" 0%Q why.

Definition duplicate_message : string :=
  "Failed to login: Cannot login twice at the same time.".
Definition wrong_password_message : string :=
  "Failed to login: Wrong password.".

(** [match_requests.append(...)] with a new token, then the length test. *)
Definition enqueue (identity : list byte) (request : QuickMatchRequest)
    (s : state) : state :=
  let token := fst (token_hex 32 (entropy s)) in
  let queue := match_requests s ++ [(identity, request, token)] in
  State (players_per_game s) (hostname s) queue (match_limit s)
        (ports_to_use s) (database s) (sent s) (janitors s)
        (snd (token_hex 32 (entropy s)))
        (if players_per_game s <=? Z.of_nat (length queue)
         then Acquiring else Receiving).

Definition handle_request (identity : list byte)
    (request : QuickMatchRequest) (s : state) : state :=
  let u := username request in
  let p := password request in
  let login_result := login (database s) u p in
  match fst login_result with
  | NoUser =>
      let db := set (snd login_result) u p in
      enqueue identity request (with_database (snd (login db u p)) s)
  | LoginDuplicate =>
      send_multipart identity (fail_reply u duplicate_message)
        (with_database (snd login_result) s)
  | LoginFail =>
      send_multipart identity (fail_reply u wrong_password_message)
        (with_database (snd login_result) s)
  | LoginSuccess =>
      enqueue identity request (with_database (snd login_result) s)
  end.

(** [deque.pop()]: removes and returns the rightmost element. *)
Definition deque_pop {A : Type} (d : list A) : option (A * list A) :=
  match reverse d with
  | [] => None
  | x :: r => Some (x, reverse r)
  end.

(** [[d.pop() for _ in range(n)]] *)
Fixpoint pop_many {A : Type} (n : nat) (d : list A)
    : option (list A * list A) :=
  match n with
  | O => Some ([], d)
  | S n' =>
      match deque_pop d with
      | None => None
      | Some (x, d') =>
          match pop_many n' d' with
          | None => None
          | Some (xs, d'') => Some (x :: xs, d'')
          end
      end
  end.

(** [{name: ranking for name, _, ranking in rows}] *)
Definition rankings_dict (rows : list (string * list byte * Q))
    : gmap string Q :=
  foldl (fun m row => <[row.1.1 := row.2]> m) ∅ rows.

Definition success_reply (host : string) (match_port : Z) (rk : Q)
    (e : entry) : QuickMatchReply :=
  Reply (username e.1.2) (host +:+ ":" +:+ pretty match_port) e.2 rk "".

(** The reply loop; [false] when [database_entries[...]] raises KeyError. *)
Fixpoint send_replies (database_entries : gmap string Q) (match_port : Z)
    (new_players : list entry) (s : state) : bool * state :=
  match new_players with
  | [] => (true, s)
  | e :: rest =>
      match database_entries !! username e.1.2 with
      | None => (false, s)
      | Some rk =>
          send_replies database_entries match_port rest
            (send_multipart e.1.1 (success_reply (hostname s) match_port rk e) s)
      end
  end.

(** What moves the system: the matchmaker thread passes one of its
    blocking calls, or the match server of a janitor does something.
    - [Recv]: [recv_multipart] returns a request; the thread runs until it
      next blocks (in [recv_multipart] again or in [acquire]).
    - [Acquire]: [match_limit.acquire()] returns; the cohort is popped.
    - [GetPort]: [ports_to_use.get()] returns; the janitor is started and
      the rankings are fetched.
    - [ReadySet jid]: the match server of janitor [jid] sets [ready].
    - [Proceed]: [match_janitor.ready.wait()] returns; the replies are sent.
    - [ServerReturns jid]: [app.start] of janitor [jid] returns.
    - [CleanupStep jid]: janitor [jid] executes the next statement of its
      cleanup, with any move of another thread before and after it.
    - [ServerDone jid o]: [app.start] of janitor [jid] ends as [o], and the
      janitor runs to its end with no move of another thread in between
      (for [Returned]: [ServerReturns] and all its [CleanupStep]s at once).

    Between two of its blocking calls the matchmaker thread runs as one
    move.  The statements of a janitor's cleanup may fall in between in
    the real threads; each of them commutes with what the matchmaker does
    there: [put] and [release] touch only the queue and the semaphore,
    which the matchmaker reads in its blocking calls alone, and [logoff]
    of a user is one call on the user table, before or after the
    matchmaker's [login] of that user ([logoff] of a user unknown to the
    table, the one case with several calls of the matchmaker, does
    nothing), and leaves the rankings that [get_multi] reads alone. *)
Inductive event : Type :=
| Recv (identity : list byte) (request : QuickMatchRequest)
| Acquire
| GetPort
| ReadySet (jid : nat)
| Proceed
| ServerReturns (jid : nat)
| CleanupStep (jid : nat)
| ServerDone (jid : nat) (o : start_outcome).

(** One move; [None] when the move is not possible in [s]. *)

Definition step (s : state) (ev : event) : option state :=
  match ev, pc s with
  | Recv identity request, Receiving =>
      Some (handle_request identity request s)
  | Acquire, Acquiring =>
      match match_limit s with
      | O => None
      | S n =>
          match pop_many (Z.to_nat (players_per_game s)) (match_requests s) with
          | None =>
              Some (State (players_per_game s) (hostname s) (match_requests s)
                      n (ports_to_use s) (database s) (sent s) (janitors s)
                      (entropy s) Crashed)
          | Some (new_players, rest) =>
              Some (State (players_per_game s) (hostname s) rest
                      n (ports_to_use s) (database s) (sent s) (janitors s)
                      (entropy s) (GettingPort new_players))
          end
      end
  | GetPort, GettingPort new_players =>
      match ports_to_use s with
      | [] => None
      | match_port :: rest =>
          let tokens := map (fun player : entry => player.2) new_players in
          let usernames :=
            map (fun player : entry => username player.1.2) new_players in
          let match_janitor :=
            Janitor match_port usernames tokens false Running in
          let database_entries :=
            rankings_dict (get_multi (database s) usernames) in
          Some (State (players_per_game s) (hostname s) (match_requests s)
                  (match_limit s) rest (database s) (sent s)
                  (janitors s ++ [match_janitor]) (entropy s)
                  (WaitingReady (length (janitors s)) new_players match_port
                     database_entries))
      end
  | ReadySet jid, _ =>
      match janitors s !! jid with
      | Some j =>
          match status j with
          | Running =>
              Some (with_janitors
                      (<[jid := Janitor (j_port j) (player_list j)
                                  (whitelist j) true Running]> (janitors s)) s)
          | _ => None
          end
      | None => None
      end
  | Proceed, WaitingReady jid new_players match_port database_entries =>
      match janitors s !! jid with
      | Some j =>
          if ready j then
            let r := send_replies database_entries match_port new_players s in
            Some (with_pc (if fst r then Receiving else Crashed) (snd r))
          else None
      | None => None
      end
  | ServerReturns jid, _ =>
      match janitors s !! jid with
      | Some j =>
          match status j with
          | Running =>
              Some (with_janitors
                      (<[jid := Janitor (j_port j) (player_list j)
                                  (whitelist j) (ready j) Ended]> (janitors s))
                      s)
          | _ => None
          end
      | None => None
      end
  | CleanupStep jid, _ =>
      match janitors s !! jid with
      | Some j =>
          match cleanup_step j s with
          | Some (st, s1) =>
              Some (with_janitors
                      (<[jid := Janitor (j_port j) (player_list j)
                                  (whitelist j) (ready j) st]> (janitors s))
                      s1)
          | None => None
          end
      | None => None
      end
  | ServerDone jid o, _ =>
      match janitors s !! jid with
      | Some j =>
          match status j with
          | Running =>
              let r := janitor_run j o s in
              Some (with_janitors
                      (<[jid := Janitor (j_port j) (player_list j)
                                  (whitelist j) (ready j)
                                  (match fst r with
                                   | Some _ => Finished
                                   | None => Failed
                                   end)]> (janitors s)) (snd r))
          | _ => None
          end
      | None => None
      end
  | _, _ => None
  end.

Fixpoint run (s : state) (evs : list event) : option state :=
  match evs with
  | [] => Some s
  | ev :: rest =>
      match step s ev with
      | None => None
      | Some s' => run s' rest
      end
  end.

End Matchmaker.


(* ===================================================================== *)
(** ** The match client adapter                                           *)
(* ===================================================================== *)

Module ClientNetworkEnv.

Record ServerState : Type := MkServerState {
  env_class_name : string;
  env_dimensions : list string;
  terminal : bool;
  winners : list byte;
  serialized_state : list byte
}.

Record Player : Type := MkPlayer {
  pid : Z;
  name : string;
  number : Z;
  turn : bool;
  action : string;
  ready_for_action_to_be_taken : bool;
  reward_from_last_turn : Q;
  acknowledges_game_over : bool;
  dimension : string -> string   (* one attribute per observation name *)
}.

(** A staged change of the client's own records. *)
Inductive write : Type :=
| SetAction (a : string)
| SetReady (b : bool)
| SetAcknowledged (b : bool)
| DeleteOne (p : Z).

(** What one [pull(); checkout()] makes visible locally. *)
Record snapshot : Type := Snapshot {
  snap_server_states : list ServerState;
  snap_player : option Player
}.

(** The client's dataframe: the checked-out records, the changes staged,
    committed and pushed, and the versions the server will publish (a finite
    prefix of them). *)
Record Dataframe : Type := MkDataframe {
  server_states : list ServerState;
  own_record : option Player;
  staged : list write;
  committed : list (list write);
  pushed : list (list write);
  incoming : list snapshot
}.

Inductive exn : Type :=
| AttributeError | IndexError | UnpicklingError | BrokenPipeError.

(** The state of the thread running [client_app] once it serves commands. *)
Record worker : Type := Worker {
  dataframe : Dataframe;
  player : option Player;          (* the local variable [player] *)
  dimension_names : list string;
  ticks : nat                      (* calls of [fr.tick()] *)
}.

(** State and exceptions of the worker. *)
Inductive outcome (A : Type) : Type :=
| Ret (a : A) (w : worker)
| Raise (e : exn) (w : worker)
| Block (w : worker).
Arguments Ret {A} a w.
Arguments Raise {A} e w.
Arguments Block {A} w.

Definition M (A : Type) : Type := worker -> outcome A.

Definition ret {A : Type} (a : A) : M A := fun w => Ret a w.
Definition raise {A : Type} (e : exn) : M A := fun w => Raise e w.
Definition bind {A B : Type} (m : M A) (k : A -> M B) : M B :=
  fun w =>
    match m w with
    | Ret a w' => k a w'
    | Raise e w' => Raise e w'
    | Block w' => Block w'
    end.

Declare Scope worker_scope.
Delimit Scope worker_scope with worker.
Notation "'let!' x ':=' m 'in' k" := (bind m (fun x => k))
  (at level 10, x name, m at level 100, k at level 200) : worker_scope.
Notation "'do!' m 'in' k" := (bind m (fun _ => k))
  (at level 10, m at level 100, k at level 200) : worker_scope.
Local Open Scope worker_scope.

Definition with_dataframe (d : Dataframe) (w : worker) : worker :=
  Worker d (player w) (dimension_names w) (ticks w).

(** [game_is_terminal(dataframe)] *)
Definition game_is_terminal : M bool :=
  fun w =>
    match server_states (dataframe w) with
    | s :: _ => Ret (terminal s) w
    | [] => Raise IndexError w
    end.

(** Attribute access on the local variable [player]. *)
Definition the_player : M Player :=
  fun w =>
    match player w with
    | Some p => Ret p w
    | None => Raise AttributeError w
    end.

Definition stage (x : write) (d : Dataframe) : Dataframe :=
  MkDataframe (server_states d) (own_record d) (staged d ++ [x])
              (committed d) (pushed d) (incoming d).

(** [player.<field> = value]: the object changes and the change is staged. *)
Definition assign (x : write) (f : Player -> Player) : M unit :=
  let! p := the_player in
  fun w => Ret tt (Worker (stage x (dataframe w)) (Some (f p))
                          (dimension_names w) (ticks w)).

Definition set_action (a : string) : M unit :=
  assign (SetAction a)
    (fun p => MkPlayer (pid p) (name p) (number p) (turn p) a
                (ready_for_action_to_be_taken p) (reward_from_last_turn p)
                (acknowledges_game_over p) (dimension p)).

Definition set_ready (b : bool) : M unit :=
  assign (SetReady b)
    (fun p => MkPlayer (pid p) (name p) (number p) (turn p) (action p)
                b (reward_from_last_turn p)
                (acknowledges_game_over p) (dimension p)).

Definition set_acknowledges_game_over (b : bool) : M unit :=
  assign (SetAcknowledged b)
    (fun p => MkPlayer (pid p) (name p) (number p) (turn p) (action p)
                (ready_for_action_to_be_taken p) (reward_from_last_turn p)
                b (dimension p)).

(** [dataframe.commit()] *)
Definition commit : M unit :=
  fun w =>
    let d := dataframe w in
    Ret tt (with_dataframe
              (MkDataframe (server_states d) (own_record d) []
                           (committed d ++ [staged d]) (pushed d) (incoming d)) w).

(** [dataframe.push()] *)
Definition push : M unit :=
  fun w =>
    let d := dataframe w in
    Ret tt (with_dataframe
              (MkDataframe (server_states d) (own_record d) (staged d)
                           [] (pushed d ++ committed d) (incoming d)) w).

(** One round of the polling loops:
    [fr.tick(); dataframe.pull(); dataframe.checkout();
     player = dataframe.read_one(player_class, player.pid)] *)
Definition refresh (snap : snapshot) (rest : list snapshot) (w : worker)
    : worker :=
  let d := dataframe w in
  Worker (MkDataframe (snap_server_states snap) (snap_player snap) (staged d)
                      (committed d) (pushed d) rest)
         (snap_player snap) (dimension_names w) (S (ticks w)).

(** [while not player.turn or player.ready_for_action_to_be_taken: ...] *)
Fixpoint wait_for_turn (feed : list snapshot) : M unit :=
  fun w =>
    match player w with
    | None => Raise AttributeError w
    | Some p =>
        if negb (turn p) || ready_for_action_to_be_taken p then
          match feed with
          | [] => Block w
          | snap :: rest => wait_for_turn rest (refresh snap rest w)
          end
        else Ret tt w
    end.

(** [{dimension_name: getattr(player, dimension_name) for ...}] *)
Definition read_dimensions (names : list string) (p : Player)
    : gmap string string :=
  foldl (fun d n => <[n := dimension p n]> d) ∅ names.

Definition step_reply : Type :=
  gmap string string * Q * bool * option (list Z).

Section WithPickle.

(** [pickle.loads]; [None] when it raises. *)
Variable pickle_loads : list byte -> option (list Z).

(** The ['step'] branch of the command loop of [client_app]. *)
Definition serve_step (data : string) : M step_reply :=
  let! t := game_is_terminal in
  do! (if negb t then
         do! set_action data in
         do! set_ready true in
         do! commit in
         do! push in
         (fun w => wait_for_turn (incoming (dataframe w)) w)
       else ret tt) in
  let! p := the_player in
  let! names := (fun w => Ret (dimension_names w) w) in
  let dimensions := read_dimensions names p in
  let reward := reward_from_last_turn p in
  let! term := game_is_terminal in
  if term then
    let! blob := (fun w => match server_states (dataframe w) with
                      | s :: _ => Ret (winners s) w
                      | [] => Raise IndexError w
                      end) in
    match pickle_loads blob with
    | None => raise UnpicklingError
    | Some ws =>
        do! set_acknowledges_game_over true in
        do! commit in
        do! push in
        ret (dimensions, reward, term, Some ws)
    end
  else ret (dimensions, reward, term, None).

(** The ['close'] branch, up to [remote.close()]. *)
Definition serve_close : M unit :=
  let! p := the_player in
  fun w => Ret tt (with_dataframe (stage (DeleteOne (pid p)) (dataframe w)) w).

Inductive command : Type :=
| CmdStep (a : string)
| CmdClose.

Inductive worker_status : Type :=
| Serving                (* blocked in [remote.recv()] of the command loop *)
| Exited                 (* left the loop through ['close'] *)
| Died (e : exn)         (* an exception ended the thread *)
| Stuck.                 (* polling, the awaited record never came *)

(** A [ClientNetworkEnv] once constructed.  The worker is a thread of the
    same process ([client_app]: "we are in a separate thread, not process"),
    so each end of the pipe exists once; [Connection.send] raises
    [BrokenPipeError] when the other end has been closed. *)
Record env : Type := Env {
  player_client : worker;
  client_status : worker_status;
  unread : list command;          (* sent on [self.remote], never received *)
  app_remote_closed : bool;
  first_observation : gmap string string
}.

Inductive call (A : Type) : Type :=
| Returns (a : A)
| Raises (e : exn)
| Hangs.
Arguments Returns {A} a.
Arguments Raises {A} e.
Arguments Hangs {A}.

(** [ClientNetworkEnv.step(action)] *)
Definition step (a : string) (c : env) : call step_reply * env :=
  if app_remote_closed c then (Raises BrokenPipeError, c)
  else
    match client_status c with
    | Serving =>
        match serve_step a (player_client c) with
        | Ret r w =>
            (Returns r,
             Env w Serving (unread c) false (first_observation c))
        | Raise e w =>
            (Hangs, Env w (Died e) (unread c) false (first_observation c))
        | Block w =>
            (Hangs, Env w Stuck (unread c) false (first_observation c))
        end
    | _ =>
        (Hangs, Env (player_client c) (client_status c)
                    (unread c ++ [CmdStep a]) false (first_observation c))
    end.

(** [ClientNetworkEnv.close()] *)
Definition close (c : env) : call unit * env :=
  if app_remote_closed c then (Raises BrokenPipeError, c)
  else
    match client_status c with
    | Serving =>
        match serve_close (player_client c) with
        | Ret _ w =>
            (* remote.close(); break; then join() returns *)
            (Returns tt, Env w Exited (unread c) true (first_observation c))
        | Raise e w =>
            (Returns tt, Env w (Died e) (unread c) false (first_observation c))
        | Block w =>
            (Hangs, Env w Stuck (unread c) false (first_observation c))
        end
    | Stuck =>
        (Hangs, Env (player_client c) Stuck (unread c ++ [CmdClose]) false
                    (first_observation c))
    | st =>
        (Returns tt, Env (player_client c) st (unread c ++ [CmdClose]) false
                         (first_observation c))
    end.

End WithPickle.

Arguments Returns {A} a.
Arguments Raises {A} e.
Arguments Hangs {A}.

End ClientNetworkEnv.


(* ===================================================================== *)
(** ** [request_game]: reading the reply                                  *)
(* ===================================================================== *)

Module RequestGame.
Import PyStr Messages.

(** [str.split(sep)] for a one-character separator. *)
Fixpoint split_on (sep : ascii) (s : string) : list string :=
  match s with
  | EmptyString => [EmptyString]
  | String c s' =>
      if Ascii.eqb c sep then EmptyString :: split_on sep s'
      else
        match split_on sep s' with
        | piece :: pieces => String c piece :: pieces
        | [] => [String c EmptyString]
        end
  end.

(** The characters [int(str)] strips (CPython, code points below 256):
    tab to carriage return, space, U+0085 and U+00A0. *)
Definition is_int_space (c : ascii) : bool :=
  let n := code_point c in
  ((9 <=? n) && (n <=? 13)) || (n =? 32) || (n =? 133) || (n =? 160).

Definition is_digit (c : ascii) : bool :=
  let n := code_point c in (48 <=? n) && (n <=? 57).

Fixpoint lstrip (s : string) : string :=
  match s with
  | EmptyString => EmptyString
  | String c s' => if is_int_space c then lstrip s' else s
  end.

Fixpoint rstrip (s : string) : string :=
  match s with
  | EmptyString => EmptyString
  | String c s' =>
      match rstrip s' with
      | EmptyString => if is_int_space c then EmptyString
                       else String c EmptyString
      | r => String c r
      end
  end.

(** Decimal digits, single underscores allowed between two digits. *)
Fixpoint digits_value (acc : Z) (after_digit : bool) (s : string) : option Z :=
  match s with
  | EmptyString => if after_digit then Some acc else None
  | String c s' =>
      if is_digit c then digits_value (acc * 10 + (code_point c - 48)) true s'
      else if Ascii.eqb c "_" then
        if after_digit then digits_value acc false s' else None
      else None
  end.

(** [int(s)] for a [str]; [None] is [ValueError]. *)
Definition py_int (s : string) : option Z :=
  match rstrip (lstrip s) with
  | String "-" digits => Z.opp <$> digits_value 0 false digits
  | String "+" digits => digits_value 0 false digits
  | digits => digits_value 0 false digits
  end.

Record GameResponse : Type := MkGameResponse {
  host : string;
  port : Z;
  game_username : string;
  token : string;
  game_ranking : Q
}.

Inductive result : Type :=
| Game (g : GameResponse)
| ConnectionError (message : string)
| ValueError.

(** [request_game(hostname, port, username, password)] from the reply of
    [GetMatch] on: the failure test, the split of [server], the result. *)
Definition request_game_result (username : string)
    (response : QuickMatchReply) : result :=
  let username := lower username in
  if String.eqb (server response) "FAIL" then
    ConnectionError
      ("Could not connect to matchmaking server. Error message: "
       +:+ Messages.response response)
  else
    match split_on ":" (server response) with
    | [host; port] =>
        match py_int port with
        | Some n =>
            Game (MkGameResponse host n username (auth_key response)
                    (reply_ranking response))
        | None => ValueError
        end
    | _ => ValueError
    end.

End RequestGame.

(* ===================================================================== *)
(** ** The worker before and beside [step]                                *)
(* ===================================================================== *)

(** The parts of [client_app] around the ['step'] branch: the two polling
    loops between joining and the first [remote.send], and the
    ['get_server_state'] branch. *)
Module ClientApp.
Import ClientNetworkEnv.
Local Open Scope worker_scope.

(** [while cond(player): fr.tick(); dataframe.pull(); dataframe.checkout();
     player = dataframe.read_one(player_class, player.pid)] *)
Fixpoint poll (cond : Player -> bool) (feed : list snapshot) : M unit :=
  fun w =>
    match player w with
    | None => Raise AttributeError w
    | Some p =>
        if cond p then
          match feed with
          | [] => Block w
          | snap :: rest => poll cond rest (refresh snap rest w)
          end
        else Ret tt w
    end.

(** [while player.number == -1: ...] *)
Definition wait_for_start : M unit :=
  fun w => poll (fun p => number p =? -1) (incoming (dataframe w)) w.

(** [while not player.turn: ...] *)
Definition wait_for_first_turn : M unit :=
  fun w => poll (fun p => negb (turn p)) (incoming (dataframe w)) w.

(** From [fr = FrameRateKeeper(CLIENT_TICK_RATE)] to the first
    [remote.send(...)]; the result is the dictionary sent. *)
Definition first_turn : M (gmap string string) :=
  do! wait_for_start in
  do! wait_for_first_turn in
  let! p := the_player in
  fun w => Ret (read_dimensions (dimension_names w) p) w.

Definition server_state_reply : Type :=
  string * list string * bool * list byte * list byte.

(** The ['get_server_state'] branch of the command loop. *)
Definition serve_get_server_state : M server_state_reply :=
  fun w =>
    match server_states (dataframe w) with
    | s :: _ =>
        Ret (env_class_name s, env_dimensions s, terminal s, winners s,
             serialized_state s) w
    | [] => Raise IndexError w
    end.

End ClientApp.

(* ===================================================================== *)
(** * Vocabulary of the properties                                        *)
(* ===================================================================== *)

Section HashVocabulary.
Import PyStr Sha256.

(** What a hash object holds after it was fed [data] in any pieces. *)
Definition holds (m : hasher) (data : list byte) : Prop :=
  absorb (length data) H0 data = (chain m, pending m) /\ fed m = length data.

End HashVocabulary.

Section MatchmakerVocabulary.
Import PyStr RankingDatabase Messages MatchmakingClient Matchmaker.

(** A matchmaker started on localhost:21450 for one game at a time, with
    every probed port free. *)
Definition example_start (min_players : Z) : state :=
  State min_players "localhost" [] 1 [21450; 21451] ∅ [] []
        (Rng (fun n => byte_of_Z (Z.of_nat n)) 0) Receiving.

Definition alice : QuickMatchRequest := Request "alice" [x01; x02].

Definition bob : QuickMatchRequest := Request "bob" [x03; x04].

Definition example_random (n : nat) : byte := byte_of_Z (Z.of_nat n).

Definition logged_out (db : gmap string user) (u : string) : Prop :=
  forall r, db !! u = Some r -> logged_in r = false.

(** The three releases of a janitor, as a relation between the state
    before and after its [run]. *)
Definition releases_all (j : janitor) (s s' : state) : Prop :=
  ports_to_use s' = ports_to_use s ++ [j_port j] /\
  match_limit s' = S (match_limit s) /\
  (forall u, u ∈ player_list j -> logged_out (database s') u) /\
  (forall u, u ∉ player_list j -> database s' !! u = database s !! u).


(** The entry [e] was appended to the waiting deque by the [i]-th event of
    [evs], a request of [e]'s sender, with a token drawn at that moment
    from the next 32 unread random bytes. *)
Definition issued_at (s0 : state) (evs : list event) (i : nat) (e : entry)
    : Prop :=
  exists s_i : state,
    evs !! i = Some (Recv e.1.1 e.1.2) /\
    run s0 (take i evs) = Some s_i /\
    pc s_i = Receiving /\
    e.2 = hexlify (map (stream (entropy s_i)) (seq (pos (entropy s_i)) 32)) /\
    match_requests (handle_request e.1.1 e.1.2 s_i) = match_requests s_i ++ [e] /\
    pos (entropy (handle_request e.1.1 e.1.2 s_i)) = (pos (entropy s_i) + 32)%nat.

Definition issued (s0 : state) (evs : list event) (e : entry) : Prop :=
  exists i : nat, issued_at s0 evs i e.

(** The requests waiting or being matched. *)
Definition in_flight (s : state) : list entry :=
  match_requests s ++
  match pc s with
  | GettingPort new_players | WaitingReady _ new_players _ _ => new_players
  | _ => []
  end.

Definition successful (r : QuickMatchReply) : Prop :=
  server r <> "FAIL" \/ response r = "".

Definition token_inv (s0 : state) (evs : list event) (s : state) : Prop :=
  (forall e, e ∈ in_flight s -> issued s0 evs e) /\
  (forall identity r,
     (identity, r) ∈ sent s -> successful r ->
     exists e, issued s0 evs e /\ e.1.1 = identity /\
               username e.1.2 = reply_username r /\ e.2 = auth_key r).

End MatchmakerVocabulary.

Section AdapterVocabulary.
Import ClientNetworkEnv.
Variable pickle_loads : list byte -> option (list Z).


(** [obs] is the dictionary of the attributes of [p] named in [names]:
    one entry for each of these names, holding that attribute, and no
    other entry. *)
Definition observes (names : list string) (p : Player)
    (obs : gmap string string) : Prop :=
  forall n : string,
    obs !! n = if decide (n ∈ names) then Some (dimension p n) else None.


(** The worker after [n] polling rounds that ended on [snap]. *)
Definition polled (n : nat) (snap : snapshot) (rest : list snapshot)
    (w : worker) : worker :=
  Worker (MkDataframe (snap_server_states snap) (snap_player snap)
            (staged (dataframe w)) (committed (dataframe w))
            (pushed (dataframe w)) rest)
         (snap_player snap) (dimension_names w) (n + ticks w).

(** The worker once [step] has written and pushed its action. *)
Definition after_action (a : string) (p0 : Player) (w : worker) : worker :=
  let d := dataframe w in
  Worker (MkDataframe (server_states d) (own_record d) [] []
            (pushed d ++ committed d ++ [staged d ++ [SetAction a; SetReady true]])
            (incoming d))
         (Some (MkPlayer (pid p0) (name p0) (number p0) (turn p0) a true
                  (reward_from_last_turn p0) (acknowledges_game_over p0)
                  (dimension p0)))
         (dimension_names w) (ticks w).

(** The worker once it has acknowledged the end of the game. *)
Definition acknowledged (p : Player) (w : worker) : worker :=
  let d := dataframe w in
  Worker (MkDataframe (server_states d) (own_record d) [] []
            (pushed d ++ committed d ++ [staged d ++ [SetAcknowledged true]])
            (incoming d))
         (Some (MkPlayer (pid p) (name p) (number p) (turn p) (action p)
                  (ready_for_action_to_be_taken p) (reward_from_last_turn p)
                  true (dimension p)))
         (dimension_names w) (ticks w).

(** What [step] does after the polling: read the observation and the
    reward, look at [terminal], acknowledge, answer. *)
Definition report (w : worker) : outcome step_reply :=
  match player w, server_states (dataframe w) with
  | None, _ => Raise AttributeError w
  | Some p, [] => Raise IndexError w
  | Some p, ss :: _ =>
      if terminal ss then
        match pickle_loads (winners ss) with
        | None => Raise UnpicklingError w
        | Some ws =>
            Ret (read_dimensions (dimension_names w) p,
                 reward_from_last_turn p, true, Some ws) (acknowledged p w)
        end
      else Ret (read_dimensions (dimension_names w) p,
                reward_from_last_turn p, false, None) w
  end.

End AdapterVocabulary.

Section AdapterExampleData.
Import ClientNetworkEnv.

Definition example_unpickle (blob : list byte) : option (list Z) :=
  match blob with
  | [] => None
  | _ => Some (map PyStr.Z_of_byte blob)
  end.

Definition running_state : ServerState :=
  MkServerState "Test" ["x"] false [] [].

Definition final_state : ServerState :=
  MkServerState "Test" ["x"] true [x00] [].

Definition my_turn : Player :=
  MkPlayer 7 "token" 0 true "" false 0%Q false (fun _ => "first").

Definition not_my_turn : Player :=
  MkPlayer 7 "token" 0 false "go" false 0%Q false (fun _ => "first").

Definition my_last_turn : Player :=
  MkPlayer 7 "token" 0 true "go" false 1%Q false (fun _ => "last").

(** A client in a running game; the server will publish two versions. *)
Definition example_env : env :=
  Env (Worker (MkDataframe [running_state] (Some my_turn) [] [] []
                 [Snapshot [running_state] (Some not_my_turn);
                  Snapshot [final_state] (Some my_last_turn)])
              (Some my_turn) ["x"] 0)
      Serving [] false (read_dimensions ["x"] my_turn).


End AdapterExampleData.

Section RequestGameVocabulary.
Import PyStr RequestGame.

(** How often the character [c] occurs in [s]. *)
Fixpoint occurs (c : ascii) (s : string) : nat :=
  match s with
  | EmptyString => 0
  | String c' s' => (if Ascii.eqb c' c then 1 else 0) + occurs c s'
  end.

Fixpoint digit_string (s : string) : bool :=
  match s with
  | EmptyString => true
  | String c s' => is_digit c && digit_string s'
  end.

(** The number a string of digits denotes, read from the left. *)
Fixpoint digits_number (acc : Z) (s : string) : Z :=
  match s with
  | EmptyString => acc
  | String c s' => digits_number (acc * 10 + (code_point c - 48)) s'
  end.

End RequestGameVocabulary.

Section AccountingVocabulary.
Import PyStr RankingDatabase Messages Matchmaker.

(** A janitor that has not finished still holds its semaphore unit: its
    match server runs, it is in its cleanup, or it raised. *)
Definition holding (j : janitor) : bool :=
  match status j with
  | Finished => false
  | _ => true
  end.

Definition is_running (j : janitor) : bool :=
  match status j with
  | Running => true
  | _ => false
  end.

Definition live (s : state) : list janitor := List.filter holding (janitors s).

(** Semaphore units taken: one per live janitor, and one by the matchmaker
    between [acquire] and the start of the janitor. *)
Definition units_out (s : state) : nat :=
  (length (live s) +
   match pc s with
   | GettingPort _ => 1
   | _ => 0
   end)%nat.

(** A janitor that has not put its port back: its match server runs or
    has just returned, or it raised. *)
Definition keeps_port (j : janitor) : bool :=
  match status j with
  | Running | Ended | Failed => true
  | LoggingOff _ | Finished => false
  end.

(** The ports taken from the queue and not put back. *)
Definition ports_out (s : state) : list Z :=
  map j_port (List.filter keeps_port (janitors s)).

Definition is_recv (ev : event) : bool :=
  match ev with
  | Recv _ _ => true
  | _ => false
  end.

Definition entry_username (e : entry) : string := username e.1.2.

(** The users waiting for a match: in the deque, or popped for a match
    whose janitor is not started yet. *)
Definition users_waiting (s : state) : list string :=
  map entry_username
    (match_requests s ++
     match pc s with
     | GettingPort new_players => new_players
     | _ => []
     end).

(** The users a janitor has not logged off: all of its players until its
    logoff loop starts, then those the loop has not reached. *)
Definition still_in (j : janitor) : list string :=
  match status j with
  | Running | Ended | Failed => player_list j
  | LoggingOff rest => rest
  | Finished => []
  end.

Definition users_playing (s : state) : list string :=
  concat (map still_in (janitors s)).

(** The requests received, answered and pending, each as the sender's
    identity and the username asked for. *)
Definition received (evs : list event) : list (list byte * string) :=
  omap (fun ev =>
          match ev with
          | Recv identity request => Some (identity, username request)
          | _ => None
          end) evs.

Definition answered (s : state) : list (list byte * string) :=
  map (fun x : list byte * QuickMatchReply => (x.1, reply_username x.2))
      (sent s).

Definition pending (s : state) : list (list byte * string) :=
  map (fun e : entry => (e.1.1, entry_username e)) (in_flight s).

(** Before [acquire], the deque holds enough requests for a cohort. *)
Definition enough_waiting (s : state) : Prop :=
  pc s = Acquiring ->
  players_per_game s <= Z.of_nat (length (match_requests s)).

Definition logged_in_at (db : gmap string user) (u : string) : Prop :=
  exists r, db !! u = Some r /\ logged_in r = true.

(** The user of a queue entry has a row in the user table. *)
Definition known (db : gmap string user) (e : entry) : Prop :=
  is_Some (db !! entry_username e).

(** What keeps the matchmaker loop from raising: enough entries to pop,
    and a ranking for every user it replies to. *)
Definition safe (s : state) : Prop :=
  enough_waiting s /\
  Forall (known (database s)) (match_requests s) /\
  match pc s with
  | GettingPort new_players => Forall (known (database s)) new_players
  | WaitingReady _ new_players _ database_entries =>
      Forall (fun e => is_Some (database_entries !! entry_username e))
             new_players
  | Crashed => False
  | _ => True
  end.

(** The reply [r] sends its reader to the match server of janitor [j],
    with a token of its whitelist. *)
Definition directs_to (host : string) (j : janitor) (r : QuickMatchReply)
    : Prop :=
  exists (e : entry) (rk : Q),
    r = success_reply host (j_port j) rk e /\
    e.2 ∈ whitelist j /\ entry_username e ∈ player_list j.

(** Every port in use comes from [ports]; every reply is a failure or
    leads to a janitor whose match server is ready; the janitor the
    matchmaker waits for is the one of the popped cohort. *)
Definition reply_inv (ports : list Z) (s : state) : Prop :=
  (forall p, p ∈ ports_to_use s -> p ∈ ports) /\
  (forall jid j, janitors s !! jid = Some j -> j_port j ∈ ports) /\
  (forall ident r, (ident, r) ∈ sent s ->
     ~ successful r \/
     exists jid j, janitors s !! jid = Some j /\ ready j = true /\
                   directs_to (hostname s) j r) /\
  (forall jid new_players match_port database_entries,
     pc s = WaitingReady jid new_players match_port database_entries ->
     exists j, janitors s !! jid = Some j /\ j_port j = match_port /\
               whitelist j = map (fun e : entry => e.2) new_players /\
               player_list j = map entry_username new_players).

(** The matchmaker waits in [ready.wait()] for janitor [jid], whose match
    server has ended without setting [ready]. *)
Definition blocked (jid : nat) (s : state) : Prop :=
  exists new_players match_port database_entries j,
    pc s = WaitingReady jid new_players match_port database_entries /\
    janitors s !! jid = Some j /\ ready j = false /\ status j <> Running.

(** The users the matchmaker holds: waiting, or in a match and not logged
    off by its janitor. *)
Definition active (s : state) : list string :=
  users_waiting s ++ users_playing s.

(** Nobody is held twice, and the users held are the users logged in. *)
Definition login_inv (s : state) : Prop :=
  NoDup (active s) /\
  forall u, logged_in_at (database s) u <-> u ∈ active s.

(** Every match has as many players and tokens as a game needs. *)
Definition full_matches (n : Z) (s : state) : Prop :=
  players_per_game s = n /\
  (forall new_players, pc s = GettingPort new_players ->
     length new_players = Z.to_nat n) /\
  (forall jid new_players match_port database_entries,
     pc s = WaitingReady jid new_players match_port database_entries ->
     length new_players = Z.to_nat n) /\
  (forall jid j, janitors s !! jid = Some j ->
     length (player_list j) = Z.to_nat n /\
     length (whitelist j) = Z.to_nat n).

End AccountingVocabulary.

Section ClientAppVocabulary.
Import ClientNetworkEnv ClientApp.
Variable pickle_loads : list byte -> option (list Z).

(** A version of the player record seen while waiting for the first turn:
    the game has not started, or it is not the player's turn. *)
Definition not_yet (x : option Player) : Prop :=
  exists q, x = Some q /\ (number q = -1 \/ turn q = false).

Definition started (x : option Player) : Prop :=
  exists q, x = Some q /\ number q <> -1.

(** The adapter after the calls [step(a)] for [a] in [actions], whatever
    they answered. *)
Fixpoint step_all (actions : list string) (c : env) : env :=
  match actions with
  | [] => c
  | a :: rest => step_all rest (step pickle_loads a c).2
  end.

(** The adapter has answered [r] with [terminal] set and serves commands. *)
Definition over (r : step_reply) (c : env) : Prop :=
  let w := player_client c in
  let d := dataframe w in
  app_remote_closed c = false /\ client_status c = Serving /\
  exists p ss tail ws,
    player w = Some p /\ acknowledges_game_over p = true /\
    server_states d = ss :: tail /\ terminal ss = true /\
    pickle_loads (winners ss) = Some ws /\
    staged d = [] /\ committed d = [] /\
    r = (read_dimensions (dimension_names w) p, reward_from_last_turn p,
         true, Some ws).

End ClientAppVocabulary.

(* ===================================================================== *)
(** * Properties                                                          *)
(* ===================================================================== *)

(** ** Password hashing *)

Section HashObject.
Import PyStr Sha256.

(** Extra fuel does not change what [absorb] computes. *)
Lemma absorb_fuel (n m : nat) : forall (h : regs) (data : list byte),
  (length data <= n)%nat -> (length data <= m)%nat ->
  absorb n h data = absorb m h data.
Proof.
  revert m. induction n as [|n IH]; intros m h data Hn Hm.
  - destruct data; [|simpl in Hn; lia]. by destruct m.
  - simpl. destruct (Nat.ltb_spec (length data) 64) as [Hlt|Hge].
    + destruct m; [done|]. simpl.
      by destruct (Nat.ltb_spec (length data) 64); [|lia].
    + destruct m as [|m]; [lia|]. simpl.
      destruct (Nat.ltb_spec (length data) 64); [lia|].
      apply IH; rewrite length_drop; lia.
Qed.

(** Absorbing [a ++ b] is absorbing [a], then what [a] left over
    followed by [b]. *)
Lemma absorb_app (n : nat) : forall (a : list byte) (h : regs) (b : list byte),
  (length a <= n)%nat ->
  absorb (length (a ++ b)) h (a ++ b) =
  absorb (length ((absorb n h a).2 ++ b)) (absorb n h a).1 ((absorb n h a).2 ++ b).
Proof.
  induction n as [|n IH]; intros a h b Hn.
  - by destruct a; [|simpl in Hn; lia].
  - simpl. destruct (Nat.ltb_spec (length a) 64) as [Hlt|Hge]; [done|].
    assert (Hlen : length (a ++ b) = S (length (a ++ b) - 1)).
    { rewrite length_app. lia. }
    rewrite Hlen at 1. simpl.
    destruct (Nat.ltb_spec (length (a ++ b)) 64) as [Hlt'|_].
    { rewrite length_app in Hlt'. lia. }
    rewrite take_app_le, drop_app_le by lia.
    rewrite (absorb_fuel _ (length (drop 64 a ++ b))).
    + apply IH. rewrite length_drop. lia.
    + rewrite !length_app, length_drop. lia.
    + done.
Qed.

Lemma holds_new : holds new [].
Proof. done. Qed.

Lemma holds_update (m : hasher) (data x : list byte) :
  holds m data -> holds (update m x) (data ++ x).
Proof.
  intros [Habs Hfed]. unfold update.
  destruct (absorb (length (pending m ++ x)) (chain m) (pending m ++ x))
    as [h rest] eqn:E.
  split; simpl.
  - rewrite (absorb_app (length data)) by done. by rewrite Habs.
  - rewrite length_app. lia.
Qed.

Lemma holds_digest (m : hasher) (data : list byte) :
  holds m data -> digest m = sha256 data.
Proof.
  intros [Habs Hfed]. unfold digest, sha256. rewrite Hfed.
  rewrite (absorb_app (length data) data) by done. by rewrite Habs.
Qed.

(** Feeding a message in two pieces gives the digest of the whole. *)
Lemma update_update_digest (a b : list byte) :
  digest (update (update new a) b) = sha256 (a ++ b).
Proof.
  apply holds_digest. apply (holds_update _ a b).
  apply (holds_update new [] a), holds_new.
Qed.

End HashObject.

Example round_constants :
  length Sha256.K = 64%nat /\
  Sha256.K !! 0%nat = Some 0x428a2f98 /\ Sha256.K !! 63%nat = Some 0xc67178f2 /\
  Sha256.ra Sha256.H0 = 0x6a09e667 /\ Sha256.rh Sha256.H0 = 0x5be0cd19.
Proof. repeat split. Qed.

(** SHA-256 itself, on the test vectors of FIPS 180-4. *)
Example sha256_abc :
  PyStr.hexlify (Sha256.sha256 (PyStr.encode "abc")) =
  "ba7816bf8f01cfea414140de5dae2223b00361a396177a9cb410ff61f20015ad"%string.
Proof. vm_compute. reflexivity. Qed.

Example sha256_empty :
  PyStr.hexlify (Sha256.sha256 []) =
  "e3b0c44298fc1c149afbf4c8996fb92427ae41e4649b934ca495991b7852b855"%string.
Proof. vm_compute. reflexivity. Qed.

Example sha256_two_blocks :
  PyStr.hexlify (Sha256.sha256 (PyStr.encode
    "abcdbcdecdefdefgefghfghighijhijkijkljklmklmnlmnomnopnopq")) =
  "248d6a61d20638b8e5c026930c3e6039a33ce45964ff2167f6ecedd419db06c1"%string.
Proof. vm_compute. reflexivity. Qed.

(** C6. For every username [u] and password [p], [hash_password u p] is the
    SHA-256 digest of the password bytes followed by the username bytes; it
    is a function of its inputs (equal inputs give equal digests); and the
    order matters: for username "alice" and password "secret" it differs
    from the digest of the username bytes followed by the password bytes. *)
Theorem hash_password_spec :
  (forall u p : string,
     MatchmakingClient.hash_password u p =
     Sha256.sha256 (PyStr.encode p ++ PyStr.encode u)) /\
  (forall u p u' p' : string,
     u = u' -> p = p' ->
     MatchmakingClient.hash_password u p = MatchmakingClient.hash_password u' p') /\
  (exists u p : string,
     MatchmakingClient.hash_password u p <>
     Sha256.sha256 (PyStr.encode u ++ PyStr.encode p)).
Proof.
  split; [|split].
  - intros u p. apply update_update_digest.
  - by intros u p u' p' -> ->.
  - exists "alice"%string, "secret"%string. vm_compute. discriminate.
Qed.

(** ** Matchmaker start-up *)

Section Startup.
Import Matchmaker.

Lemma elem_of_py_range (a b p : Z) : p ∈ py_range a b <-> a <= p < b.
Proof.
  unfold py_range. rewrite list_elem_of_fmap. split.
  - intros (i & -> & Hi). apply elem_of_seq in Hi. lia.
  - intros Hp. exists (Z.to_nat (p - a)). split; [lia|].
    apply elem_of_seq. lia.
Qed.

Lemma NoDup_py_range (a b : Z) : NoDup (py_range a b).
Proof.
  unfold py_range. apply NoDup_fmap_2; [|apply NoDup_seq].
  intros i j. lia.
Qed.

Lemma elem_of_probe_ports (used : Z -> bool) (a b p : Z) :
  p ∈ probe_ports used a b <-> a <= p < b /\ used p = false.
Proof.
  unfold probe_ports. rewrite list_elem_of_filter, elem_of_py_range. tauto.
Qed.

(** The matchmaker that [__init__] constructs. *)
Lemma init_Ok (used : Z -> bool) (random : nat -> byte)
    (stored : gmap string RankingDatabase.user)
    (starting_port : Z) (host : string) (max_games min_players : Z)
    (s : state) :
  init used random stored starting_port host max_games min_players = InitOk s ->
  s = State min_players host [] (Z.to_nat max_games)
        (probe_ports used starting_port (starting_port + 2 * max_games))
        (RankingDatabase.connect stored) [] [] (Rng random 0) Receiving /\
  max_games <=
    Z.of_nat (length (probe_ports used starting_port
                        (starting_port + 2 * max_games))).
Proof.
  unfold init. destruct (Z.ltb_spec max_games 0); [done|].
  destruct (Z.ltb_spec
              (Z.of_nat (length (probe_ports used starting_port
                                   (starting_port + 2 * max_games))))
              max_games); [done|].
  by intros [= <-].
Qed.

(** C5. At start-up the free-port queue receives exactly the ports of
    [starting_port, starting_port + 2*max_games) that are not in use (in
    increasing order, each once); a matchmaker is constructed only when at
    least [max_games] of them exist, and otherwise the constructor raises
    (OSError; ValueError from the semaphore when [max_games] is negative). *)
Theorem init_free_ports (used : Z -> bool) (random : nat -> byte)
    (stored : gmap string RankingDatabase.user)
    (starting_port : Z) (host : string) (max_games min_players : Z) :
  let free := probe_ports used starting_port (starting_port + 2 * max_games) in
  (forall p, p ∈ free <->
             starting_port <= p < starting_port + 2 * max_games /\ used p = false) /\
  NoDup free /\
  match init used random stored starting_port host max_games min_players with
  | InitOk s =>
      ports_to_use s = free /\ max_games <= Z.of_nat (length free) /\
      match_limit s = Z.to_nat max_games /\ match_requests s = [] /\
      pc s = Receiving /\ players_per_game s = min_players
  | InitOSError _ _ _ => Z.of_nat (length free) < max_games
  | InitValueError => max_games < 0
  end.
Proof.
  intros free. split; [|split].
  - intros p. apply elem_of_probe_ports.
  - apply NoDup_filter, NoDup_py_range.
  - destruct (init _ _ _ _ _ _ _) as [s| |a b c] eqn:Hinit.
    + apply init_Ok in Hinit as [-> Hlen]. by repeat split.
    + unfold init in Hinit. destruct (Z.ltb_spec max_games 0); [done|].
      by destruct (_ <? _).
    + unfold init in Hinit. destruct (Z.ltb_spec max_games 0); [done|].
      fold free in Hinit.
      by destruct (Z.ltb_spec (Z.of_nat (length free)) max_games).
Qed.

End Startup.

(** ** The match janitor *)

Section Janitor.
Import RankingDatabase Matchmaker.

Lemma logoff_lookup (db : gmap string user) (u v : string) :
  logoff db u !! v =
  if decide (u = v)
  then (fun r => User (password_hash r) (ranking r) false) <$> db !! v
  else db !! v.
Proof.
  unfold logoff. destruct (decide (u = v)) as [->|Hne].
  - destruct (db !! v) as [r|] eqn:E; simpl.
    + by rewrite lookup_insert_eq.
    + done.
  - destruct (db !! u); [|done]. by rewrite lookup_insert_ne.
Qed.

Lemma logoff_logged_out (db : gmap string user) (u v : string) :
  u = v \/ logged_out db v -> logged_out (logoff db u) v.
Proof.
  intros H r. rewrite logoff_lookup. destruct (decide (u = v)) as [->|Hne].
  - destruct (db !! v); simpl; [|done]. by intros [= <-].
  - destruct H as [?|H]; [done|]. apply H.
Qed.

Lemma foldl_logoff_logged_out (players : list string) :
  forall (db : gmap string user) (v : string),
    v ∈ players \/ logged_out db v -> logged_out (foldl logoff db players) v.
Proof.
  induction players as [|u players IH]; intros db v H; simpl.
  - destruct H as [H|H]; [by apply elem_of_nil in H|done].
  - apply IH. destruct H as [H|H].
    + apply elem_of_cons in H as [->|H]; [|by left].
      right. apply logoff_logged_out. by left.
    + right. apply logoff_logged_out. by right.
Qed.

Lemma foldl_logoff_other (players : list string) :
  forall (db : gmap string user) (v : string),
    v ∉ players -> foldl logoff db players !! v = db !! v.
Proof.
  induction players as [|u players IH]; intros db v H; simpl; [done|].
  apply not_elem_of_cons in H as [Hne Hnot].
  rewrite IH by done. rewrite logoff_lookup. by destruct (decide (u = v)).
Qed.

(** C3 (as amended). When the match server started by the janitor returns,
    [run] puts the match port back on the free-port queue once, logs off
    every cohort username (and nobody else) and releases one unit of the
    match-limit semaphore.  [run] has no exception handler: when starting
    or running the match server raises, the exception leaves [run] and the
    port queue, the semaphore and the database are as before. *)
Theorem janitor_run_releases (j : janitor) (s : state) :
  (fst (janitor_run j Returned s) = Some tt /\
   releases_all j s (snd (janitor_run j Returned s))) /\
  janitor_run j Raised s = (None, s) /\
  (forall jid : nat,
     janitors s !! jid = Some j -> status j = Running ->
     (exists s', step s (ServerDone jid Returned) = Some s' /\
                 releases_all j s s') /\
     (exists s', step s (ServerDone jid Raised) = Some s' /\
                 ports_to_use s' = ports_to_use s /\
                 match_limit s' = match_limit s /\
                 database s' = database s)).
Proof.
  assert (Hrel : releases_all j s (cleanup (j_port j) (player_list j) s)).
  { unfold releases_all. simpl. repeat split.
    - intros u Hu. apply foldl_logoff_logged_out. by left.
    - intros u Hu. by apply foldl_logoff_other. }
  split; [by split|]. split; [done|].
  intros jid Hj Hrun. split; eexists; unfold step;
    (split; [destruct (pc s); rewrite Hj, Hrun; reflexivity|]); done.
Qed.

End Janitor.

(** ** Concrete runs *)

Section Examples.
Import PyStr RankingDatabase Messages MatchmakingClient Matchmaker.

Example example_start_init (min_players : Z) :
  init (fun _ => false) (fun n => byte_of_Z (Z.of_nat n)) ∅ 21450 "localhost" 1
       min_players = InitOk (example_start min_players).
Proof. reflexivity. Qed.

(** C3, counterexample. One-player matches; alice's match is started and
    its server raises: the port 21450 is not back in the queue, the only
    semaphore unit stays taken and alice stays logged in. *)
Lemma janitor_exception_leaks :
  exists s j s',
    run (example_start 1) [Recv [x0a] alice; Acquire; GetPort] = Some s /\
    janitors s !! 0%nat = Some j /\
    step s (ServerDone 0 Raised) = Some s' /\
    ports_to_use s' = [21451] /\
    match_limit s' = 0%nat /\
    logged_in <$> database s' !! "alice" = Some true /\
    ~ releases_all j s s'.
Proof.
  eexists _, _, _.
  split; [reflexivity|]. split; [reflexivity|]. split; [reflexivity|].
  split; [reflexivity|]. split; [reflexivity|]. split; [reflexivity|].
  intros (Hports & _). vm_compute in Hports. discriminate.
Qed.

End Examples.

(** ** The request loop: logging in *)

Section Login.
Import PyStr RankingDatabase Messages MatchmakingClient Matchmaker.





(** C4. When [login] answers [LoginDuplicate], the iteration sends the
    single reply (server "FAIL", the duplicate-login message) to the
    requester and returns to receiving; the waiting deque, the semaphore,
    the port queue, the janitors and the token randomness are untouched. *)
Theorem duplicate_login_reply (s : state) (identity : list byte)
    (request : QuickMatchRequest) :
  pc s = Receiving ->
  (login (database s) (username request) (password request)).1 = LoginDuplicate ->
  exists s',
    step s (Recv identity request) = Some s' /\
    sent s' = sent s ++
      [(identity,
        Reply (username request) "FAIL" "FAIL" 0%Q
              "Failed to login: Cannot login twice at the same time.")] /\
    match_requests s' = match_requests s /\
    match_limit s' = match_limit s /\
    ports_to_use s' = ports_to_use s /\
    janitors s' = janitors s /\
    entropy s' = entropy s /\
    pc s' = Receiving.
Proof.
  intros Hpc Hdup. eexists. split.
  - unfold step. rewrite Hpc. reflexivity.
  - unfold handle_request. rewrite Hdup. simpl. by rewrite Hpc.
Qed.

(** Bob asks twice while three players are needed. *)
Lemma duplicate_login_reply_witness :
  let s := handle_request [x0b] bob (example_start 3) in
  pc s = Receiving /\
  (login (database s) "bob" [x03; x04]).1 = LoginDuplicate /\
  exists s',
    step s (Recv [x0c] bob) = Some s' /\
    sent s' = sent s ++
      [([x0c], Reply "bob" "FAIL" "FAIL" 0%Q
                 "Failed to login: Cannot login twice at the same time.")] /\
    match_requests s' = match_requests s /\
    match_limit s' = match_limit s /\
    ports_to_use s' = ports_to_use s /\
    janitors s' = janitors s /\
    entropy s' = entropy s /\
    pc s' = Receiving.
Proof.
  split; [reflexivity|]. split; [reflexivity|].
  apply (duplicate_login_reply
           (handle_request [x0b] bob (example_start 3)) [x0c] bob);
    reflexivity.
Defined.




End Login.

(** ** The request loop: forming a cohort *)

Section Cohort.
Import PyStr RankingDatabase Messages Matchmaker.

Lemma deque_pop_snoc {A : Type} (d : list A) (x : A) :
  deque_pop (d ++ [x]) = Some (x, d).
Proof. unfold deque_pop. by rewrite reverse_snoc, reverse_involutive. Qed.

(** Popping [n] times takes the [n] rightmost elements, rightmost first. *)
Lemma pop_many_app {A : Type} (xs : list A) :
  forall front : list A,
    pop_many (length xs) (front ++ xs) = Some (reverse xs, front).
Proof.
  induction xs as [|y ys IH] using rev_ind; intros front.
  - by rewrite app_nil_r.
  - rewrite length_app, Nat.add_1_r, app_assoc. simpl.
    rewrite deque_pop_snoc, IH. by rewrite reverse_snoc.
Qed.


Lemma pop_many_Some {A : Type} (n : nat) :
  forall (d xs rest : list A),
    pop_many n d = Some (xs, rest) -> d = rest ++ reverse xs /\ length xs = n.
Proof.
  induction n as [|n IH]; intros d xs rest H; simpl in H.
  - injection H as <- <-. by rewrite app_nil_r.
  - unfold deque_pop in H. destruct (reverse d) as [|x r] eqn:E; [done|].
    destruct (pop_many n (reverse r)) as [[ys d'']|] eqn:E2; [|done].
    injection H as <- <-. apply IH in E2 as [E2 Hlen].
    split; [|simpl; lia].
    rewrite reverse_cons, app_assoc, <- E2, <- reverse_cons, <- E.
    by rewrite reverse_involutive.
Qed.

Lemma send_replies_frame (entries : gmap string Q) (port : Z)
    (players : list entry) :
  forall s : state,
    let s' := (send_replies entries port players s).2 in
    players_per_game s' = players_per_game s /\
    hostname s' = hostname s /\
    match_requests s' = match_requests s /\
    match_limit s' = match_limit s /\
    ports_to_use s' = ports_to_use s /\
    database s' = database s /\
    janitors s' = janitors s /\
    entropy s' = entropy s /\
    pc s' = pc s.
Proof.
  induction players as [|e players IH]; intros s; simpl; [done|].
  destruct (entries !! username e.1.2); [|done].
  apply (IH (send_multipart _ _ s)).
Qed.

(** The moves of the janitors and of their match servers leave the
    variables of the matchmaker thread alone. *)
Lemma janitor_move_frame (s s' : state) (ev : event) :
  step s ev = Some s' ->
  match ev with
  | ReadySet _ | ServerReturns _ | CleanupStep _ | ServerDone _ _ => True
  | _ => False
  end ->
  players_per_game s' = players_per_game s /\ hostname s' = hostname s /\
  match_requests s' = match_requests s /\ sent s' = sent s /\
  entropy s' = entropy s /\ pc s' = pc s.
Proof.
  intros Hstep Hev. unfold step in Hstep.
  destruct ev as [identity request| | |jid| |jid|jid|jid o]; try done.
  - destruct (pc s) eqn:Hpc; destruct (janitors s !! jid) as [j|]; try done;
      destruct (status j); try done; by injection Hstep as <-.
  - destruct (pc s) eqn:Hpc; destruct (janitors s !! jid) as [j|]; try done;
      destruct (status j); try done; by injection Hstep as <-.
  - unfold cleanup_step in Hstep.
    destruct (pc s) eqn:Hpc; destruct (janitors s !! jid) as [j|]; try done;
      destruct (status j) as [| |[|user rest]| |]; try done;
      by injection Hstep as <-.
  - destruct (pc s) eqn:Hpc; destruct (janitors s !! jid) as [j|]; try done;
      destruct (status j); try done; injection Hstep as <-; by destruct o.
Qed.




(** The number of players per game is fixed at start-up. *)
Lemma step_players_per_game (s s' : state) (ev : event) :
  step s ev = Some s' -> players_per_game s' = players_per_game s.
Proof.
  intros Hstep. pose proof (janitor_move_frame s s' ev Hstep) as Hframe.
  unfold step in Hstep.
  destruct ev as [identity request| | |jid| |jid|jid|jid o].
  - destruct (pc s); try done. injection Hstep as <-.
    unfold handle_request. by destruct (login _ _ _).1.
  - destruct (pc s); try done. destruct (match_limit s); [done|].
    destruct (pop_many _ _) as [[? ?]|]; by injection Hstep as <-.
  - destruct (pc s); try done. destruct (ports_to_use s); [done|].
    by injection Hstep as <-.
  - destruct (pc s); destruct (janitors s !! jid) as [j|]; try done;
      destruct (status j); try done; by injection Hstep as <-.
  - destruct (pc s); try done. destruct (janitors s !! jid) as [j|]; [|done].
    destruct (ready j); [|done]. injection Hstep as <-.
    apply send_replies_frame.
  - by destruct (Hframe I) as (Hp & _).
  - by destruct (Hframe I) as (Hp & _).
  - destruct (pc s); destruct (janitors s !! jid) as [j|]; try done;
      destruct (status j); try done; injection Hstep as <-; by destruct o.
Qed.



End Cohort.

(** ** The request loop: tokens *)

Section Tokens.
Import PyStr RankingDatabase Messages Matchmaker.

Lemma hexlify_length (bs : list byte) :
  String.length (hexlify bs) = (2 * length bs)%nat.
Proof. induction bs as [|b bs IH]; simpl; [done|]. rewrite IH. lia. Qed.

Lemma hex_digits_of_byte (b : byte) :
  is_hex_char (hex_digit (Z_of_byte b / 16)) = true /\
  is_hex_char (hex_digit (Z_of_byte b mod 16)) = true.
Proof. destruct b; split; reflexivity. Qed.

Lemma all_hex_hexlify (bs : list byte) : all_hex (hexlify bs) = true.
Proof.
  induction bs as [|b bs IH]; [done|].
  cbn [hexlify all_hex]. destruct (hex_digits_of_byte b) as [-> ->].
  by rewrite IH.
Qed.

Lemma token_hex_shape (n : nat) (r : rng) :
  String.length (token_hex n r).1 = (2 * n)%nat /\
  all_hex (token_hex n r).1 = true /\
  pos (token_hex n r).2 = (pos r + n)%nat /\
  stream (token_hex n r).2 = stream r.
Proof.
  unfold token_hex, token_bytes. simpl.
  rewrite hexlify_length, all_hex_hexlify, length_map, length_seq. done.
Qed.

Lemma run_app (evs1 evs2 : list event) :
  forall s : state,
    run s (evs1 ++ evs2) =
    match run s evs1 with
    | Some s1 => run s1 evs2
    | None => None
    end.
Proof.
  induction evs1 as [|ev evs1 IH]; intros s; simpl; [done|].
  destruct (step s ev); [apply IH|done].
Qed.

Lemma issued_snoc (s0 : state) (evs : list event) (ev : event) (e : entry) :
  issued s0 evs e -> issued s0 (evs ++ [ev]) e.
Proof.
  intros (i & s_i & Hev & Hrun & H). exists i, s_i.
  pose proof (lookup_lt_Some _ _ _ Hev) as Hlt.
  split; [by rewrite lookup_app_l|].
  split; [|done]. by rewrite take_app_le by lia.
Qed.

Lemma handle_request_cases (s : state) (identity : list byte)
    (request : QuickMatchRequest) :
  let s' := handle_request identity request s in
  (match_requests s' = match_requests s /\ entropy s' = entropy s /\
   pc s' = pc s /\
   exists r, ~ successful r /\ sent s' = sent s ++ [(identity, r)]) \/
  (match_requests s' =
     match_requests s ++ [(identity, request, (token_hex 32 (entropy s)).1)] /\
   entropy s' = (token_hex 32 (entropy s)).2 /\
   sent s' = sent s /\
   (pc s' = Receiving \/ pc s' = Acquiring)).
Proof.
  unfold handle_request.
  destruct (login (database s) (username request) (password request)).1; simpl.
  - right. repeat split. destruct (_ <=? _); eauto.
  - left. repeat split. eexists. split; [|done]. unfold successful. simpl.
    intros [?|?]; done.
  - left. repeat split. eexists. split; [|done]. unfold successful. simpl.
    intros [?|?]; done.
  - right. repeat split. destruct (_ <=? _); eauto.
Qed.

Lemma send_replies_sent (entries : gmap string Q) (port : Z)
    (players : list entry) :
  forall (s : state) identity r,
    (identity, r) ∈ sent (send_replies entries port players s).2 ->
    (identity, r) ∈ sent s \/
    exists e, e ∈ players /\ e.1.1 = identity /\
              username e.1.2 = reply_username r /\ e.2 = auth_key r.
Proof.
  induction players as [|e players IH]; intros s identity r H; simpl in H.
  - by left.
  - destruct (entries !! username e.1.2) as [rk|]; [|by left].
    apply IH in H as [H|(e' & He' & H)].
    + simpl in H. apply elem_of_app in H as [H|H]; [by left|].
      apply list_elem_of_singleton in H. injection H as -> ->.
      right. exists e. split; [left|done].
    + right. exists e'. split; [by right|done].
Qed.

Lemma step_token_inv (s0 s s' : state) (evs : list event) (ev : event) :
  run s0 evs = Some s -> step s ev = Some s' ->
  token_inv s0 evs s -> token_inv s0 (evs ++ [ev]) s'.
Proof.
  intros Hrun Hstep [Hq Hs].
  assert (Hq' : forall e, e ∈ in_flight s -> issued s0 (evs ++ [ev]) e).
  { intros e He. by apply issued_snoc, Hq. }
  assert (Hs' : forall identity r,
     (identity, r) ∈ sent s -> successful r ->
     exists e, issued s0 (evs ++ [ev]) e /\ e.1.1 = identity /\
               username e.1.2 = reply_username r /\ e.2 = auth_key r).
  { intros identity r Hin Hok. destruct (Hs identity r Hin Hok) as (e & He & H).
    exists e. split; [by apply issued_snoc|done]. }
  clear Hq Hs. pose proof (janitor_move_frame s s' ev Hstep) as Hframe.
  unfold step in Hstep.
  destruct ev as [identity request| | |jid| |jid|jid|jid o].
  - destruct (pc s) eqn:Hpc; try done. injection Hstep as <-.
    unfold in_flight in Hq'. rewrite Hpc, app_nil_r in Hq'.
    destruct (handle_request_cases s identity request)
      as [(Hmr & _ & Hpc' & r & Hfail & Hsent)
         |(Hmr & Hent & Hsent & Hpc')].
    + split.
      * intros e. unfold in_flight. rewrite Hmr, Hpc', Hpc, app_nil_r. apply Hq'.
      * intros identity' r' Hin Hok. rewrite Hsent in Hin.
        apply elem_of_app in Hin as [Hin|Hin]; [by apply Hs'|].
        apply list_elem_of_singleton in Hin. by injection Hin as -> ->.
    + split; [|by rewrite Hsent].
      intros e. unfold in_flight.
      assert (Hnil : match pc (handle_request identity request s) with
                     | GettingPort np | WaitingReady _ np _ _ => np
                     | _ => []
                     end = []) by (by destruct Hpc' as [-> | ->]).
      rewrite Hnil, app_nil_r, Hmr. intros He.
      apply elem_of_app in He as [He|He]; [by apply Hq'|].
      apply list_elem_of_singleton in He. subst e.
      exists (length evs), s. simpl.
      split; [by rewrite lookup_app_r, Nat.sub_diag by lia|].
      split; [by rewrite take_app_length|].
      split; [done|]. split; [done|]. split; [done|].
      rewrite Hent. apply token_hex_shape.
  - destruct (pc s) eqn:Hpc; try done.
    destruct (match_limit s) as [|n]; [done|].
    unfold in_flight in Hq'. rewrite Hpc, app_nil_r in Hq'.
    destruct (pop_many _ _) as [[np rest]|] eqn:Hpop; injection Hstep as <-.
    + apply pop_many_Some in Hpop as [Hd _]. split; [|done].
      intros e. unfold in_flight. simpl. intros He. apply Hq'. rewrite Hd.
      apply elem_of_app in He as [He|He]; apply elem_of_app; [by left|right].
      by apply elem_of_reverse.
    + split; [|done]. intros e. unfold in_flight. simpl.
      rewrite app_nil_r. apply Hq'.
  - destruct (pc s) eqn:Hpc; try done.
    destruct (ports_to_use s) as [|p rest]; [done|]. injection Hstep as <-.
    unfold in_flight in Hq'. rewrite Hpc in Hq'. by split.
  - assert (Hj : exists js, s' = with_janitors js s).
    { destruct (pc s); destruct (janitors s !! jid) as [j|]; try done;
        destruct (status j); try done; injection Hstep as <-; eauto. }
    destruct Hj as [js ->]. by split.
  - destruct (pc s) eqn:Hpc; try done.
    destruct (janitors s !! jid) as [j|]; [|done].
    destruct (ready j); [|done]. injection Hstep as <-.
    unfold in_flight in Hq'. rewrite Hpc in Hq'.
    pose proof (send_replies_frame database_entries match_port new_players s)
      as (_ & _ & Hmr & _).
    split.
    + intros e. unfold in_flight. simpl. rewrite Hmr. intros He.
      apply Hq', elem_of_app. left.
      destruct (send_replies _ _ _ _).1; simpl in He;
        by rewrite app_nil_r in He.
    + intros identity r Hin Hok. simpl in Hin.
      apply send_replies_sent in Hin as [Hin|(e & He & Hid & Hu & Hk)];
        [by apply Hs'|].
      exists e. split; [|done]. apply Hq', elem_of_app. by right.
  - destruct (Hframe I) as (_ & _ & Hm & Hse & _ & Hc). split.
    + intros e. unfold in_flight. rewrite Hm, Hc. apply Hq'.
    + intros identity r. rewrite Hse. apply Hs'.
  - destruct (Hframe I) as (_ & _ & Hm & Hse & _ & Hc). split.
    + intros e. unfold in_flight. rewrite Hm, Hc. apply Hq'.
    + intros identity r. rewrite Hse. apply Hs'.
  - assert (Hj : exists js r, s' = with_janitors js r /\
              (r = s \/ exists p l, r = cleanup p l s)).
    { destruct (pc s); destruct (janitors s !! jid) as [j|]; try done;
        destruct (status j); try done; injection Hstep as <-;
        destruct o; simpl; eauto 10. }
    destruct Hj as (js & r & -> & [->|(p & l & ->)]); by split.
Qed.

Lemma run_token_inv (s0 : state) (evs : list event) :
  match_requests s0 = [] -> sent s0 = [] -> pc s0 = Receiving ->
  forall s, run s0 evs = Some s -> token_inv s0 evs s.
Proof.
  intros Hq0 Hs0 Hpc0.
  induction evs as [|ev evs IH] using rev_ind; intros s Hrun.
  - injection Hrun as <-. unfold token_inv, in_flight.
    rewrite Hq0, Hs0, Hpc0. split.
    + intros e He. by apply elem_of_nil in He.
    + intros identity r He. by apply elem_of_nil in He.
  - rewrite run_app in Hrun. destruct (run s0 evs) as [s1|] eqn:Hrun1; [|done].
    simpl in Hrun. destruct (step s1 ev) as [s2|] eqn:Hstep; [|done].
    injection Hrun as <-. eapply step_token_inv; eauto.
Qed.

(** The random bytes are read once each, in order. *)
Lemma step_entropy (s s' : state) (ev : event) :
  step s ev = Some s' ->
  stream (entropy s') = stream (entropy s) /\
  (pos (entropy s) <= pos (entropy s'))%nat.
Proof.
  intros Hstep. pose proof (janitor_move_frame s s' ev Hstep) as Hframe.
  unfold step in Hstep.
  destruct ev as [identity request| | |jid| |jid|jid|jid o].
  - destruct (pc s) eqn:Hpc; try done. injection Hstep as <-.
    destruct (handle_request_cases s identity request)
      as [(_ & -> & _)|(_ & -> & _)]; [done|].
    destruct (token_hex_shape 32 (entropy s)) as (_ & _ & -> & ->).
    split; [done|lia].
  - destruct (pc s); try done. destruct (match_limit s); [done|].
    destruct (pop_many _ _) as [[? ?]|]; by injection Hstep as <-.
  - destruct (pc s); try done. destruct (ports_to_use s); [done|].
    by injection Hstep as <-.
  - assert (Hj : exists js, s' = with_janitors js s).
    { destruct (pc s); destruct (janitors s !! jid) as [j|]; try done;
        destruct (status j); try done; injection Hstep as <-; eauto. }
    by destruct Hj as [js ->].
  - destruct (pc s); try done. destruct (janitors s !! jid) as [j|]; [|done].
    destruct (ready j); [|done]. injection Hstep as <-. simpl.
    pose proof (send_replies_frame database_entries match_port new_players s)
      as (_ & _ & _ & _ & _ & _ & _ & -> & _). done.
  - destruct (Hframe I) as (_ & _ & _ & _ & -> & _). done.
  - destruct (Hframe I) as (_ & _ & _ & _ & -> & _). done.
  - assert (Hj : exists js r, s' = with_janitors js r /\
              (r = s \/ exists p l, r = cleanup p l s)).
    { destruct (pc s); destruct (janitors s !! jid) as [j|]; try done;
        destruct (status j); try done; injection Hstep as <-;
        destruct o; simpl; eauto 10. }
    by destruct Hj as (js & r & -> & [->|(p & l & ->)]).
Qed.

Lemma run_entropy (evs : list event) :
  forall s s' : state,
    run s evs = Some s' ->
    stream (entropy s') = stream (entropy s) /\
    (pos (entropy s) <= pos (entropy s'))%nat.
Proof.
  induction evs as [|ev evs IH]; intros s s' Hrun; simpl in Hrun.
  - by injection Hrun as <-.
  - destruct (step s ev) as [s1|] eqn:Hstep; [|done].
    apply step_entropy in Hstep as [Hs Hp]. apply IH in Hrun as [Hs' Hp'].
    split; [congruence|lia].
Qed.

(** Tokens issued at different moments are made from disjoint stretches of
    the random bytes. *)
Lemma tokens_from_disjoint_randomness (s0 : state) (evs : list event)
    (i j : nat) (e e' : entry) :
  issued_at s0 evs i e -> issued_at s0 evs j e' -> (i < j)%nat ->
  exists k k' : nat,
    e.2 = hexlify (map (stream (entropy s0)) (seq k 32)) /\
    e'.2 = hexlify (map (stream (entropy s0)) (seq k' 32)) /\
    (k + 32 <= k')%nat.
Proof.
  intros (s_i & Hev & Hri & Hpci & Htok & _ & Hpos)
         (s_j & Hev' & Hrj & _ & Htok' & _) Hlt.
  exists (pos (entropy s_i)), (pos (entropy s_j)).
  destruct (run_entropy _ _ _ Hri) as [Hsi _].
  destruct (run_entropy _ _ _ Hrj) as [Hsj _].
  rewrite <- Hsi at 1. rewrite <- Hsj. split; [done|]. split; [done|].
  assert (Hmid : take j evs !! i = Some (Recv e.1.1 e.1.2)).
  { rewrite lookup_take_lt by done. done. }
  apply take_drop_middle in Hmid.
  rewrite take_take, Nat.min_l in Hmid by lia.
  rewrite <- Hmid, run_app, Hri in Hrj. simpl in Hrj.
  unfold step in Hrj. rewrite Hpci in Hrj.
  apply run_entropy in Hrj as [_ Hle]. lia.
Qed.

(** C9. A request is enqueued together with a token made at that moment
    by [token_hex 32], and every successful reply the matchmaker has sent
    answers a request of the same sender and username that an earlier event
    enqueued, and carries as [auth_key] the token made then from the next
    32 random bytes: 64 hexadecimal characters. *)
Theorem auth_key_is_own_token (used : Z -> bool) (random : nat -> byte)
    (stored : gmap string RankingDatabase.user)
    (starting_port : Z) (host : string) (max_games min_players : Z)
    (s0 s : state) (evs : list event)
    (identity : list byte) (r : QuickMatchReply) :
  init used random stored starting_port host max_games min_players = InitOk s0 ->
  run s0 evs = Some s ->
  (identity, r) ∈ sent s ->
  successful r ->
  (forall s1 identity1 request1,
     match_requests (handle_request identity1 request1 s1) = match_requests s1 \/
     match_requests (handle_request identity1 request1 s1) =
       match_requests s1 ++
       [(identity1, request1, (token_hex 32 (entropy s1)).1)]) /\
  String.length (auth_key r) = 64%nat /\
  all_hex (auth_key r) = true /\
  exists (i : nat) (s_i : state) (request : QuickMatchRequest),
    evs !! i = Some (Recv identity request) /\
    run s0 (take i evs) = Some s_i /\
    username request = reply_username r /\
    auth_key r =
      hexlify (map (stream (entropy s_i)) (seq (pos (entropy s_i)) 32)) /\
    auth_key r = (token_hex 32 (entropy s_i)).1 /\
    match_requests (handle_request identity request s_i) =
      match_requests s_i ++ [(identity, request, auth_key r)] /\
    pos (entropy (handle_request identity request s_i)) =
      (pos (entropy s_i) + 32)%nat.
Proof.
  intros Hinit Hrun Hin Hok.
  apply init_Ok in Hinit as [Hs0 _].
  assert (Hinit0 : match_requests s0 = [] /\ sent s0 = [] /\ pc s0 = Receiving)
    by (by subst s0).
  destruct Hinit0 as (Hq0 & Hsent0 & Hpc0).
  destruct (run_token_inv s0 evs Hq0 Hsent0 Hpc0 s Hrun) as [_ Hs].
  destruct (Hs identity r Hin Hok)
    as ([[id' request] token] & (i & s_i & Hev & Hri & Hpci & Htok & Hmr & Hpos)
        & Hid & Hu & Hk).
  cbn [fst snd] in Hev, Htok, Hmr, Hpos, Hid, Hu, Hk. subst id'.
  rewrite <- Hk. split; [|split; [|split]].
  - intros s1 identity1 request1.
    destruct (handle_request_cases s1 identity1 request1)
      as [(-> & _)|(-> & _)]; [by left|by right].
  - rewrite Htok, hexlify_length, length_map, length_seq. done.
  - rewrite Htok. apply all_hex_hexlify.
  - exists i, s_i, request. repeat split; done.
Qed.

End Tokens.

(** ** The client adapter *)

Section Adapter.
Import ClientNetworkEnv.
Variable pickle_loads : list byte -> option (list Z).

(** The observation dictionary has exactly the named attributes. *)
Lemma read_dimensions_observes (names : list string) (p : Player) :
  observes names p (read_dimensions names p).
Proof.
  unfold observes, read_dimensions.
  induction names as [|x names IH] using rev_ind; intros n.
  - simpl. rewrite lookup_empty.
    destruct (decide (n ∈ [])) as [H|_]; [by apply elem_of_nil in H|done].
  - rewrite foldl_app. simpl. destruct (decide (n = x)) as [->|Hne].
    + rewrite lookup_insert_eq.
      destruct (decide (x ∈ names ++ [x])) as [_|H]; [done|].
      exfalso. apply H, elem_of_app. right. by left.
    + rewrite lookup_insert_ne by done. rewrite IH.
      destruct (decide (n ∈ names)) as [Hin|Hnot];
        destruct (decide (n ∈ names ++ [x])) as [Hin'|Hnot']; try done.
      * exfalso. apply Hnot', elem_of_app. by left.
      * exfalso. apply elem_of_app in Hin' as [?|Hx]; [done|].
        by apply list_elem_of_singleton in Hx.
Qed.

Lemma polled_refresh (n : nat) (x snap : snapshot) (feed rest : list snapshot)
    (w : worker) :
  polled n snap rest (refresh x feed w) = polled (S n) snap rest w.
Proof. unfold polled, refresh. simpl. f_equal. lia. Qed.




Lemma serve_step_terminal (a : string) (w : worker) :
  game_is_terminal w = Ret true w ->
  serve_step pickle_loads a w = report pickle_loads w.
Proof.
  intros Ht. unfold serve_step, report, bind. rewrite Ht. simpl.
  unfold game_is_terminal in *. unfold the_player.
  destruct (player w) as [p|] eqn:Hp; [|done].
  destruct (server_states (dataframe w)) as [|ss tail] eqn:Hss; [done|].
  injection Ht as Ht. rewrite Ht. simpl. rewrite Hss.
  destruct (pickle_loads (winners ss)) as [ws|]; [|done].
  unfold raise, set_acknowledges_game_over, assign, bind, the_player, commit,
    push, ret, acknowledged. simpl. rewrite Hp. simpl.
  done.
Qed.

Lemma serve_step_not_terminal (a : string) (w : worker) (p0 : Player) :
  game_is_terminal w = Ret false w -> player w = Some p0 ->
  serve_step pickle_loads a w =
  match wait_for_turn (incoming (dataframe w)) (after_action a p0 w) with
  | Ret _ w1 => report pickle_loads w1
  | Raise e w1 => Raise e w1
  | Block w1 => Block w1
  end.
Proof.
  intros Ht Hp. unfold serve_step, bind at 1. rewrite Ht. simpl.
  unfold bind at 1. unfold bind at 1.
  unfold set_action, assign, bind at 1, the_player. rewrite Hp.
  unfold bind at 1. unfold set_ready, assign, bind at 1, the_player. simpl.
  unfold bind at 1, commit. simpl. unfold bind at 1, push. simpl.
  unfold with_dataframe, stage. simpl.
  replace (pushed (dataframe w) ++
           committed (dataframe w) ++
           [(staged (dataframe w) ++ [SetAction a]) ++ [SetReady true]])
    with (pushed (dataframe w) ++ committed (dataframe w) ++
          [staged (dataframe w) ++ [SetAction a; SetReady true]])
    by (by rewrite <- (app_assoc (staged (dataframe w)))).
  fold (after_action a p0 w).
  destruct (wait_for_turn _ _) as [[] w1|e w1|w1]; try done.
  unfold report, bind, the_player, game_is_terminal.
  destruct (player w1) as [p|] eqn:Hp1; [|done].
  destruct (server_states (dataframe w1)) as [|ss tail] eqn:Hss; [done|].
  destruct (terminal ss); [|done]. rewrite Hss.
  destruct (pickle_loads (winners ss)) as [ws|]; [|done].
  unfold raise, set_acknowledges_game_over, assign, bind, the_player, commit,
    push, ret, acknowledged. simpl. rewrite Hp1. simpl.
  done.
Qed.

Lemma serve_step_no_state (a : string) (w : worker) :
  server_states (dataframe w) = [] ->
  serve_step pickle_loads a w = Raise IndexError w.
Proof.
  intros H. unfold serve_step, bind at 1, game_is_terminal. by rewrite H.
Qed.

Lemma serve_step_no_player (a : string) (w : worker) :
  game_is_terminal w = Ret false w -> player w = None ->
  serve_step pickle_loads a w = Raise AttributeError w.
Proof.
  intros Ht Hp. unfold serve_step, bind at 1. rewrite Ht. simpl.
  unfold bind at 1. unfold bind at 1.
  unfold set_action, assign, bind at 1, the_player. by rewrite Hp.
Qed.

Lemma game_is_terminal_Ret (w : worker) (ss : ServerState)
    (tail : list ServerState) :
  server_states (dataframe w) = ss :: tail ->
  game_is_terminal w = Ret (terminal ss) w.
Proof. intros H. unfold game_is_terminal. by rewrite H. Qed.

(** Whatever [step] answers comes from [report]. *)
Lemma serve_step_Ret (a : string) (w w' : worker) (r : step_reply) :
  serve_step pickle_loads a w = Ret r w' ->
  exists w1, report pickle_loads w1 = Ret r w'.
Proof.
  intros H.
  destruct (server_states (dataframe w)) as [|ss tail] eqn:Hss.
  { by rewrite serve_step_no_state in H. }
  pose proof (game_is_terminal_Ret w ss tail Hss) as Ht.
  destruct (terminal ss).
  - rewrite serve_step_terminal in H by done. eauto.
  - destruct (player w) as [p0|] eqn:Hp.
    + rewrite (serve_step_not_terminal a w p0) in H by done.
      destruct (wait_for_turn _ _) as [[] w1|e w1|w1]; try done. eauto.
    + by rewrite serve_step_no_player in H.
Qed.




(** C8 (as amended). A [close()] on an adapter whose worker is serving
    commands makes the worker delete its player record, close its end of
    the pipe and leave its loop.  [close()] has no guard against a second
    call: the second call sends on the pipe whose other end is closed and
    raises [BrokenPipeError]; it changes nothing. *)
Theorem second_close_raises (c c' : env) :
  client_status c = Serving ->
  is_Some (player (player_client c)) ->
  close c = (Returns tt, c') ->
  client_status c' = Exited /\
  app_remote_closed c' = true /\
  (exists p, player (player_client c) = Some p /\
             staged (dataframe (player_client c')) =
             staged (dataframe (player_client c)) ++ [DeleteOne (pid p)]) /\
  close c' = (Raises BrokenPipeError, c').
Proof.
  intros Hserving [p Hp] H. unfold close in H.
  destruct (app_remote_closed c); [done|]. rewrite Hserving in H.
  unfold serve_close, bind, the_player in H. rewrite Hp in H.
  injection H as <-. simpl. repeat split. by exists p.
Qed.

End Adapter.

Section AdapterExamples.
Import ClientNetworkEnv.



(** C8, counterexample. The first [close()] returns; the second raises. *)
Lemma close_twice_raises :
  exists c1,
    close example_env = (Returns tt, c1) /\
    close c1 = (Raises BrokenPipeError, c1) /\
    close c1 <> (Returns tt, c1).
Proof.
  eexists. split; [reflexivity|]. split; [reflexivity|]. discriminate.
Qed.

Lemma second_close_raises_witness :
  client_status example_env = Serving /\
  is_Some (player (player_client example_env)) /\
  close example_env = (Returns tt, (close example_env).2) /\
  close (close example_env).2 = (Raises BrokenPipeError, (close example_env).2).
Proof.
  assert (H1 : client_status example_env = Serving) by reflexivity.
  assert (H2 : is_Some (player (player_client example_env)))
    by (by exists my_turn).
  assert (H3 : close example_env = (Returns tt, (close example_env).2))
    by reflexivity.
  split; [exact H1|]. split; [exact H2|]. split; [exact H3|].
  exact (proj2 (proj2 (proj2
    (second_close_raises example_env (close example_env).2 H1 H2 H3)))).
Defined.

End AdapterExamples.

Section MatchmakerExamples.
Import PyStr RankingDatabase Messages MatchmakingClient Matchmaker.



(** One player per game: alice asks and is matched at once. *)
Lemma auth_key_is_own_token_witness :
  let evs := [Recv [x0a] alice; Acquire; GetPort; ReadySet 0; Proceed] in
  let s := default (example_start 1) (run (example_start 1) evs) in
  let r := Reply "alice" "localhost:21450"
             "000102030405060708090a0b0c0d0e0f101112131415161718191a1b1c1d1e1f"
             1000%Q "" in
  init (fun _ => false) example_random ∅ 21450 "localhost" 1 1 =
    InitOk (example_start 1) /\
  run (example_start 1) evs = Some s /\
  ([x0a], r) ∈ sent s /\
  successful r /\
  String.length (auth_key r) = 64%nat /\
  all_hex (auth_key r) = true.
Proof.
  intros evs s r.
  assert (H1 : init (fun _ => false) example_random ∅ 21450 "localhost" 1 1 =
               InitOk (example_start 1)) by reflexivity.
  assert (H2 : run (example_start 1) evs = Some s) by reflexivity.
  assert (H3 : ([x0a], r) ∈ sent s) by (vm_compute; left).
  assert (H4 : successful r) by (by right).
  destruct (auth_key_is_own_token _ _ _ _ _ _ _ _ _ _ _ _ H1 H2 H3 H4)
    as (_ & Hlen & Hhex & _).
  repeat (split; [assumption|]). exact Hhex.
Defined.

(** Alice's one-player match ends. *)
Lemma janitor_run_releases_witness :
  let s := default (example_start 1)
             (run (example_start 1) [Recv [x0a] alice; Acquire; GetPort]) in
  let j := Janitor 21450 ["alice"]
             ["000102030405060708090a0b0c0d0e0f101112131415161718191a1b1c1d1e1f"]
             false Running in
  janitors s !! 0%nat = Some j /\
  status j = Running /\
  exists s', step s (ServerDone 0 Returned) = Some s' /\ releases_all j s s'.
Proof.
  intros s j.
  assert (H1 : janitors s !! 0%nat = Some j) by reflexivity.
  assert (H2 : status j = Running) by reflexivity.
  split; [exact H1|]. split; [exact H2|].
  exact (proj1 (proj2 (proj2 (janitor_run_releases j s)) 0%nat H1 H2)).
Defined.

Lemma init_free_ports_witness :
  init (fun p => p =? 21451) example_random ∅ 21450 "localhost" 2 2 =
    InitOk (State 2 "localhost" [] 2 [21450; 21452; 21453] ∅ [] []
              (Rng example_random 0) Receiving) /\
  init (fun p => p <? 21453) example_random ∅ 21450 "localhost" 2 2 =
    InitOSError 21450 21454 2 /\
  forall p, p ∈ probe_ports (fun p => p =? 21451) 21450 (21450 + 2 * 2) <->
            21450 <= p < 21450 + 2 * 2 /\ (p =? 21451) = false.
Proof.
  split; [reflexivity|]. split; [reflexivity|].
  exact (proj1 (init_free_ports (fun p => p =? 21451) example_random ∅ 21450
                  "localhost" 2 2)).
Defined.

Lemma hash_password_spec_witness :
  hash_password "alice" "secret" =
    Sha256.sha256 (encode "secret" ++ encode "alice") /\
  hexlify (hash_password "alice" "secret") =
    "d7e3797855cb8e429515e3b6148c9f403a8ca244d617bc4487ded80b69000241".
Proof.
  split; [exact (proj1 hash_password_spec "alice" "secret")|].
  vm_compute. reflexivity.
Defined.

End MatchmakerExamples.

(** ** [request_game]: reading the reply *)

Section ReadingTheReply.
Import PyStr Messages Matchmaker RequestGame.

Lemma append_cons (c : ascii) (s t : string) :
  String c s +:+ t = String c (s +:+ t).
Proof. reflexivity. Qed.

Lemma append_nil_l (t : string) : EmptyString +:+ t = t.
Proof. reflexivity. Qed.

Lemma append_nil_r (s : string) : s +:+ EmptyString = s.
Proof. induction s as [|c s IH]; [done|]. by rewrite append_cons, IH. Qed.

Lemma append_assoc (s t u : string) : (s +:+ t) +:+ u = s +:+ (t +:+ u).
Proof. induction s as [|c s IH]; [done|]. by rewrite !append_cons, IH. Qed.

Lemma split_on_not_nil (sep : ascii) (s : string) : split_on sep s <> [].
Proof.
  induction s as [|c s IH]; simpl; [done|].
  destruct (Ascii.eqb c sep); [done|]. by destruct (split_on sep s).
Qed.

(** [split] yields one piece more than there are separators. *)
Lemma split_on_length (sep : ascii) (s : string) :
  length (split_on sep s) = S (occurs sep s).
Proof.
  induction s as [|c s IH]; simpl; [done|].
  destruct (Ascii.eqb c sep); simpl; [by rewrite IH|].
  pose proof (split_on_not_nil sep s).
  destruct (split_on sep s); [done|]. simpl in *. lia.
Qed.

Lemma split_on_free (sep : ascii) (s : string) :
  occurs sep s = 0%nat -> split_on sep s = [s].
Proof.
  induction s as [|c s IH]; simpl; [done|].
  destruct (Ascii.eqb c sep); [done|]. intros H. by rewrite IH.
Qed.

Lemma split_on_app (sep : ascii) (h t : string) :
  occurs sep h = 0%nat ->
  split_on sep (h +:+ String sep t) = h :: split_on sep t.
Proof.
  induction h as [|c h IH]; rewrite ?append_cons, ?append_nil_l; simpl.
  - intros _. by rewrite Ascii.eqb_refl.
  - destruct (Ascii.eqb c sep); [done|]. intros H. by rewrite IH.
Qed.

Lemma occurs_app (c : ascii) (s t : string) :
  occurs c (s +:+ t) = (occurs c s + occurs c t)%nat.
Proof.
  induction s as [|c' s IH]; rewrite ?append_cons, ?append_nil_l; simpl; [done|].
  rewrite IH. lia.
Qed.

Lemma pretty_N_char_digit (x : N) :
  (x < 10)%N ->
  is_digit (pretty_N_char x) = true /\
  code_point (pretty_N_char x) - 48 = Z.of_N x.
Proof.
  intros H.
  assert (x = 0 \/ x = 1 \/ x = 2 \/ x = 3 \/ x = 4 \/ x = 5 \/ x = 6 \/ x = 7
          \/ x = 8 \/ x = 9)%N as Hx by lia.
  repeat (destruct Hx as [->|Hx]; [by split|]). by subst.
Qed.

Lemma digit_string_app (s t : string) :
  digit_string (s +:+ t) = digit_string s && digit_string t.
Proof.
  induction s as [|c s IH]; rewrite ?append_cons, ?append_nil_l; simpl; [done|].
  rewrite IH. by destruct (is_digit c).
Qed.

Lemma digits_number_app (s t : string) :
  forall acc, digits_number acc (s +:+ t) = digits_number (digits_number acc s) t.
Proof.
  induction s as [|c s IH]; intros acc; rewrite ?append_cons, ?append_nil_l;
    simpl; [done|]. apply IH.
Qed.

(** What [pretty] puts in front of the accumulator: the digits of [x]. *)
Lemma pretty_N_go_digits (x : N) :
  forall s : string,
    exists d : string,
      pretty_N_go x s = d +:+ s /\ digit_string d = true /\
      digits_number 0 d = Z.of_N x /\ ((0 < x)%N -> d <> EmptyString).
Proof.
  induction (N.lt_wf_0 x) as [x _ IH]; intros s.
  destruct (decide (x = 0%N)) as [->|Hx].
  - exists EmptyString. rewrite pretty_N_go_0. repeat split; try done.
  - rewrite pretty_N_go_step by lia.
    destruct (IH (x `div` 10)%N) with (s := String (pretty_N_char (x `mod` 10)) s)
      as (d & Hd & Hdig & Hval & _).
    { apply N.div_lt; lia. }
    destruct (pretty_N_char_digit (x `mod` 10)%N) as [Hc Hv].
    { apply N.mod_lt. lia. }
    exists (d +:+ String (pretty_N_char (x `mod` 10)) EmptyString).
    rewrite Hd. split; [|split; [|split]].
    + by rewrite append_assoc.
    + rewrite digit_string_app, Hdig. simpl. by rewrite Hc.
    + rewrite digits_number_app, Hval. simpl. rewrite Hv.
      rewrite (N.div_mod x 10) at 3 by lia. lia.
    + intros _. by destruct d.
Qed.

Lemma digit_facts (c : ascii) :
  is_digit c = true ->
  is_int_space c = false /\ Ascii.eqb c ":" = false /\
  Ascii.eqb c "-" = false /\ Ascii.eqb c "+" = false /\ Ascii.eqb c "_" = false.
Proof.
  destruct c as [[] [] [] [] [] [] [] []]; vm_compute; intros H;
    try discriminate H; by repeat split.
Qed.

Lemma digit_string_free (d : string) (c : ascii) :
  is_digit c = false -> digit_string d = true -> occurs c d = 0%nat.
Proof.
  intros Hc. induction d as [|c' d IH]; simpl; [done|].
  intros [H1 H2]%andb_true_iff. rewrite IH by done.
  destruct (Ascii.eqb_spec c' c) as [->|]; [congruence|done].
Qed.

Lemma lstrip_digits (d : string) : digit_string d = true -> lstrip d = d.
Proof.
  destruct d as [|c d]; simpl; [done|].
  intros [H1 _]%andb_true_iff. by destruct (digit_facts c H1) as [-> _].
Qed.

Lemma rstrip_digits (d : string) : digit_string d = true -> rstrip d = d.
Proof.
  induction d as [|c d IH]; simpl; [done|].
  intros [H1 H2]%andb_true_iff. rewrite IH by done.
  destruct (digit_facts c H1) as [-> _]. by destruct d.
Qed.

Lemma digits_value_digits (d : string) :
  digit_string d = true ->
  forall (acc : Z) (after : bool),
    digits_value acc after d =
    if decide (d = EmptyString) then (if after then Some acc else None)
    else Some (digits_number acc d).
Proof.
  induction d as [|c d IH]; simpl; [done|].
  intros [H1 H2]%andb_true_iff acc after. rewrite H1, IH by done.
  by destruct d.
Qed.

(** The decimal numeral of a positive number. *)
Lemma pretty_pos_digits (x : N) :
  (0 < x)%N ->
  digit_string (pretty x) = true /\ pretty x <> EmptyString /\
  digits_number 0 (pretty x) = Z.of_N x.
Proof.
  intros Hx. unfold pretty, pretty_N.
  destruct (decide (x = 0%N)); [lia|].
  destruct (pretty_N_go_digits x EmptyString) as (d & -> & Hd & Hv & Hne).
  rewrite append_nil_r. auto.
Qed.

(** [int] reads back what [format] wrote for an integer. *)
Lemma py_int_pretty (z : Z) : py_int (pretty z) = Some z.
Proof.
  assert (Hnat : forall d : string,
            digit_string d = true -> d <> EmptyString ->
            py_int d = Some (digits_number 0 d)).
  { intros d Hd Hne. unfold py_int. rewrite lstrip_digits, rstrip_digits by done.
    destruct d as [|c d]; [done|].
    pose proof Hd as [H1 _]%andb_true_iff.
    assert (Hgen : digits_value 0 false (String c d) =
                   Some (digits_number 0 (String c d))).
    { rewrite digits_value_digits by done. by destruct (decide _). }
    destruct c as [[] [] [] [] [] [] [] []]; try done. }
  destruct z as [|p|p].
  - reflexivity.
  - destruct (pretty_pos_digits (N.pos p)) as (Hd & Hne & Hv); [lia|].
    change (pretty (Z.pos p)) with (pretty (N.pos p)). rewrite Hnat by done.
    by rewrite Hv.
  - destruct (pretty_pos_digits (N.pos p)) as (Hd & Hne & Hv); [lia|].
    change (pretty (Z.neg p)) with ("-" +:+ pretty (N.pos p)).
    rewrite append_cons, append_nil_l. unfold py_int.
    assert (Hs : rstrip (lstrip (String "-" (pretty (N.pos p)))) =
                 String "-" (pretty (N.pos p))).
    { simpl. rewrite rstrip_digits by done. by destruct (pretty (N.pos p)). }
    rewrite Hs, digits_value_digits by done.
    destruct (decide _); [done|]. simpl. by rewrite Hv.
Qed.

Lemma pretty_Z_no_colon (z : Z) : occurs ":" (pretty z) = 0%nat.
Proof.
  destruct z as [|p|p]; [done|..].
  - change (pretty (Z.pos p)) with (pretty (N.pos p)).
    apply digit_string_free; [done|]. by apply pretty_pos_digits.
  - change (pretty (Z.neg p)) with ("-" +:+ pretty (N.pos p)).
    rewrite append_cons, append_nil_l. simpl.
    apply digit_string_free; [done|]. by apply pretty_pos_digits.
Qed.

(** What [request_game] makes of the reply of a started match. *)
Lemma reads_success_reply (username hostname : string)
    (match_port : Z) (rk : Q) (e : entry) :
  request_game_result username (success_reply hostname match_port rk e) =
  if decide (occurs ":" hostname = 0%nat)
  then Game (MkGameResponse hostname match_port (lower username) e.2 rk)
  else ValueError.
Proof.
  unfold request_game_result, success_reply. cbn [server auth_key reply_ranking].
  set (srv := hostname +:+ ":" +:+ pretty match_port).
  assert (Hocc : occurs ":" srv = S (occurs ":" hostname)).
  { unfold srv. rewrite occurs_app, append_cons, append_nil_l. simpl.
    rewrite pretty_Z_no_colon. lia. }
  assert (Hfail : String.eqb srv "FAIL" = false).
  { destruct (String.eqb_spec srv "FAIL") as [Heq|]; [|done].
    by rewrite Heq in Hocc. }
  rewrite Hfail. destruct (decide (occurs ":" hostname = 0%nat)) as [H0|Hn].
  - unfold srv. rewrite append_cons, append_nil_l, split_on_app by done.
    rewrite split_on_free by apply pretty_Z_no_colon.
    by rewrite py_int_pretty.
  - pose proof (split_on_length ":" srv) as Hlen. rewrite Hocc in Hlen.
    destruct (split_on ":" srv) as [|a [|b [|c l]]]; simpl in Hlen; try lia; done.
Qed.

(** X1. [request_game] reads the reply of a started match back exactly when
    the matchmaker's hostname holds no colon: it returns the hostname, the
    match port as an integer, the lowercased username, the token and the
    ranking.  With a colon in the hostname the split of [server] has more
    than two pieces and [request_game] raises ValueError. *)
Theorem request_game_reads_reply (username hostname : string)
    (match_port : Z) (rk : Q) (e : entry) :
  request_game_result username (success_reply hostname match_port rk e) =
  if decide (occurs ":" hostname = 0%nat)
  then Game (MkGameResponse hostname match_port (lower username) e.2 rk)
  else ValueError.
Proof. apply reads_success_reply. Qed.

End ReadingTheReply.

(** ** The request the client sends *)

Section ClientRequest.
Import PyStr Messages MatchmakingClient.

Lemma be_bytes_length (n : nat) : forall z : Z, length (Sha256.be_bytes n z) = n.
Proof.
  induction n as [|n IH]; intros z; simpl; [done|].
  rewrite length_app, IH. simpl. lia.
Qed.

Lemma output_length (h : Sha256.regs) : length (Sha256.output h) = 32%nat.
Proof. unfold Sha256.output. by rewrite !length_app, !be_bytes_length. Qed.

(** X2. The password that travels in a request is always 32 bytes long,
    whatever the username and the password are. *)
Theorem hash_password_length (u p : string) :
  length (hash_password u p) = 32%nat /\
  length (password (request_game_request u p)) = 32%nat.
Proof. split; apply output_length. Qed.

Lemma lower_char_idempotent (c : ascii) :
  lower_char (lower_char c) = lower_char c.
Proof. by destruct c as [[] [] [] [] [] [] [] []]. Qed.

Lemma lower_idempotent (s : string) : lower (lower s) = lower s.
Proof.
  induction s as [|c s IH]; simpl; [done|].
  by rewrite lower_char_idempotent, IH.
Qed.

(** X3. Lowercasing in [request_game] is idempotent: asking again under
    the username a request was sent with, or under the lowercased username,
    sends the same request, password hash included.  (Usernames are the
    strings of the model, code points below 256.) *)
Theorem request_game_request_idempotent (u p : string) :
  request_game_request (username (request_game_request u p)) p =
    request_game_request u p /\
  request_game_request (lower u) p = request_game_request u p.
Proof.
  unfold request_game_request. simpl. by rewrite lower_idempotent.
Qed.

End ClientRequest.

(** ** The request loop: what it keeps *)

Section Accounting.
Import PyStr RankingDatabase Messages Matchmaker.

(** The moves of the system, one by one. *)
Lemma step_cases (s s' : state) (ev : event) :
  step s ev = Some s' ->
  (exists identity request,
     ev = Recv identity request /\ pc s = Receiving /\
     s' = handle_request identity request s) \/
  (exists n,
     ev = Acquire /\ pc s = Acquiring /\ match_limit s = S n /\
     match pop_many (Z.to_nat (players_per_game s)) (match_requests s) with
     | Some (new_players, rest) =>
         s' = State (players_per_game s) (hostname s) rest n (ports_to_use s)
                (database s) (sent s) (janitors s) (entropy s)
                (GettingPort new_players)
     | None =>
         s' = State (players_per_game s) (hostname s) (match_requests s) n
                (ports_to_use s) (database s) (sent s) (janitors s)
                (entropy s) Crashed
     end) \/
  (exists new_players match_port rest,
     ev = GetPort /\ pc s = GettingPort new_players /\
     ports_to_use s = match_port :: rest /\
     s' = State (players_per_game s) (hostname s) (match_requests s)
            (match_limit s) rest (database s) (sent s)
            (janitors s ++
             [Janitor match_port (map entry_username new_players)
                (map (fun player : entry => player.2) new_players) false Running])
            (entropy s)
            (WaitingReady (length (janitors s)) new_players match_port
               (rankings_dict
                  (get_multi (database s) (map entry_username new_players))))) \/
  (exists jid j,
     ev = ReadySet jid /\ janitors s !! jid = Some j /\ status j = Running /\
     s' = with_janitors
            (<[jid := Janitor (j_port j) (player_list j) (whitelist j) true
                        Running]> (janitors s)) s) \/
  (exists jid new_players match_port database_entries j,
     ev = Proceed /\
     pc s = WaitingReady jid new_players match_port database_entries /\
     janitors s !! jid = Some j /\ ready j = true /\
     s' = with_pc
            (if (send_replies database_entries match_port new_players s).1
             then Receiving else Crashed)
            (send_replies database_entries match_port new_players s).2) \/
  (exists jid j,
     ev = ServerDone jid Returned /\ janitors s !! jid = Some j /\
     status j = Running /\
     s' = with_janitors
            (<[jid := Janitor (j_port j) (player_list j) (whitelist j) (ready j)
                        Finished]> (janitors s))
            (cleanup (j_port j) (player_list j) s)) \/
  (exists jid j,
     ev = ServerDone jid Raised /\ janitors s !! jid = Some j /\
     status j = Running /\
     s' = with_janitors
            (<[jid := Janitor (j_port j) (player_list j) (whitelist j) (ready j)
                        Failed]> (janitors s)) s) \/
  (exists jid j,
     ev = ServerReturns jid /\ janitors s !! jid = Some j /\
     status j = Running /\
     s' = with_janitors
            (<[jid := Janitor (j_port j) (player_list j) (whitelist j) (ready j)
                        Ended]> (janitors s)) s) \/
  (exists jid j,
     ev = CleanupStep jid /\ janitors s !! jid = Some j /\
     status j = Ended /\
     s' = with_janitors
            (<[jid := Janitor (j_port j) (player_list j) (whitelist j) (ready j)
                        (LoggingOff (player_list j))]> (janitors s))
            (State (players_per_game s) (hostname s) (match_requests s)
               (match_limit s) (ports_to_use s ++ [j_port j]) (database s)
               (sent s) (janitors s) (entropy s) (pc s))) \/
  (exists jid j user rest,
     ev = CleanupStep jid /\ janitors s !! jid = Some j /\
     status j = LoggingOff (user :: rest) /\
     s' = with_janitors
            (<[jid := Janitor (j_port j) (player_list j) (whitelist j) (ready j)
                        (LoggingOff rest)]> (janitors s))
            (with_database (logoff (database s) user) s)) \/
  (exists jid j,
     ev = CleanupStep jid /\ janitors s !! jid = Some j /\
     status j = LoggingOff [] /\
     s' = with_janitors
            (<[jid := Janitor (j_port j) (player_list j) (whitelist j) (ready j)
                        Finished]> (janitors s))
            (State (players_per_game s) (hostname s) (match_requests s)
               (S (match_limit s)) (ports_to_use s) (database s)
               (sent s) (janitors s) (entropy s) (pc s))).
Proof.
  intros Hstep. unfold step in Hstep.
  destruct ev as [identity request| | |jid| |jid|jid|jid o].
  - destruct (pc s) eqn:Hpc; try done. injection Hstep as <-. left. eauto.
  - destruct (pc s) eqn:Hpc; try done.
    destruct (match_limit s) as [|n] eqn:Hn; [done|].
    right; left. exists n. repeat (split; [done|]).
    destruct (pop_many _ _) as [[np rest]|]; by injection Hstep as <-.
  - destruct (pc s) eqn:Hpc; try done.
    destruct (ports_to_use s) as [|p rest] eqn:Hp; [done|]. injection Hstep as <-.
    do 2 right; left. by exists new_players, p, rest.
  - do 3 right; left.
    destruct (pc s); destruct (janitors s !! jid) as [j|] eqn:Hj; try done;
      destruct (status j) eqn:Hs; try done; injection Hstep as <-;
      by exists jid, j.
  - destruct (pc s) eqn:Hpc; try done.
    destruct (janitors s !! jid) as [j|] eqn:Hj; [|done].
    destruct (ready j) eqn:Hr; [|done]. injection Hstep as <-.
    do 4 right; left. by exists jid, new_players, match_port, database_entries, j.
  - do 7 right; left.
    destruct (pc s); destruct (janitors s !! jid) as [j|] eqn:Hj; try done;
      destruct (status j) eqn:Hs; try done; injection Hstep as <-;
      by exists jid, j.
  - unfold cleanup_step in Hstep.
    destruct (pc s); destruct (janitors s !! jid) as [j|] eqn:Hj; try done;
      destruct (status j) as [| |[|user rest]| |] eqn:Hs; try done;
      injection Hstep as <-;
      first [do 8 right; left; by exists jid, j
            |do 10 right; by exists jid, j
            |do 9 right; left; by exists jid, j, user, rest].
  - destruct o.
    + do 5 right; left.
      destruct (pc s); destruct (janitors s !! jid) as [j|] eqn:Hj; try done;
        destruct (status j) eqn:Hs; try done; injection Hstep as <-;
        by exists jid, j.
    + do 6 right; left.
      destruct (pc s); destruct (janitors s !! jid) as [j|] eqn:Hj; try done;
        destruct (status j) eqn:Hs; try done; injection Hstep as <-;
        by exists jid, j.
Qed.

(** A property kept by every move holds along every run. *)
Lemma run_invariant (P : state -> Prop) :
  (forall s ev s', P s -> step s ev = Some s' -> P s') ->
  forall evs s s', P s -> run s evs = Some s' -> P s'.
Proof.
  intros Hstep. induction evs as [|ev evs IH]; intros s s' HP Hrun;
    simpl in Hrun.
  - by injection Hrun as <-.
  - destruct (step s ev) as [s1|] eqn:Hs; [|done]. eauto.
Qed.

(** Replacing the [i]-th janitor. *)
Lemma janitors_insert (l : list janitor) (i : nat) (j j' : janitor) :
  l !! i = Some j ->
  l = take i l ++ j :: drop (S i) l /\
  <[i := j']> l = take i l ++ j' :: drop (S i) l.
Proof.
  intros H. split; [by rewrite take_drop_middle|].
  apply insert_take_drop. by eapply lookup_lt_Some.
Qed.

Lemma janitors_split (l : list janitor) (i : nat) (j j' : janitor) :
  l !! i = Some j ->
  exists before after : list janitor,
    l = before ++ j :: after /\ <[i := j']> l = before ++ j' :: after.
Proof.
  intros H. exists (take i l), (drop (S i) l). by apply janitors_insert.
Qed.

(** A janitor moves on: what a filter of the janitors sees of it. *)
Lemma filter_insert_eq (f : janitor -> bool) (l : list janitor) (i : nat)
    (j j' : janitor) :
  l !! i = Some j -> f j' = f j -> j_port j' = j_port j ->
  length (List.filter f (<[i := j']> l)) = length (List.filter f l) /\
  map j_port (List.filter f (<[i := j']> l)) = map j_port (List.filter f l).
Proof.
  intros Hl Hf Hp.
  destruct (janitors_split l i j j' Hl) as (before & after & -> & ->).
  rewrite !List.filter_app. simpl. rewrite Hf.
  destruct (f j); rewrite !length_app, !map_app; simpl; by rewrite ?Hp.
Qed.

Lemma filter_insert_out (f : janitor -> bool) (l : list janitor) (i : nat)
    (j j' : janitor) :
  l !! i = Some j -> f j = true -> f j' = false ->
  exists before after : list janitor,
    List.filter f l = before ++ j :: after /\
    List.filter f (<[i := j']> l) = before ++ after.
Proof.
  intros Hl Hj Hj'.
  destruct (janitors_split l i j j' Hl) as (before & after & -> & ->).
  exists (List.filter f before), (List.filter f after).
  rewrite !List.filter_app. simpl. by rewrite Hj, Hj'.
Qed.

Lemma live_with_janitors (js : list janitor) (s : state) :
  live (with_janitors js s) = List.filter holding js.
Proof. done. Qed.

(** A janitor that stays live and keeps its port and players. *)
Lemma live_insert_same (l : list janitor) (i : nat) (j j' : janitor) :
  l !! i = Some j -> holding j = true -> holding j' = true ->
  j_port j' = j_port j -> player_list j' = player_list j ->
  length (List.filter holding (<[i := j']> l)) =
    length (List.filter holding l) /\
  map j_port (List.filter holding (<[i := j']> l)) =
    map j_port (List.filter holding l) /\
  map player_list (List.filter holding (<[i := j']> l)) =
    map player_list (List.filter holding l).
Proof.
  intros Hl Hj Hj' Hp Hu.
  destruct (janitors_insert l i j j' Hl) as [Hsplit ->].
  set (a := take i l) in *. set (b := drop (S i) l) in *. rewrite Hsplit.
  rewrite !List.filter_app. simpl. rewrite Hj, Hj'.
  rewrite !length_app, !map_app. simpl. rewrite Hp, Hu. by repeat split.
Qed.

(** A janitor that finishes leaves the live ones. *)
Lemma live_insert_finished (l : list janitor) (i : nat) (j j' : janitor) :
  l !! i = Some j -> holding j = true -> holding j' = false ->
  exists before after : list janitor,
    List.filter holding l = before ++ j :: after /\
    List.filter holding (<[i := j']> l) = before ++ after.
Proof.
  intros Hl Hj Hj'.
  destruct (janitors_insert l i j j' Hl) as [Hsplit ->].
  exists (List.filter holding (take i l)), (List.filter holding (drop (S i) l)).
  set (a := take i l) in *. set (b := drop (S i) l) in *. rewrite Hsplit.
  rewrite !List.filter_app. simpl. by rewrite Hj, Hj'.
Qed.

Lemma handle_request_frame (s : state) (identity : list byte)
    (request : QuickMatchRequest) :
  let s' := handle_request identity request s in
  players_per_game s' = players_per_game s /\ hostname s' = hostname s /\
  match_limit s' = match_limit s /\ ports_to_use s' = ports_to_use s /\
  janitors s' = janitors s /\
  (pc s = Receiving -> pc s' = Receiving \/ pc s' = Acquiring).
Proof.
  unfold handle_request.
  destruct (login (database s) (username request) (password request)).1;
    simpl; repeat split; try done; intros Hpc; rewrite ?Hpc; auto;
    destruct (_ <=? _); auto.
Qed.

Lemma pop_many_enough {A : Type} (n : nat) (d : list A) :
  (n <= length d)%nat ->
  pop_many n d =
  Some (reverse (drop (length d - n) d), take (length d - n) d).
Proof.
  intros Hn.
  rewrite <- (take_drop (length d - n) d) at 1.
  replace n with (length (drop (length d - n) d)) at 1
    by (rewrite length_drop; lia).
  apply pop_many_app.
Qed.

Lemma step_enough_waiting (s s' : state) (ev : event) :
  step s ev = Some s' -> enough_waiting s -> enough_waiting s'.
Proof.
  intros Hstep Hq. unfold enough_waiting in *.
  destruct (step_cases s s' ev Hstep)
    as [(ident & request & -> & Hpc & ->)
       |[(n & -> & Hpc & Hn & Hpop)
       |[(np & p & rest & -> & Hpc & Hp & ->)
       |[(jid & j & -> & Hj & Hs & ->)
       |[(jid & np & p & entries & j & -> & Hpc & Hj & Hr & ->)
       |[(jid & j & -> & Hj & Hs & ->)
       |[(jid & j & -> & Hj & Hs & ->)
       |[(jid & j & -> & Hj & Hs & ->)
       |[(jid & j & -> & Hj & Hs & ->)
       |[(jid & j & user & rest & -> & Hj & Hs & ->)
        |(jid & j & -> & Hj & Hs & ->)]]]]]]]]]]; try done.
  - unfold handle_request.
    destruct (login (database s) (username request) (password request)).1;
      cbn -[token_hex length]; rewrite ?Hpc; try done;
      by destruct (Z.leb_spec (players_per_game s)
                  (Z.of_nat (length (match_requests s ++
                     [(ident, request, (token_hex 32 (entropy s)).1)])))).
  - destruct (pop_many _ _) as [[np rest]|]; by subst s'.
  - simpl. by destruct (send_replies _ _ _ _).1.
Qed.

(** The semaphore units are all accounted for. *)
Lemma step_units (s s' : state) (ev : event) :
  enough_waiting s -> step s ev = Some s' ->
  (match_limit s' + units_out s' = match_limit s + units_out s)%nat.
Proof.
  intros Hq Hstep.
  destruct (step_cases s s' ev Hstep)
    as [(ident & request & -> & Hpc & ->)
       |[(n & -> & Hpc & Hn & Hpop)
       |[(np & p & rest & -> & Hpc & Hp & ->)
       |[(jid & j & -> & Hj & Hs & ->)
       |[(jid & np & p & entries & j & -> & Hpc & Hj & Hr & ->)
       |[(jid & j & -> & Hj & Hs & ->)
       |[(jid & j & -> & Hj & Hs & ->)
       |[(jid & j & -> & Hj & Hs & ->)
       |[(jid & j & -> & Hj & Hs & ->)
       |[(jid & j & user & rest & -> & Hj & Hs & ->)
        |(jid & j & -> & Hj & Hs & ->)]]]]]]]]]].
  - destruct (handle_request_frame s ident request)
      as (_ & _ & Hl & _ & Hjs & Hpc').
    unfold units_out, live. rewrite Hl, Hjs, Hpc.
    by destruct (Hpc' Hpc) as [-> | ->].
  - specialize (Hq Hpc).
    rewrite pop_many_enough in Hpop by lia. subst s'.
    unfold units_out, live. simpl. rewrite Hn, Hpc. lia.
  - unfold units_out, live. simpl. rewrite Hpc, List.filter_app, length_app.
    simpl. lia.
  - unfold units_out. rewrite live_with_janitors. simpl.
    destruct (live_insert_same (janitors s) jid j
                (Janitor (j_port j) (player_list j) (whitelist j) true Running))
      as (-> & _); try done.
    by unfold holding; rewrite Hs.
  - destruct (send_replies_frame entries p np s)
      as (_ & _ & _ & Hl & _ & _ & Hjs & _).
    unfold units_out, live. simpl. rewrite Hl, Hjs, Hpc.
    by destruct (send_replies _ _ _ _).1.
  - unfold units_out. rewrite live_with_janitors. simpl.
    destruct (live_insert_finished (janitors s) jid j
                (Janitor (j_port j) (player_list j) (whitelist j) (ready j)
                   Finished)) as (before & after & Hb & ->); try done.
    { by unfold holding; rewrite Hs. }
    unfold live. rewrite Hb, !length_app. simpl. lia.
  - unfold units_out. rewrite live_with_janitors. simpl.
    destruct (live_insert_same (janitors s) jid j
                (Janitor (j_port j) (player_list j) (whitelist j) (ready j)
                   Failed)) as (-> & _); try done.
    by unfold holding; rewrite Hs.
  - unfold units_out. rewrite live_with_janitors. simpl.
    destruct (filter_insert_eq holding (janitors s) jid j
                (Janitor (j_port j) (player_list j) (whitelist j) (ready j)
                   Ended)) as (-> & _); try done.
    by unfold holding; rewrite Hs.
  - unfold units_out. rewrite live_with_janitors. simpl.
    destruct (filter_insert_eq holding (janitors s) jid j
                (Janitor (j_port j) (player_list j) (whitelist j) (ready j)
                   (LoggingOff (player_list j)))) as (-> & _); try done.
    by unfold holding; rewrite Hs.
  - unfold units_out. rewrite live_with_janitors. simpl.
    destruct (filter_insert_eq holding (janitors s) jid j
                (Janitor (j_port j) (player_list j) (whitelist j) (ready j)
                   (LoggingOff rest))) as (-> & _); try done.
    by unfold holding; rewrite Hs.
  - unfold units_out. rewrite live_with_janitors. simpl.
    destruct (filter_insert_out holding (janitors s) jid j
                (Janitor (j_port j) (player_list j) (whitelist j) (ready j)
                   Finished)) as (before & after & Hb & ->); try done.
    { by unfold holding; rewrite Hs. }
    unfold live. rewrite Hb, !length_app. simpl. lia.
Qed.

Lemma run_units (evs : list event) (s s' : state) :
  enough_waiting s -> run s evs = Some s' ->
  enough_waiting s' /\
  (match_limit s' + units_out s' = match_limit s + units_out s)%nat.
Proof.
  intros Hq Hrun.
  apply (run_invariant
           (fun x => enough_waiting x /\
              (match_limit x + units_out x = match_limit s + units_out s)%nat))
    with (evs := evs) (s := s); [|done|done].
  intros x ev x' [Hqx Hx] Hstep. split; [by eapply step_enough_waiting|].
  by rewrite (step_units x x' ev).
Qed.

(** The ports are all accounted for. *)
Lemma step_ports (s s' : state) (ev : event) :
  step s ev = Some s' ->
  ports_to_use s' ++ ports_out s' ≡ₚ ports_to_use s ++ ports_out s.
Proof.
  intros Hstep.
  assert (Hsame : forall (j : janitor) jid st r (x : state),
            janitors s !! jid = Some j -> ports_to_use x = ports_to_use s ->
            keeps_port (Janitor (j_port j) (player_list j) (whitelist j) r st)
              = keeps_port j ->
            ports_to_use (with_janitors
               (<[jid := Janitor (j_port j) (player_list j) (whitelist j) r st]>
                  (janitors s)) x) ++
            ports_out (with_janitors
               (<[jid := Janitor (j_port j) (player_list j) (whitelist j) r st]>
                  (janitors s)) x)
            ≡ₚ ports_to_use s ++ ports_out s).
  { intros j jid st r x Hj Hx Hk. unfold ports_out. simpl.
    destruct (filter_insert_eq keeps_port (janitors s) jid j
                (Janitor (j_port j) (player_list j) (whitelist j) r st))
      as (_ & ->); try done.
    by rewrite Hx. }
  assert (Hback : forall (j : janitor) jid st r (x : state),
            janitors s !! jid = Some j ->
            ports_to_use x = ports_to_use s ++ [j_port j] ->
            keeps_port j = true ->
            keeps_port (Janitor (j_port j) (player_list j) (whitelist j) r st)
              = false ->
            ports_to_use (with_janitors
               (<[jid := Janitor (j_port j) (player_list j) (whitelist j) r st]>
                  (janitors s)) x) ++
            ports_out (with_janitors
               (<[jid := Janitor (j_port j) (player_list j) (whitelist j) r st]>
                  (janitors s)) x)
            ≡ₚ ports_to_use s ++ ports_out s).
  { intros j jid st r x Hj Hx Hk Hk'. unfold ports_out. simpl.
    destruct (filter_insert_out keeps_port (janitors s) jid j
                (Janitor (j_port j) (player_list j) (whitelist j) r st))
      as (before & after & Hb & ->); try done.
    rewrite Hx, Hb, !map_app. simpl.
    rewrite <- !app_assoc. apply Permutation_app_head. simpl.
    apply Permutation_middle. }
  destruct (step_cases s s' ev Hstep)
    as [(ident & request & -> & Hpc & ->)
       |[(n & -> & Hpc & Hn & Hpop)
       |[(np & p & rest & -> & Hpc & Hp & ->)
       |[(jid & j & -> & Hj & Hs & ->)
       |[(jid & np & p & entries & j & -> & Hpc & Hj & Hr & ->)
       |[(jid & j & -> & Hj & Hs & ->)
       |[(jid & j & -> & Hj & Hs & ->)
       |[(jid & j & -> & Hj & Hs & ->)
       |[(jid & j & -> & Hj & Hs & ->)
       |[(jid & j & user & rest & -> & Hj & Hs & ->)
        |(jid & j & -> & Hj & Hs & ->)]]]]]]]]]].
  - destruct (handle_request_frame s ident request)
      as (_ & _ & _ & Hp & Hjs & _).
    unfold ports_out. by rewrite Hp, Hjs.
  - destruct (pop_many _ _) as [[np rest]|]; by subst s'.
  - unfold ports_out. simpl. rewrite Hp, List.filter_app, map_app. simpl.
    rewrite app_assoc. symmetry. apply Permutation_cons_append.
  - apply Hsame; try done. by unfold keeps_port; rewrite Hs.
  - destruct (send_replies_frame entries p np s)
      as (_ & _ & _ & _ & Hp & _ & Hjs & _).
    unfold ports_out. simpl. by rewrite Hp, Hjs.
  - apply Hback; try done. by unfold keeps_port; rewrite Hs.
  - apply Hsame; try done. by unfold keeps_port; rewrite Hs.
  - apply Hsame; try done. by unfold keeps_port; rewrite Hs.
  - apply Hback; try done. by unfold keeps_port; rewrite Hs.
  - apply Hsame; try done. by unfold keeps_port; rewrite Hs.
  - apply Hsame; try done. by unfold keeps_port; rewrite Hs.
Qed.

Lemma run_ports (evs : list event) (s s' : state) :
  run s evs = Some s' ->
  ports_to_use s' ++ ports_out s' ≡ₚ ports_to_use s ++ ports_out s.
Proof.
  intros Hrun.
  apply (run_invariant
           (fun x => ports_to_use x ++ ports_out x
                     ≡ₚ ports_to_use s ++ ports_out s))
    with (evs := evs) (s := s); [|done|done].
  intros x ev x' Hx Hstep. by rewrite (step_ports x x' ev).
Qed.

Lemma filter_running_le (l : list janitor) :
  (length (List.filter is_running l) <= length (List.filter holding l))%nat.
Proof.
  induction l as [|[p players tokens r st] l IH]; [done|].
  destruct st; simpl; lia.
Qed.

(** What [init_Ok] means for the accounts. *)
Lemma init_accounts (used : Z -> bool) (random : nat -> byte)
    (stored : gmap string user)
    (starting_port : Z) (host : string) (max_games min_players : Z)
    (s0 : state) :
  init used random stored starting_port host max_games min_players = InitOk s0 ->
  enough_waiting s0 /\
  (match_limit s0 + units_out s0 = Z.to_nat max_games)%nat /\
  ports_to_use s0 ++ ports_out s0 =
    probe_ports used starting_port (starting_port + 2 * max_games) /\
  (Z.to_nat max_games <=
   length (probe_ports used starting_port (starting_port + 2 * max_games)))%nat.
Proof.
  intros [-> Hlen]%init_Ok. unfold enough_waiting, units_out, ports_out, live.
  cbn [pc match_limit janitors ports_to_use List.filter map length].
  rewrite app_nil_r. split; [done|]. split; [lia|]. split; [done|lia].
Qed.

(** X4. The semaphore value, the janitors that have not finished and the
    unit the matchmaker holds between [acquire] and the start of the janitor
    always add up to [max_games]; so at most [max_games] match servers run
    at any time. *)
Theorem running_matches_bounded (used : Z -> bool) (random : nat -> byte)
    (stored : gmap string user)
    (starting_port : Z) (host : string) (max_games min_players : Z)
    (s0 s : state) (evs : list event) :
  init used random stored starting_port host max_games min_players = InitOk s0 ->
  run s0 evs = Some s ->
  (match_limit s + units_out s = Z.to_nat max_games)%nat /\
  (length (List.filter is_running (janitors s)) <= Z.to_nat max_games)%nat.
Proof.
  intros Hinit Hrun.
  destruct (init_accounts _ _ _ _ _ _ _ _ Hinit) as (Hq & Hu & _).
  destruct (run_units evs s0 s Hq Hrun) as [_ Heq]. rewrite Hu in Heq.
  split; [done|].
  pose proof (filter_running_le (janitors s)). unfold units_out, live in Heq.
  lia.
Qed.

Lemma filter_keeps_le (l : list janitor) :
  (length (List.filter keeps_port l) <= length (List.filter holding l))%nat.
Proof.
  induction l as [|[p players tokens r st] l IH]; [done|].
  destruct st; simpl; lia.
Qed.

(** Distinct positions of a list without duplicates under [f] among the
    elements that [keep] selects. *)
Lemma NoDup_filter_lookup {A B : Type} (f : A -> B) (keep : A -> bool)
    (l : list A) :
  NoDup (map f (List.filter keep l)) ->
  forall i k a b,
    l !! i = Some a -> l !! k = Some b ->
    keep a = true -> keep b = true -> f a = f b -> i = k.
Proof.
  induction l as [|x l IH]; intros Hnd i k a b Ha Hb Ka Kb Hf; [done|].
  assert (Hin : forall n c, l !! n = Some c -> keep c = true ->
                            f c ∈ map f (List.filter keep l)).
  { intros n c Hc Kc. apply list_elem_of_fmap_2, list_elem_of_In.
    apply List.filter_In. split; [|done].
    apply list_elem_of_In. by eapply list_elem_of_lookup_2. }
  destruct i as [|i], k as [|k]; simpl in *.
  - done.
  - injection Ha as ->. rewrite Ka in Hnd. simpl in Hnd.
    apply NoDup_cons in Hnd as [Hnot _]. exfalso. apply Hnot.
    rewrite Hf. by eapply Hin.
  - injection Hb as ->. rewrite Kb in Hnd. simpl in Hnd.
    apply NoDup_cons in Hnd as [Hnot _]. exfalso. apply Hnot.
    rewrite <- Hf. by eapply Hin.
  - f_equal. apply (IH (ltac:(destruct (keep x); [by apply NoDup_cons in Hnd as [_ ?]|done]))
                       i k a b); done.
Qed.

(** X5. Whenever the matchmaker thread is in one of its blocking calls, and
    wherever the janitors are in their cleanup, the free-port queue and the
    ports of the janitors that have not put their port back (the match
    server runs or has just returned, or an exception ended the janitor)
    are, together, the ports found free at start-up, each once: such a
    port is in the probed range, was free, is not in the queue, and no two
    such janitors have the same port.  A janitor that has put its port
    back no longer counts, though it still holds its semaphore unit. *)
Theorem ports_accounted (used : Z -> bool) (random : nat -> byte)
    (stored : gmap string user)
    (starting_port : Z) (host : string) (max_games min_players : Z)
    (s0 s : state) (evs : list event) :
  init used random stored starting_port host max_games min_players = InitOk s0 ->
  run s0 evs = Some s ->
  ports_to_use s ++ ports_out s
    ≡ₚ probe_ports used starting_port (starting_port + 2 * max_games) /\
  NoDup (ports_to_use s ++ ports_out s) /\
  (forall jid j, janitors s !! jid = Some j -> keeps_port j = true ->
     starting_port <= j_port j < starting_port + 2 * max_games /\
     used (j_port j) = false /\ j_port j ∉ ports_to_use s) /\
  (forall i k j1 j2,
     janitors s !! i = Some j1 -> janitors s !! k = Some j2 ->
     keeps_port j1 = true -> keeps_port j2 = true ->
     j_port j1 = j_port j2 -> i = k).
Proof.
  intros Hinit Hrun.
  destruct (init_accounts _ _ _ _ _ _ _ _ Hinit) as (_ & _ & Hp & _).
  pose proof (run_ports evs s0 s Hrun) as Hperm. rewrite Hp in Hperm.
  assert (Hnd : NoDup (ports_to_use s ++ ports_out s)).
  { rewrite Hperm. apply NoDup_filter, NoDup_py_range. }
  split; [done|]. split; [done|]. split.
  - intros jid j Hj Hk.
    assert (Hin : j_port j ∈ ports_out s).
    { apply list_elem_of_fmap_2, list_elem_of_In, List.filter_In.
      split; [|done]. apply list_elem_of_In. by eapply list_elem_of_lookup_2. }
    assert (Hfree : j_port j ∈ probe_ports used starting_port
                                  (starting_port + 2 * max_games)).
    { rewrite <- Hperm. apply elem_of_app. by right. }
    apply elem_of_probe_ports in Hfree as [Hr Hu].
    split; [done|]. split; [done|].
    apply NoDup_app in Hnd as (_ & Hdisj & _). intros Hq. by apply (Hdisj _ Hq).
  - apply NoDup_app in Hnd as (_ & _ & Hnd).
    by apply NoDup_filter_lookup.
Qed.

(** X6. [ports_to_use.get()] never blocks: whenever the matchmaker has
    acquired a semaphore unit and popped a cohort, a free port is in the
    queue and the janitor is started. *)
Theorem get_port_never_blocks (used : Z -> bool) (random : nat -> byte)
    (stored : gmap string user)
    (starting_port : Z) (host : string) (max_games min_players : Z)
    (s0 s : state) (evs : list event) (new_players : list entry) :
  init used random stored starting_port host max_games min_players = InitOk s0 ->
  run s0 evs = Some s ->
  pc s = GettingPort new_players ->
  ports_to_use s <> [] /\
  exists s' jid,
    step s GetPort = Some s' /\
    pc s' = WaitingReady jid new_players (default 0 (head (ports_to_use s)))
              (rankings_dict
                 (get_multi (database s) (map entry_username new_players))) /\
    ports_to_use s' = tail (ports_to_use s).
Proof.
  intros Hinit Hrun Hpc.
  destruct (init_accounts _ _ _ _ _ _ _ _ Hinit) as (Hq & Hu & Hp & Hlen).
  destruct (run_units evs s0 s Hq Hrun) as [_ Heq]. rewrite Hu in Heq.
  pose proof (run_ports evs s0 s Hrun) as Hperm. rewrite Hp in Hperm.
  apply Permutation_length in Hperm. rewrite length_app in Hperm.
  unfold units_out, live in Heq. rewrite Hpc in Heq.
  unfold ports_out in Hperm. rewrite length_map in Hperm.
  pose proof (filter_keeps_le (janitors s)) as Hle.
  assert (Hne : ports_to_use s <> []).
  { intros Hnil. rewrite Hnil in Hperm. simpl in Hperm. lia. }
  split; [done|]. unfold step. rewrite Hpc.
  destruct (ports_to_use s) as [|p rest]; [done|].
  by eexists _, _.
Qed.

(** The replies of the reply loop, each to the sender of its request. *)
Lemma send_replies_answered (entries : gmap string Q) (port : Z)
    (players : list entry) :
  forall s : state,
    (send_replies entries port players s).1 = true ->
    answered (send_replies entries port players s).2 =
    answered s ++ map (fun e : entry => (e.1.1, entry_username e)) players.
Proof.
  induction players as [|e players IH]; intros s H; simpl in *.
  - by rewrite app_nil_r.
  - destruct (entries !! username e.1.2); [|done].
    rewrite IH by done. unfold answered. simpl.
    by rewrite map_app, <- app_assoc.
Qed.

(** A request is answered with a failure, or it is enqueued unanswered. *)
Lemma handle_request_answer (s : state) (ident : list byte)
    (request : QuickMatchRequest) :
  let s' := handle_request ident request s in
  (match_requests s' = match_requests s /\ pc s' = pc s /\
   exists why,
     sent s' = sent s ++ [(ident, fail_reply (username request) why)]) \/
  ((exists token,
      match_requests s' = match_requests s ++ [(ident, request, token)]) /\
   sent s' = sent s /\ (pc s' = Receiving \/ pc s' = Acquiring)).
Proof.
  unfold handle_request.
  destruct (login (database s) (username request) (password request)).1;
    cbn -[token_hex].
  - right. split; [eauto|]. split; [done|]. destruct (_ <=? _); auto.
  - left. eauto.
  - left. eauto.
  - right. split; [eauto|]. split; [done|]. destruct (_ <=? _); auto.
Qed.

(** A crashed matchmaker thread stays crashed. *)
Lemma step_crashed (s s' : state) (ev : event) :
  step s ev = Some s' -> pc s = Crashed -> pc s' = Crashed.
Proof.
  intros Hstep Hc.
  destruct (step_cases s s' ev Hstep)
    as [(ident & request & -> & Hpc & ->)
       |[(n & -> & Hpc & Hn & Hpop)
       |[(np & p & rest & -> & Hpc & Hp & ->)
       |[(jid & j & -> & Hj & Hs & ->)
       |[(jid & np & p & entries & j & -> & Hpc & Hj & Hr & ->)
       |[(jid & j & -> & Hj & Hs & ->)
       |[(jid & j & -> & Hj & Hs & ->)
       |[(jid & j & -> & Hj & Hs & ->)
       |[(jid & j & -> & Hj & Hs & ->)
       |[(jid & j & user & rest & -> & Hj & Hs & ->)
        |(jid & j & -> & Hj & Hs & ->)]]]]]]]]]]; try congruence; try done.
Qed.

Lemma run_crashed (evs : list event) (s s' : state) :
  run s evs = Some s' -> pc s = Crashed -> pc s' = Crashed.
Proof.
  intros Hrun Hc.
  apply (run_invariant (fun x => pc x = Crashed)) with (evs := evs) (s := s);
    [|done|done].
  intros x ev x' Hx Hstep. by eapply step_crashed.
Qed.

(** Every request received is answered or still pending, each once. *)
Lemma step_accounted (s s' : state) (ev : event) :
  step s ev = Some s' -> pc s' <> Crashed ->
  answered s' ++ pending s' ≡ₚ answered s ++ pending s ++ received [ev].
Proof.
  intros Hstep Hc.
  pose proof (janitor_move_frame s s' ev Hstep) as Hframe.
  assert (Hmove : received [ev] = [] -> match_requests s' = match_requests s ->
                  sent s' = sent s -> pc s' = pc s ->
                  answered s' ++ pending s' ≡ₚ
                  answered s ++ pending s ++ received [ev]).
  { intros -> Hm Hse Hpc'. unfold answered, pending, in_flight.
    by rewrite Hm, Hse, Hpc', app_nil_r. }
  destruct (step_cases s s' ev Hstep)
    as [(ident & request & -> & Hpc & ->)
       |[(n & -> & Hpc & Hn & Hpop)
       |[(np & p & rest & -> & Hpc & Hp & ->)
       |[(jid & j & -> & Hj & Hs & ->)
       |[(jid & np & p & entries & j & -> & Hpc & Hj & Hr & ->)
       |[(jid & j & -> & Hj & Hs & ->)
       |[(jid & j & -> & Hj & Hs & ->)
       |[(jid & j & -> & Hj & Hs & ->)
       |[(jid & j & -> & Hj & Hs & ->)
       |[(jid & j & user & rest & -> & Hj & Hs & ->)
        |(jid & j & -> & Hj & Hs & ->)]]]]]]]]]];
    try (destruct (Hframe I) as (_ & _ & Hm & Hse & _ & Hpc');
         by apply Hmove).
  - unfold answered, pending, in_flight. rewrite Hpc. simpl.
    destruct (handle_request_answer s ident request)
      as [(-> & -> & why & ->)|([token ->] & -> & Hpc')].
    + rewrite Hpc, !app_nil_r, map_app. simpl.
      rewrite <- app_assoc. apply Permutation_app_head.
      apply Permutation_app_comm.
    + assert (Hnil : match pc (handle_request ident request s) with
                     | GettingPort np | WaitingReady _ np _ _ => np
                     | _ => []
                     end = []) by (by destruct Hpc' as [-> | ->]).
      rewrite Hnil, !app_nil_r, map_app. done.
  - destruct (pop_many _ _) as [[np rest]|] eqn:Hpop'; subst s'; [|done].
    apply pop_many_Some in Hpop' as [Hd _].
    unfold answered, pending, in_flight. simpl.
    rewrite Hpc, Hd, !app_nil_r, !map_app.
    by rewrite fmap_reverse, reverse_Permutation.
  - unfold answered, pending, in_flight. simpl. by rewrite Hpc, app_nil_r.
  - simpl in Hc.
    destruct (send_replies_frame entries p np s) as (_ & _ & Hmr & _).
    destruct (send_replies entries p np s).1 eqn:Hok; [|done].
    unfold pending, in_flight.
    change (answered (with_pc Receiving (send_replies entries p np s).2))
      with (answered (send_replies entries p np s).2).
    rewrite send_replies_answered by done. cbn [pc match_requests with_pc].
    rewrite Hmr, Hpc, !app_nil_r, map_app, <- app_assoc.
    apply Permutation_app_head, Permutation_app_comm.
Qed.

Lemma received_cons (ev : event) (evs : list event) :
  received (ev :: evs) = received [ev] ++ received evs.
Proof. unfold received. simpl. by destruct ev. Qed.

Lemma run_accounted (evs : list event) :
  forall s s' : state,
    run s evs = Some s' -> pc s' <> Crashed ->
    answered s' ++ pending s' ≡ₚ answered s ++ pending s ++ received evs.
Proof.
  induction evs as [|ev evs IH]; intros s s' Hrun Hc; simpl in Hrun.
  - injection Hrun as <-. by rewrite !app_nil_r.
  - destruct (step s ev) as [s1|] eqn:Hstep; [|done].
    assert (Hc1 : pc s1 <> Crashed).
    { intros H1. by apply Hc, (run_crashed evs s1). }
    rewrite (IH s1 s' Hrun Hc), app_assoc, (step_accounted s s1 ev Hstep Hc1).
    rewrite (received_cons ev evs), <- !app_assoc. reflexivity.
Qed.

(** The user table never loses a row. *)
Lemma login_keeps (db : gmap string user) (u k : string) (p : list byte) :
  is_Some (db !! k) -> is_Some ((login db u p).2 !! k).
Proof.
  intros Hk. unfold login. destruct (db !! u) as [r|] eqn:E; [|done].
  destruct (negb _); [done|]. destruct (logged_in r); [done|]. simpl.
  destruct (decide (k = u)) as [->|Hne].
  - by rewrite lookup_insert_eq.
  - by rewrite lookup_insert_ne.
Qed.

Lemma set_keeps (db : gmap string user) (u k : string) (p : list byte) :
  is_Some (db !! k) -> is_Some (set db u p !! k).
Proof.
  intros Hk. unfold set. destruct (db !! u) as [r|] eqn:E; [done|].
  destruct (decide (k = u)) as [->|Hne].
  - by rewrite lookup_insert_eq.
  - by rewrite lookup_insert_ne.
Qed.

Lemma set_known (db : gmap string user) (u : string) (p : list byte) :
  is_Some (set db u p !! u).
Proof.
  unfold set. destruct (db !! u) as [r|] eqn:E; [by rewrite E|].
  by rewrite lookup_insert_eq.
Qed.

Lemma login_result_known (db : gmap string user) (u : string) (p : list byte) :
  (login db u p).1 <> NoUser -> is_Some (db !! u).
Proof. unfold login. by destruct (db !! u). Qed.

Lemma logoff_keeps (db : gmap string user) (u k : string) :
  is_Some (db !! k) -> is_Some (logoff db u !! k).
Proof.
  intros [r Hr]. rewrite logoff_lookup, Hr. by destruct (decide (u = k)).
Qed.

Lemma foldl_logoff_keeps (players : list string) :
  forall (db : gmap string user) (k : string),
    is_Some (db !! k) -> is_Some (foldl logoff db players !! k).
Proof.
  induction players as [|u players IH]; intros db k Hk; simpl; [done|].
  by apply IH, logoff_keeps.
Qed.

Lemma handle_request_keeps (s : state) (ident : list byte)
    (request : QuickMatchRequest) (k : string) :
  is_Some (database s !! k) ->
  is_Some (database (handle_request ident request s) !! k).
Proof.
  intros Hk. unfold handle_request.
  destruct (login (database s) (username request) (password request)).1;
    simpl; auto using login_keeps, set_keeps.
Qed.

(** A request is enqueued only for a user of the table. *)
Lemma handle_request_enqueued (s : state) (ident : list byte)
    (request : QuickMatchRequest) :
  let s' := handle_request ident request s in
  match_requests s' = match_requests s \/
  (exists token,
     match_requests s' = match_requests s ++ [(ident, request, token)]) /\
  is_Some (database s' !! username request).
Proof.
  unfold handle_request.
  destruct (login (database s) (username request) (password request)).1 eqn:E;
    simpl; auto.
  - right. split; [eauto|]. apply login_keeps.
    apply (login_result_known _ _ (password request)). by rewrite E.
  - right. split; [eauto|]. apply login_keeps, set_known.
Qed.

(** The rankings dictionary has an entry for every fetched user. *)
Lemma rankings_dict_lookup (db : gmap string user) (us : list string)
    (u : string) (r : user) :
  u ∈ us -> db !! u = Some r ->
  rankings_dict (get_multi db us) !! u = Some (ranking r).
Proof.
  intros Hin Hu. unfold rankings_dict, get_multi.
  induction us as [|x us IH] using rev_ind; [by apply elem_of_nil in Hin|].
  rewrite omap_app, foldl_app. simpl.
  destruct (decide (x = u)) as [->|Hne].
  - rewrite Hu. simpl. by rewrite lookup_insert_eq.
  - apply elem_of_app in Hin as [Hin|Hin%list_elem_of_singleton]; [|done].
    destruct (db !! x); simpl; [rewrite lookup_insert_ne by done|]; auto.
Qed.

(** With a ranking for every player the reply loop runs to its end. *)
Lemma send_replies_ok (entries : gmap string Q) (port : Z)
    (players : list entry) :
  forall s : state,
    Forall (fun e => is_Some (entries !! entry_username e)) players ->
    (send_replies entries port players s).1 = true.
Proof.
  induction players as [|e players IH]; intros s H; simpl; [done|].
  apply Forall_cons in H as [[rk Hrk] H]. unfold entry_username in Hrk.
  rewrite Hrk. by apply IH.
Qed.

Lemma step_safe (s s' : state) (ev : event) :
  step s ev = Some s' -> safe s -> safe s'.
Proof.
  intros Hstep (Hq & Hmr & Hpcs).
  split; [by eapply step_enough_waiting|].
  destruct (step_cases s s' ev Hstep)
    as [(ident & request & -> & Hpc & ->)
       |[(n & -> & Hpc & Hn & Hpop)
       |[(np & p & rest & -> & Hpc & Hp & ->)
       |[(jid & j & -> & Hj & Hs & ->)
       |[(jid & np & p & entries & j & -> & Hpc & Hj & Hr & ->)
       |[(jid & j & -> & Hj & Hs & ->)
       |[(jid & j & -> & Hj & Hs & ->)
       |[(jid & j & -> & Hj & Hs & ->)
       |[(jid & j & -> & Hj & Hs & ->)
       |[(jid & j & user & rest & -> & Hj & Hs & ->)
        |(jid & j & -> & Hj & Hs & ->)]]]]]]]]]].
  - split.
    + assert (Hold : Forall (known (database (handle_request ident request s)))
                       (match_requests s)).
      { eapply Forall_impl; [exact Hmr|]. intros e He.
        by apply handle_request_keeps. }
      destruct (handle_request_enqueued s ident request)
        as [->|[[token ->] Hnew]]; [done|].
      apply Forall_app. split; [done|]. by apply Forall_singleton.
    + destruct (handle_request_frame s ident request)
        as (_ & _ & _ & _ & _ & Hpc').
      by destruct (Hpc' Hpc) as [-> | ->].
  - specialize (Hq Hpc).
    rewrite pop_many_enough in Hpop by lia. subst s'. simpl.
    rewrite <- (take_drop (length (match_requests s) -
                           Z.to_nat (players_per_game s)) (match_requests s))
      in Hmr.
    apply Forall_app in Hmr as [Ht Hd]. split; [done|].
    by apply Forall_reverse.
  - simpl. rewrite Hpc in Hpcs. split; [done|].
    apply Forall_forall. intros e He.
    rewrite Forall_forall in Hpcs. destruct (Hpcs e He) as [r Hr].
    unfold entry_username in *.
    erewrite rankings_dict_lookup; [done| |exact Hr].
    apply list_elem_of_fmap. by exists e.
  - simpl. by split.
  - rewrite Hpc in Hpcs.
    destruct (send_replies_frame entries p np s)
      as (_ & _ & Hmr' & _ & _ & Hdb & _).
    simpl. rewrite Hmr', Hdb. split; [done|].
    by rewrite send_replies_ok.
  - simpl. split.
    + eapply Forall_impl; [exact Hmr|]. intros e He.
      by apply foldl_logoff_keeps.
    + destruct (pc s); try done.
      eapply Forall_impl; [exact Hpcs|]. intros e He.
      by apply foldl_logoff_keeps.
  - simpl. by split.
  - simpl. by split.
  - simpl. by split.
  - simpl. split.
    + eapply Forall_impl; [exact Hmr|]. intros e He.
      by apply logoff_keeps.
    + destruct (pc s); try done.
      eapply Forall_impl; [exact Hpcs|]. intros e He.
      by apply logoff_keeps.
  - simpl. by split.
Qed.

(** The matchmaker thread never ends in an exception of its own. *)
Lemma run_safe (used : Z -> bool) (random : nat -> byte)
    (stored : gmap string user)
    (starting_port : Z) (host : string) (max_games min_players : Z)
    (s0 s : state) (evs : list event) :
  init used random stored starting_port host max_games min_players = InitOk s0 ->
  run s0 evs = Some s -> safe s.
Proof.
  intros [-> _]%init_Ok Hrun.
  eapply (run_invariant safe); [|..|exact Hrun].
  - intros x ev x' Hx Hstep. by apply (step_safe x x' ev).
  - by repeat split.
Qed.


(** X7. Along every run from construction, the requests received, each
    taken as the sender's identity with the username asked for, are
    exactly the replies sent, each taken as its addressee with its
    username, together with the requests waiting in the deque or popped
    for a match, counted with multiplicity: every request is answered once,
    to its own sender and under its own username, or is still pending, and
    no reply goes out that no request asked for. *)
Theorem requests_accounted (used : Z -> bool) (random : nat -> byte)
    (stored : gmap string user)
    (starting_port : Z) (host : string) (max_games min_players : Z)
    (s0 s : state) (evs : list event) :
  init used random stored starting_port host max_games min_players = InitOk s0 ->
  run s0 evs = Some s ->
  received evs ≡ₚ answered s ++ pending s.
Proof.
  intros Hinit Hrun.
  assert (Hc : pc s <> Crashed).
  { destruct (run_safe _ _ _ _ _ _ _ _ _ _ Hinit Hrun) as (_ & _ & Hpc).
    intros E. by rewrite E in Hpc. }
  apply init_Ok in Hinit as [-> _].
  by rewrite (run_accounted evs _ s Hrun Hc).
Qed.

(** X8. Along every run from construction the matchmaker loop never raises:
    when [acquire] returns the deque holds a whole cohort to pop, and the
    rankings dictionary has a key for every user of the cohort when the
    replies are built.  (The user table is the modelled one: it never
    deletes a row.) *)
Theorem matchmaker_never_raises (used : Z -> bool) (random : nat -> byte)
    (stored : gmap string user)
    (starting_port : Z) (host : string) (max_games min_players : Z)
    (s0 s : state) (evs : list event) :
  init used random stored starting_port host max_games min_players = InitOk s0 ->
  run s0 evs = Some s ->
  pc s <> Crashed /\
  (pc s = Acquiring ->
   exists new_players rest,
     pop_many (Z.to_nat (players_per_game s)) (match_requests s) =
     Some (new_players, rest)) /\
  (forall jid new_players match_port database_entries,
     pc s = WaitingReady jid new_players match_port database_entries ->
     (send_replies database_entries match_port new_players s).1 = true).
Proof.
  intros Hinit Hrun.
  destruct (run_safe _ _ _ _ _ _ _ _ _ _ Hinit Hrun) as (Hq & _ & Hpc).
  split; [|split].
  - intros E. by rewrite E in Hpc.
  - intros E. specialize (Hq E). rewrite pop_many_enough by lia. eauto.
  - intros jid np p entries E. rewrite E in Hpc. by apply send_replies_ok.
Qed.

(** Replacing a janitor by one with the same port, players and tokens. *)
Lemma janitors_update (l : list janitor) (jid : nat) (j j' : janitor) :
  l !! jid = Some j ->
  j_port j' = j_port j -> player_list j' = player_list j ->
  whitelist j' = whitelist j -> (ready j = true -> ready j' = true) ->
  (forall i x, l !! i = Some x ->
     exists x', <[jid := j']> l !! i = Some x' /\
       j_port x' = j_port x /\ player_list x' = player_list x /\
       whitelist x' = whitelist x /\ (ready x = true -> ready x' = true)) /\
  (forall i x', <[jid := j']> l !! i = Some x' ->
     exists x, l !! i = Some x /\ j_port x' = j_port x).
Proof.
  intros Hj Hp Hu Hw Hr. split.
  - intros i x Hx. destruct (decide (i = jid)) as [->|Hne].
    + exists j'. rewrite list_lookup_insert_eq by (by eapply lookup_lt_Some).
      rewrite Hj in Hx. injection Hx as <-. by repeat split.
    + exists x. rewrite list_lookup_insert_ne by done. by repeat split.
  - intros i x' Hx'. apply list_lookup_insert_Some in Hx' as [(-> & <- & _)|[_ Hx']].
    + by exists j.
    + by exists x'.
Qed.

Lemma send_replies_shape (entries : gmap string Q) (port : Z)
    (players : list entry) :
  forall (s : state) ident r,
    (ident, r) ∈ sent (send_replies entries port players s).2 ->
    (ident, r) ∈ sent s \/
    exists e rk, e ∈ players /\ r = success_reply (hostname s) port rk e.
Proof.
  induction players as [|e players IH]; intros s ident r H; simpl in H.
  - by left.
  - destruct (entries !! username e.1.2) as [rk|]; [|by left].
    apply IH in H as [H|(e' & rk' & He' & H)].
    + simpl in H. apply elem_of_app in H as [H|H]; [by left|].
      apply list_elem_of_singleton in H. injection H as -> ->.
      right. exists e, rk. split; [left|done].
    + right. exists e', rk'. split; [by right|done].
Qed.

Lemma step_reply_inv (ports : list Z) (s s' : state) (ev : event) :
  step s ev = Some s' -> reply_inv ports s -> reply_inv ports s'.
Proof.
  intros Hstep (HA & HB & HC & HD).
  assert (Hmove : forall jid (j : janitor) st r (x : state),
            janitors s !! jid = Some j -> (ready j = true -> r = true) ->
            hostname x = hostname s -> sent x = sent s -> pc x = pc s ->
            (forall q, q ∈ ports_to_use x ->
                       q ∈ ports_to_use s \/ q = j_port j) ->
            reply_inv ports
              (with_janitors
                 (<[jid := Janitor (j_port j) (player_list j) (whitelist j)
                             r st]> (janitors s)) x)).
  { intros jid j st r x Hj Hr Hh Hse Hpc Hq.
    destruct (janitors_update (janitors s) jid j
                (Janitor (j_port j) (player_list j) (whitelist j) r st)
                Hj eq_refl eq_refl eq_refl Hr) as [Hfw Hbw].
    unfold reply_inv. simpl. rewrite Hh, Hse, Hpc.
    split; [|split; [|split]].
    - intros q Hin. destruct (Hq q Hin) as [Hin'| ->]; [by apply HA|].
      by apply (HB jid).
    - intros i x' Hx'. destruct (Hbw i x' Hx') as (y & Hy & ->).
      by apply (HB i).
    - intros ident r0 Hin. destruct (HC ident r0 Hin)
        as [Hf|(i & y & Hy & Hry & e & rk & -> & Hw & Hu)]; [by left|].
      right. destruct (Hfw i y Hy) as (x' & Hx' & Ep & Eu & Ew & Er).
      exists i, x'. split; [done|]. split; [by apply Er|].
      exists e, rk. by rewrite Ep, Ew, Eu.
    - intros i np p entries E.
      destruct (HD i np p entries E) as (y & Hy & Ep & Ew & Eu).
      destruct (Hfw i y Hy) as (x' & Hx' & Ep' & Eu' & Ew' & _).
      exists x'. by rewrite Ep', Ew', Eu'. }
  destruct (step_cases s s' ev Hstep)
    as [(ident & request & -> & Hpc & ->)
       |[(n & -> & Hpc & Hn & Hpop)
       |[(np & p & rest & -> & Hpc & Hp & ->)
       |[(jid & j & -> & Hj & Hs & ->)
       |[(jid & np & p & entries & j & -> & Hpc & Hj & Hr & ->)
       |[(jid & j & -> & Hj & Hs & ->)
       |[(jid & j & -> & Hj & Hs & ->)
       |[(jid & j & -> & Hj & Hs & ->)
       |[(jid & j & -> & Hj & Hs & ->)
       |[(jid & j & user & rest & -> & Hj & Hs & ->)
        |(jid & j & -> & Hj & Hs & ->)]]]]]]]]]].
  - destruct (handle_request_frame s ident request)
      as (_ & Hh & _ & Hq & Hjs & Hpc').
    unfold reply_inv. rewrite Hh, Hq, Hjs. repeat split; try done.
    + intros ident' r Hin.
      destruct (handle_request_cases s ident request)
        as [(_ & _ & _ & r0 & Hr0 & Hsent)|(_ & _ & Hsent & _)];
        rewrite Hsent in Hin; [|by apply (HC ident')].
      apply elem_of_app in Hin as [Hin|Hin]; [by apply (HC ident')|].
      apply list_elem_of_singleton in Hin. injection Hin as -> ->. by left.
    + intros jid np p entries E.
      destruct (Hpc' Hpc) as [E'|E']; by rewrite E' in E.
  - destruct (pop_many _ _) as [[np rest]|]; subst s'; by repeat split.
  - unfold reply_inv. simpl. rewrite Hp in HA. repeat split.
    + intros q Hq. apply HA. by right.
    + intros jid j Hj. apply lookup_app_Some in Hj as [Hj|[Hlen Hj]];
        [by apply (HB jid)|].
      destruct (jid - length (janitors s))%nat; [|done].
      injection Hj as <-. simpl. apply HA. by left.
    + intros ident r Hin. destruct (HC ident r Hin)
        as [Hf|(jid & j & Hj & Hr & Hd)]; [by left|].
      right. exists jid, j. split; [|done]. by apply lookup_app_l_Some.
    + intros jid np' p' entries E. injection E as <- <- <- <-.
      eexists. split; [by apply list_lookup_middle|]. done.
  - apply Hmove; try done. by left.
  - destruct (send_replies_frame entries p np s)
      as (_ & Hh & _ & _ & Hq & _ & Hjs & _).
    destruct (HD jid np p entries Hpc) as (x & Hx & Ep & Ew & Eu).
    assert (x = j) as -> by congruence.
    unfold reply_inv. simpl. rewrite Hh, Hq, Hjs. repeat split; try done.
    + intros ident r Hin.
      apply send_replies_shape in Hin as [Hin|(e & rk & He & ->)];
        [by apply (HC ident)|].
      right. exists jid, j. split; [done|]. split; [done|].
      exists e, rk. rewrite Ep, Ew, Eu. split; [done|].
      split; apply list_elem_of_fmap; by exists e.
    + by destruct (send_replies _ _ _ _).1.
  - apply Hmove; try done. simpl. intros q Hq.
    apply elem_of_app in Hq as [Hq|Hq]; [by left|].
    apply list_elem_of_singleton in Hq. by right.
  - apply Hmove; try done. by left.
  - apply Hmove; try done. by left.
  - apply Hmove; try done. simpl. intros q Hq.
    apply elem_of_app in Hq as [Hq|Hq]; [by left|].
    apply list_elem_of_singleton in Hq. by right.
  - apply Hmove; try done. by left.
  - apply Hmove; try done. by left.
Qed.

Lemma step_hostname (s s' : state) (ev : event) :
  step s ev = Some s' -> hostname s' = hostname s.
Proof.
  intros Hstep.
  destruct (step_cases s s' ev Hstep)
    as [(ident & request & -> & Hpc & ->)
       |[(n & -> & Hpc & Hn & Hpop)
       |[(np & p & rest & -> & Hpc & Hp & ->)
       |[(jid & j & -> & Hj & Hs & ->)
       |[(jid & np & p & entries & j & -> & Hpc & Hj & Hr & ->)
       |[(jid & j & -> & Hj & Hs & ->)
       |[(jid & j & -> & Hj & Hs & ->)
       |[(jid & j & -> & Hj & Hs & ->)
       |[(jid & j & -> & Hj & Hs & ->)
       |[(jid & j & user & rest & -> & Hj & Hs & ->)
        |(jid & j & -> & Hj & Hs & ->)]]]]]]]]]]; try done.
  - by destruct (handle_request_frame s ident request) as (_ & Hh & _).
  - destruct (pop_many _ _) as [[np rest]|]; by subst s'.
  - by destruct (send_replies_frame entries p np s) as (_ & Hh & _).
Qed.

(** X9. Every reply the matchmaker has sent is either a failure, which
    [request_game] turns into ConnectionError with the reply's message, or
    it names the configured hostname and the port of a janitor whose match
    server has set [ready]; that port was found free in the probed range,
    the reply's token is on the janitor's whitelist and its user on the
    janitor's player list.  With no colon in the hostname [request_game]
    returns exactly that host, port, token and ranking. *)
Theorem replies_lead_to_ready_match (used : Z -> bool) (random : nat -> byte)
    (stored : gmap string user)
    (starting_port : Z) (host : string) (max_games min_players : Z)
    (s0 s : state) (evs : list event)
    (ident : list byte) (r : QuickMatchReply) :
  init used random stored starting_port host max_games min_players = InitOk s0 ->
  run s0 evs = Some s ->
  (ident, r) ∈ sent s ->
  (server r = "FAIL" /\
   forall u, RequestGame.request_game_result u r =
             RequestGame.ConnectionError
               ("Could not connect to matchmaking server. Error message: "
                +:+ response r)) \/
  (exists jid j,
     janitors s !! jid = Some j /\ ready j = true /\
     auth_key r ∈ whitelist j /\ reply_username r ∈ player_list j /\
     starting_port <= j_port j < starting_port + 2 * max_games /\
     used (j_port j) = false /\
     server r = host +:+ ":" +:+ pretty (j_port j) /\
     (occurs ":" host = 0%nat ->
      forall u, RequestGame.request_game_result u r =
                RequestGame.Game
                  (RequestGame.MkGameResponse host (j_port j) (lower u)
                     (auth_key r) (reply_ranking r)))).
Proof.
  intros Hinit Hrun Hin.
  apply init_Ok in Hinit as [-> _].
  set (ports := probe_ports used starting_port (starting_port + 2 * max_games)).
  assert (Hh : hostname s = host).
  { eapply (run_invariant (fun x => hostname x = host)); [|..|exact Hrun].
    - intros x ev x' Hx Hstep. by rewrite (step_hostname x x' ev).
    - done. }
  assert (Hinv : reply_inv ports s).
  { eapply (run_invariant (reply_inv ports)); [|..|exact Hrun].
    - intros x ev x' Hx Hstep. by apply (step_reply_inv ports x x' ev).
    - repeat split; try done. intros ident' r' H. by apply elem_of_nil in H. }
  destruct Hinv as (_ & HB & HC & _).
  destruct (HC ident r Hin) as [Hf|(jid & j & Hj & Hr & e & rk & -> & Hw & Hu)].
  - left. assert (Hs : server r = "FAIL").
    { destruct (decide (server r = "FAIL")) as [|Hne]; [done|].
      exfalso. apply Hf. by left. }
    split; [done|]. intros u. unfold RequestGame.request_game_result.
    rewrite Hs. done.
  - right. exists jid, j. rewrite Hh.
    destruct (proj1 (elem_of_probe_ports _ _ _ _) (HB jid j Hj))
      as [Hrange Hfree].
    do 7 (split; [done|]).
    intros Hocc u. rewrite reads_success_reply.
    by destruct (decide (occurs ":" host = 0%nat)).
Qed.

Lemma step_blocked (jid : nat) (s s' : state) (ev : event) :
  blocked jid s -> step s ev = Some s' ->
  blocked jid s' /\ pc s' = pc s /\ sent s' = sent s /\
  match_requests s' = match_requests s /\ is_recv ev = false.
Proof.
  intros (np0 & p0 & entries0 & j0 & Hpc0 & Hj0 & Hr0 & Hs0) Hstep.
  assert (Hupd : forall i x st,
            janitors s !! i = Some x -> status x = Running ->
            <[i := st]> (janitors s) !! jid = Some j0).
  { intros i x st Hx Hst. rewrite list_lookup_insert_ne; [done|].
    intros ->. rewrite Hj0 in Hx. injection Hx as <-. done. }
  assert (Hmove : forall i (x : janitor) st,
            janitors s !! i = Some x -> st <> Running ->
            exists j1,
              <[i := Janitor (j_port x) (player_list x) (whitelist x)
                       (ready x) st]> (janitors s) !! jid = Some j1 /\
              ready j1 = false /\ status j1 <> Running).
  { intros i x st Hx Hst. destruct (decide (i = jid)) as [->|Hne].
    - rewrite Hj0 in Hx. injection Hx as <-. eexists.
      rewrite list_lookup_insert_eq by (by eapply lookup_lt_Some).
      by repeat split.
    - exists j0. by rewrite list_lookup_insert_ne. }
  destruct (step_cases s s' ev Hstep)
    as [(ident & request & -> & Hpc & ->)
       |[(n & -> & Hpc & Hn & Hpop)
       |[(np & p & rest & -> & Hpc & Hp & ->)
       |[(jid' & j & -> & Hj & Hs & ->)
       |[(jid' & np & p & entries & j & -> & Hpc & Hj & Hr & ->)
       |[(jid' & j & -> & Hj & Hs & ->)
       |[(jid' & j & -> & Hj & Hs & ->)
       |[(jid' & j & -> & Hj & Hs & ->)
       |[(jid' & j & -> & Hj & Hs & ->)
       |[(jid' & j & user & rest & -> & Hj & Hs & ->)
        |(jid' & j & -> & Hj & Hs & ->)]]]]]]]]]]; try congruence.
  - simpl. repeat split; try done.
    exists np0, p0, entries0, j0. repeat split; try done. by eapply Hupd.
  - simpl. repeat split; try done.
    exists np0, p0, entries0, j0. repeat split; try done. by eapply Hupd.
  - simpl. repeat split; try done.
    exists np0, p0, entries0, j0. repeat split; try done. by eapply Hupd.
  - simpl. repeat split; try done.
    exists np0, p0, entries0, j0. repeat split; try done. by eapply Hupd.
  - simpl. repeat split; try done.
    destruct (Hmove jid' j (LoggingOff (player_list j)) Hj)
      as (j1 & Hj1 & Hr1 & Hs1); [done|].
    by exists np0, p0, entries0, j1.
  - simpl. repeat split; try done.
    destruct (Hmove jid' j (LoggingOff rest) Hj)
      as (j1 & Hj1 & Hr1 & Hs1); [done|].
    by exists np0, p0, entries0, j1.
  - simpl. repeat split; try done.
    destruct (Hmove jid' j Finished Hj) as (j1 & Hj1 & Hr1 & Hs1); [done|].
    by exists np0, p0, entries0, j1.
Qed.

(** X10. When the match server of the janitor the matchmaker waits for has
    ended (returned or raised) without setting [ready], [ready.wait()]
    never returns: whatever happens afterwards, the matchmaker receives no
    further request and sends no reply, and the popped cohort is never
    answered. *)
Theorem unready_match_blocks_matchmaker (jid : nat) (evs : list event) :
  forall s s' : state,
    blocked jid s -> run s evs = Some s' ->
    blocked jid s' /\ pc s' = pc s /\ sent s' = sent s /\
    match_requests s' = match_requests s /\
    List.filter is_recv evs = [].
Proof.
  induction evs as [|ev evs IH]; intros s s' Hb Hrun; simpl in Hrun.
  - injection Hrun as <-. by repeat split.
  - destruct (step s ev) as [s1|] eqn:Hstep; [|done].
    destruct (step_blocked jid s s1 ev Hb Hstep) as (Hb1 & E1 & E2 & E3 & E4).
    destruct (IH s1 s' Hb1 Hrun) as (Hb' & F1 & F2 & F3 & F4).
    simpl. rewrite E4, F1, F2, F3, F4. by repeat split.
Qed.

(** A request is turned down without a change of the user table, or it is
    enqueued for a user who was not logged in and now is. *)
Lemma handle_request_login (s : state) (ident : list byte)
    (request : QuickMatchRequest) :
  let s' := handle_request ident request s in
  let u := username request in
  (database s' = database s /\ match_requests s' = match_requests s) \/
  ((exists token,
      match_requests s' = match_requests s ++ [(ident, request, token)]) /\
   ~ logged_in_at (database s) u /\ logged_in_at (database s') u /\
   forall k, k <> u -> database s' !! k = database s !! k).
Proof.
  cbv zeta. unfold handle_request, login.
  destruct (database s !! username request) as [r|] eqn:E.
  - destruct (negb _) eqn:Hpw; [by left|].
    destruct (logged_in r) eqn:Hl; [by left|].
    right. cbn -[token_hex]. split; [eauto|]. split; [|split].
    + intros (r' & Hr' & Hl'). congruence.
    + eexists. by rewrite lookup_insert_eq.
    + intros k Hk. by rewrite lookup_insert_ne.
  - right. cbn -[token_hex]. unfold set, login. rewrite E, lookup_insert_eq.
    cbn -[token_hex]. rewrite bool_decide_eq_true_2 by done. cbn -[token_hex].
    split; [eauto|]. split; [|split].
    + intros (r' & Hr' & Hl'). congruence.
    + eexists. by rewrite lookup_insert_eq.
    + intros k Hk. by rewrite !lookup_insert_ne.
Qed.

Lemma foldl_logoff_logged_in (players : list string)
    (db : gmap string user) (u : string) :
  logged_in_at (foldl logoff db players) u <->
  (u ∉ players) /\ logged_in_at db u.
Proof.
  split.
  - intros (r & Hr & Hl).
    assert (Hnot : u ∉ players).
    { intros Hin.
      pose proof (foldl_logoff_logged_out players db u (or_introl Hin) r Hr).
      congruence. }
    split; [done|]. exists r. by rewrite <- (foldl_logoff_other players db u).
  - intros (Hnot & r & Hr & Hl). exists r.
    by rewrite foldl_logoff_other.
Qed.

(** A janitor moves on: the users not logged off before and after. *)
Lemma playing_insert (l : list janitor) (i : nat) (j j' : janitor) :
  l !! i = Some j ->
  exists a b : list string,
    concat (map still_in l) = a ++ still_in j ++ b /\
    concat (map still_in (<[i := j']> l)) = a ++ still_in j' ++ b.
Proof.
  intros Hl.
  destruct (janitors_split l i j j' Hl) as (before & after & -> & ->).
  exists (concat (map still_in before)), (concat (map still_in after)).
  by rewrite !map_app, !concat_app.
Qed.

Lemma step_login_inv (s s' : state) (ev : event) :
  step s ev = Some s' -> login_inv s -> login_inv s'.
Proof.
  intros Hstep [Hnd Hiff].
  assert (Hsame : (active s' ≡ₚ active s) -> database s' = database s ->
                  login_inv s').
  { intros Hperm Hdb. split; [by rewrite Hperm|].
    intros u. by rewrite Hperm, Hdb. }
  assert (Hout : forall out,
            (active s ≡ₚ out ++ active s') ->
            database s' = foldl logoff (database s) out -> login_inv s').
  { intros out Hact Hdb. rewrite Hact in Hnd.
    apply NoDup_app in Hnd as (_ & Hdisj & Hnd').
    split; [done|]. intros u.
    rewrite Hdb, foldl_logoff_logged_in, Hiff, Hact, elem_of_app. split.
    - intros [Hnot [H|H]]; done.
    - intros H. split; [|by right]. intros Hin. by apply (Hdisj u). }
  assert (Hmove : forall jid (j : janitor) st r (x : state) out,
            s' = with_janitors
                   (<[jid := Janitor (j_port j) (player_list j) (whitelist j)
                               r st]> (janitors s)) x ->
            janitors s !! jid = Some j ->
            match_requests x = match_requests s -> pc x = pc s ->
            still_in j =
              out ++ still_in (Janitor (j_port j) (player_list j)
                                 (whitelist j) r st) ->
            active s ≡ₚ out ++ active s').
  { intros jid j st r x out -> Hj Hm Hpc' Hst.
    destruct (playing_insert (janitors s) jid j
                (Janitor (j_port j) (player_list j) (whitelist j) r st) Hj)
      as (a & b & Ha & Hb).
    unfold active, users_waiting, users_playing.
    cbn [janitors match_requests pc with_janitors].
    rewrite Hm, Hpc', Ha, Hb, Hst.
    set (w := map entry_username _).
    rewrite <- !app_assoc.
    rewrite (Permutation_app_swap_app out w).
    apply Permutation_app_head.
    apply (Permutation_app_swap_app a out). }
  destruct (step_cases s s' ev Hstep)
    as [(ident & request & -> & Hpc & ->)
       |[(n & -> & Hpc & Hn & Hpop)
       |[(np & p & rest & -> & Hpc & Hp & ->)
       |[(jid & j & -> & Hj & Hs & ->)
       |[(jid & np & p & entries & j & -> & Hpc & Hj & Hr & ->)
       |[(jid & j & -> & Hj & Hs & ->)
       |[(jid & j & -> & Hj & Hs & ->)
       |[(jid & j & -> & Hj & Hs & ->)
       |[(jid & j & -> & Hj & Hs & ->)
       |[(jid & j & user & rest & -> & Hj & Hs & ->)
        |(jid & j & -> & Hj & Hs & ->)]]]]]]]]]].
  - destruct (handle_request_frame s ident request)
      as (_ & _ & _ & _ & Hjs & Hpc').
    assert (Hw : users_waiting (handle_request ident request s) =
                 map entry_username
                   (match_requests (handle_request ident request s)) /\
                 users_waiting s = map entry_username (match_requests s)).
    { unfold users_waiting. rewrite Hpc.
      destruct (Hpc' Hpc) as [-> | ->]; by rewrite !app_nil_r. }
    destruct Hw as [Hw' Hw].
    assert (Hpl : users_playing (handle_request ident request s) =
                  users_playing s).
    { unfold users_playing. by rewrite Hjs. }
    destruct (handle_request_login s ident request)
      as [[Hdb Hmr]|([token Hmr] & Hout' & Hin & Hother)].
    + apply Hsame; [|done]. unfold active. by rewrite Hw', Hw, Hpl, Hmr.
    + assert (Hact : active (handle_request ident request s)
                     ≡ₚ username request :: active s).
      { unfold active. rewrite Hw', Hw, Hpl, Hmr, map_app. simpl.
        rewrite <- app_assoc. symmetry. apply Permutation_middle. }
      split.
      * rewrite Hact. apply NoDup_cons. split; [|done].
        intros H. by apply Hout', Hiff.
      * intros u. rewrite Hact, elem_of_cons.
        destruct (decide (u = username request)) as [->|Hne].
        -- split; [by left|done].
        -- assert (Heq : logged_in_at
                           (database (handle_request ident request s)) u <->
                         logged_in_at (database s) u).
           { unfold logged_in_at. by rewrite Hother. }
           rewrite Heq, Hiff. split; [by right|]. by intros [?|?].
  - destruct (pop_many _ _) as [[np rest]|] eqn:Hpop'; subst s'.
    + apply pop_many_Some in Hpop' as [Hd _]. apply Hsame; [|done].
      unfold active, users_waiting, users_playing. simpl.
      rewrite Hpc, Hd, app_nil_r, !map_app.
      by rewrite fmap_reverse, reverse_Permutation.
    + apply Hsame; [|done].
      unfold active, users_waiting, users_playing. simpl.
      by rewrite Hpc.
  - apply Hsame; [|done].
    unfold active, users_waiting, users_playing. simpl.
    rewrite Hpc, app_nil_r, !map_app, concat_app. simpl.
    rewrite app_nil_r, <- !app_assoc. apply Permutation_app_head.
    apply Permutation_app_comm.
  - apply Hsame; [|done]. symmetry.
    apply (Hmove jid j Running true s []); try done.
    unfold still_in. simpl. by rewrite Hs.
  - destruct (send_replies_frame entries p np s)
      as (_ & _ & Hmr & _ & _ & Hdb & Hjs & _).
    apply Hsame; [|done].
    unfold active, users_waiting, users_playing. simpl.
    rewrite Hmr, Hjs, Hpc. by destruct (send_replies _ _ _ _).1.
  - apply (Hout (player_list j)); [|done].
    eapply Hmove; try done.
    unfold still_in. simpl. by rewrite Hs, app_nil_r.
  - apply Hsame; [|done]. symmetry.
    apply (Hmove jid j Failed (ready j) s []); try done.
    unfold still_in. simpl. by rewrite Hs.
  - apply Hsame; [|done]. symmetry.
    apply (Hmove jid j Ended (ready j) s []); try done.
    unfold still_in. simpl. by rewrite Hs.
  - apply Hsame; [|done]. symmetry.
    eapply (Hmove jid j _ (ready j) _ []); try done.
    unfold still_in. simpl. by rewrite Hs.
  - apply (Hout [user]); [|done].
    eapply Hmove; try done.
    unfold still_in. simpl. by rewrite Hs.
  - apply Hsame; [|done]. symmetry.
    eapply (Hmove jid j _ (ready j) _ []); try done.
    unfold still_in. simpl. by rewrite Hs.
Qed.

(** X11. Whenever the matchmaker thread is in one of its blocking calls,
    and wherever the janitors are in their cleanup, also between two
    logoff calls, the users logged in are exactly the users the
    matchmaker holds: those waiting in the deque or popped for a
    match, those on the player list of a janitor that has not begun its
    logoff loop (its match server runs or has returned, or an exception
    ended it), and those the logoff loop of a janitor has not reached yet;
    and nobody is held twice.  A user a janitor has logged off is no
    longer held by it and may log in and wait again.
    (Login, logoff and the start-up reset are the modelled user table.) *)
Theorem held_users_are_logged_in (used : Z -> bool) (random : nat -> byte)
    (stored : gmap string user)
    (starting_port : Z) (host : string) (max_games min_players : Z)
    (s0 s : state) (evs : list event) :
  init used random stored starting_port host max_games min_players = InitOk s0 ->
  run s0 evs = Some s ->
  NoDup (users_waiting s ++ users_playing s) /\
  forall u, logged_in_at (database s) u <->
            u ∈ users_waiting s ++ users_playing s.
Proof.
  intros [-> _]%init_Ok Hrun.
  eapply (run_invariant login_inv); [|..|exact Hrun].
  - intros x ev x' Hx Hstep. by apply (step_login_inv x x' ev).
  - split; [apply NoDup_nil_2|]. intros u. split.
    + intros (r & Hr & Hl). simpl in Hr. unfold connect in Hr.
      rewrite lookup_fmap in Hr. destruct (stored !! u); [|done].
      simpl in Hr. injection Hr as <-. done.
    + intros H. by apply elem_of_nil in H.
Qed.

(** X16. When [login] answers [LoginFail], the iteration sends the single
    reply (server "FAIL", the wrong-password message) to the requester and
    returns to receiving; no token is made and the waiting deque, the
    semaphore, the port queue, the janitors and the user table are as
    before. *)
Theorem wrong_password_reply (s : state) (ident : list byte)
    (request : QuickMatchRequest) :
  pc s = Receiving ->
  (login (database s) (username request) (password request)).1 = LoginFail ->
  exists s',
    step s (Recv ident request) = Some s' /\
    sent s' = sent s ++
      [(ident,
        Reply (username request) "FAIL" "FAIL" 0%Q
              "Failed to login: Wrong password.")] /\
    match_requests s' = match_requests s /\
    match_limit s' = match_limit s /\
    ports_to_use s' = ports_to_use s /\
    janitors s' = janitors s /\
    entropy s' = entropy s /\
    database s' = database s /\
    pc s' = Receiving.
Proof.
  intros Hpc Hfail. eexists. split.
  - unfold step. rewrite Hpc. reflexivity.
  - unfold handle_request. rewrite Hfail. simpl. rewrite Hpc.
    repeat split. unfold login in *.
    destruct (database s !! username request) as [r|]; [|done].
    destruct (negb _); [done|]. by destruct (logged_in r).
Qed.

Lemma step_full_matches (n : Z) (s s' : state) (ev : event) :
  step s ev = Some s' -> full_matches n s -> full_matches n s'.
Proof.
  intros Hstep (Hn & HG & HW & HJ).
  split; [by rewrite (step_players_per_game s s' ev)|].
  assert (Hupd : forall jid j st r,
            janitors s !! jid = Some j ->
            forall i x,
              <[jid := Janitor (j_port j) (player_list j) (whitelist j) r st]>
                (janitors s) !! i = Some x ->
              length (player_list x) = Z.to_nat n /\
              length (whitelist x) = Z.to_nat n).
  { intros jid j st r Hj i x Hx.
    apply list_lookup_insert_Some in Hx as [(-> & <- & _)|[_ Hx]].
    - simpl. by apply (HJ i j).
    - by apply (HJ i). }
  destruct (step_cases s s' ev Hstep)
    as [(ident & request & -> & Hpc & ->)
       |[(k & -> & Hpc & Hk & Hpop)
       |[(np & p & rest & -> & Hpc & Hp & ->)
       |[(jid & j & -> & Hj & Hs & ->)
       |[(jid & np & p & entries & j & -> & Hpc & Hj & Hr & ->)
       |[(jid & j & -> & Hj & Hs & ->)
       |[(jid & j & -> & Hj & Hs & ->)
       |[(jid & j & -> & Hj & Hs & ->)
       |[(jid & j & -> & Hj & Hs & ->)
       |[(jid & j & user & rest & -> & Hj & Hs & ->)
        |(jid & j & -> & Hj & Hs & ->)]]]]]]]]]].
  - destruct (handle_request_frame s ident request)
      as (_ & _ & _ & _ & Hjs & Hpc').
    rewrite Hjs. split; [|split; [|done]].
    + intros np E. destruct (Hpc' Hpc) as [E'|E']; by rewrite E' in E.
    + intros jid np p entries E.
      destruct (Hpc' Hpc) as [E'|E']; by rewrite E' in E.
  - destruct (pop_many _ _) as [[np rest]|] eqn:Hpop'; subst s'; simpl.
    + apply pop_many_Some in Hpop' as [_ Hlen]. rewrite Hn in Hlen.
      split; [|split; [done|done]]. by intros np' [= <-].
    + by split; [|split].
  - simpl. specialize (HG np Hpc). split; [done|]. split.
    + by intros jid np' p' entries [= _ <- _ _].
    + intros jid x Hx.
      apply lookup_app_Some in Hx as [Hx|[_ Hx]]; [by apply (HJ jid)|].
      destruct (jid - length (janitors s))%nat; [|done].
      injection Hx as <-. simpl. by rewrite !length_map.
  - simpl. split; [done|]. split; [done|]. by apply (Hupd jid j).
  - destruct (send_replies_frame entries p np s)
      as (_ & _ & _ & _ & _ & _ & Hjs & _).
    simpl. rewrite Hjs. split; [|split; [|done]].
    + intros np' E. by destruct (send_replies _ _ _ _).1.
    + intros jid' np' p' entries' E. by destruct (send_replies _ _ _ _).1.
  - simpl. split; [done|]. split; [done|]. by apply (Hupd jid j).
  - simpl. split; [done|]. split; [done|]. by apply (Hupd jid j).
  - simpl. split; [done|]. split; [done|]. by apply (Hupd jid j).
  - simpl. split; [done|]. split; [done|]. by apply (Hupd jid j).
  - simpl. split; [done|]. split; [done|]. by apply (Hupd jid j).
  - simpl. split; [done|]. split; [done|]. by apply (Hupd jid j).
Qed.

(** X17. Every match the matchmaker starts is full: the player list and
    the token whitelist handed to a janitor each have exactly
    [min_players] entries (none when [min_players] is not positive), for
    every janitor ever started. *)
Theorem every_match_is_full (used : Z -> bool) (random : nat -> byte)
    (stored : gmap string user)
    (starting_port : Z) (host : string) (max_games min_players : Z)
    (s0 s : state) (evs : list event) (jid : nat) (j : janitor) :
  init used random stored starting_port host max_games min_players = InitOk s0 ->
  run s0 evs = Some s ->
  janitors s !! jid = Some j ->
  length (player_list j) = Z.to_nat min_players /\
  length (whitelist j) = Z.to_nat min_players.
Proof.
  intros [-> _]%init_Ok Hrun Hj.
  assert (Hinv : full_matches min_players s).
  { eapply (run_invariant (full_matches min_players)); [|..|exact Hrun].
    - intros x ev x' Hx Hstep. by apply (step_full_matches _ x x' ev).
    - by repeat split. }
  destruct Hinv as (_ & _ & _ & HJ). by apply (HJ jid).
Qed.



End Accounting.

(** ** The worker before and beside [step] *)

Section AfterTheGame.
Import ClientNetworkEnv ClientApp.
Variable pickle_loads : list byte -> option (list Z).

(** An answer with [terminal] set leaves the adapter in a state [over]. *)
Lemma report_over (w w' : worker) (r : step_reply) :
  report pickle_loads w = Ret r w' -> r.1.2 = true ->
  exists p ss tail ws,
    player w' = Some p /\ acknowledges_game_over p = true /\
    server_states (dataframe w') = ss :: tail /\ terminal ss = true /\
    pickle_loads (winners ss) = Some ws /\
    staged (dataframe w') = [] /\ committed (dataframe w') = [] /\
    r = (read_dimensions (dimension_names w') p, reward_from_last_turn p,
         true, Some ws).
Proof.
  unfold report. intros H Ht.
  destruct (player w) as [p|]; [|done].
  destruct (server_states (dataframe w)) as [|ss tail] eqn:Hss; [done|].
  destruct (terminal ss) eqn:Hterm.
  - destruct (pickle_loads (winners ss)) as [ws|] eqn:Hws; [|done].
    injection H as <- <-. eexists _, ss, tail, ws. simpl. by repeat split.
  - injection H as <- <-. done.
Qed.

Lemma step_over (a : string) (c c' : env) (r : step_reply) :
  step pickle_loads a c = (Returns r, c') -> r.1.2 = true -> over pickle_loads r c'.
Proof.
  intros H Ht. unfold step in H.
  destruct (app_remote_closed c); [done|].
  destruct (client_status c); try done.
  destruct (serve_step pickle_loads a (player_client c)) as [r0 w|e w|w] eqn:E;
    try done.
  injection H as -> <-. apply serve_step_Ret in E as [w1 E].
  apply report_over in E; [|done]. by repeat split.
Qed.

(** Once the game is over a further [step] gives the same answer: it
    ignores its action, polls nothing and commits one acknowledgement. *)
Lemma over_step (a : string) (c : env) (r : step_reply) :
  over pickle_loads r c ->
  exists c',
    step pickle_loads a c = (Returns r, c') /\ over pickle_loads r c' /\
    incoming (dataframe (player_client c')) =
      incoming (dataframe (player_client c)) /\
    ticks (player_client c') = ticks (player_client c) /\
    pushed (dataframe (player_client c')) =
      pushed (dataframe (player_client c)) ++ [[SetAcknowledged true]].
Proof.
  intros (Hopen & Hserving & p & ss & tail & ws & Hp & Hack & Hss & Hterm
          & Hws & Hst & Hco & ->).
  unfold step. rewrite Hopen, Hserving.
  rewrite serve_step_terminal
    by (by rewrite (game_is_terminal_Ret _ ss tail Hss), Hterm).
  unfold report. rewrite Hp, Hss, Hterm, Hws. eexists. split; [done|].
  unfold acknowledged. simpl. rewrite Hst, Hco. simpl.
  repeat split; try done.
  eexists _, ss, tail, ws. simpl. by repeat split.
Qed.

(** X12. The end of the game is final for the adapter.  Once a [step] has
    answered with [terminal] set, every later [step], after any number of
    further ones and whatever its action, returns that same answer; none
    of them polls the server, and each commits and pushes only
    [acknowledges_game_over]. *)
Theorem game_over_is_final (a : string) (c c' : env) (r : step_reply) :
  step pickle_loads a c = (Returns r, c') ->
  r.1.2 = true ->
  forall (later : list string) (a' : string),
    let c'' := step_all pickle_loads later c' in
    (step pickle_loads a' c'').1 = Returns r /\
    incoming (dataframe (player_client c'')) =
      incoming (dataframe (player_client c')) /\
    ticks (player_client c'') = ticks (player_client c') /\
    pushed (dataframe (player_client c'')) =
      pushed (dataframe (player_client c')) ++
      replicate (length later) [SetAcknowledged true].
Proof.
  intros Hstep Ht later a'. apply step_over in Hstep; [|done].
  clear c a Ht. revert c' Hstep.
  induction later as [|a later IH]; intros c Hover; cbn zeta.
  - destruct (over_step a' c r Hover) as (c2 & E & _). simpl.
    rewrite E, app_nil_r. done.
  - destruct (over_step a c r Hover) as (c2 & E & Hover2 & Hi & Ht & Hp).
    simpl. rewrite E. simpl.
    destruct (IH c2 Hover2) as (F1 & F2 & F3 & F4).
    rewrite F1, F2, F3, F4, Hi, Ht, Hp, <- app_assoc. done.
Qed.

(** ['get_server_state'] reads the first [ServerState] record and changes
    nothing. *)
Lemma serve_get_server_state_Ret (w w' : worker) (r : server_state_reply) :
  serve_get_server_state w = Ret r w' ->
  w' = w /\
  exists ss tail,
    server_states (dataframe w) = ss :: tail /\
    r = (env_class_name ss, env_dimensions ss, terminal ss, winners ss,
         serialized_state ss).
Proof.
  unfold serve_get_server_state.
  destruct (server_states (dataframe w)) as [|ss tail]; [done|].
  intros [= <- <-]. eauto.
Qed.

Lemma report_server_state (w w' : worker) (r : step_reply) :
  report pickle_loads w = Ret r w' ->
  exists ss tail,
    server_states (dataframe w') = ss :: tail /\
    terminal ss = r.1.2 /\
    (r.1.2 = true -> pickle_loads (winners ss) = r.2).
Proof.
  unfold report. intros H.
  destruct (player w) as [p|]; [|done].
  destruct (server_states (dataframe w)) as [|ss tail] eqn:Hss; [done|].
  destruct (terminal ss) eqn:Hterm.
  - destruct (pickle_loads (winners ss)) as [ws|] eqn:Hws; [|done].
    injection H as <- <-. exists ss, tail. simpl. by repeat split.
  - injection H as <- <-. exists ss, tail. by repeat split.
Qed.

(** X13. A ['get_server_state'] command served right after a ['step'] that
    answered cannot fail and changes nothing in the worker; it reports the
    same [terminal] flag as the step did, and when that flag is set its
    [winners] bytes unpickle to the winners the step returned. *)
Theorem get_server_state_agrees_with_step (a : string) (w w' : worker)
    (r : step_reply) :
  serve_step pickle_loads a w = Ret r w' ->
  exists ss tail,
    server_states (dataframe w') = ss :: tail /\
    serve_get_server_state w' =
      Ret (env_class_name ss, env_dimensions ss, terminal ss, winners ss,
           serialized_state ss) w' /\
    terminal ss = r.1.2 /\
    (r.1.2 = true -> pickle_loads (winners ss) = r.2).
Proof.
  intros H. apply serve_step_Ret in H as [w1 H].
  apply report_server_state in H as (ss & tail & Hss & Ht & Hw).
  exists ss, tail. unfold serve_get_server_state. by rewrite Hss.
Qed.

End AfterTheGame.

(** ** The first observation *)

Section StartUp.
Import ClientNetworkEnv ClientApp.

Lemma polled_polled (n m : nat) (snap x : snapshot) (rest feed : list snapshot)
    (w : worker) :
  polled n snap rest (polled m x feed w) = polled (n + m) snap rest w.
Proof. unfold polled. simpl. f_equal. lia. Qed.

Lemma poll_done (cond : Player -> bool) (feed : list snapshot) (w : worker)
    (p : Player) :
  player w = Some p -> cond p = false -> poll cond feed w = Ret tt w.
Proof. intros Hp Hc. destruct feed; simpl; by rewrite Hp, Hc. Qed.

(** What a polling loop that ends has seen: every version before the last
    one kept it going, the last one did not, and nothing was written. *)
Lemma poll_trace (cond : Player -> bool) (feed : list snapshot) :
  forall w w' : worker,
    incoming (dataframe w) = feed ->
    poll cond feed w = Ret tt w' ->
    exists hist before p,
      feed = hist ++ incoming (dataframe w') /\
      player w :: map snap_player hist = before ++ [Some p] /\
      Forall (fun x => exists q, x = Some q /\ cond q = true) before /\
      cond p = false /\
      player w' = Some p /\
      ticks w' = (length hist + ticks w)%nat /\
      dimension_names w' = dimension_names w /\
      staged (dataframe w') = staged (dataframe w) /\
      committed (dataframe w') = committed (dataframe w) /\
      pushed (dataframe w') = pushed (dataframe w).
Proof.
  assert (Hstop : forall (w : worker) p0,
            player w = Some p0 -> cond p0 = false ->
            exists hist before p,
              incoming (dataframe w) = hist ++ incoming (dataframe w) /\
              player w :: map snap_player hist = before ++ [Some p] /\
              Forall (fun x => exists q, x = Some q /\ cond q = true) before /\
              cond p = false /\ player w = Some p /\
              ticks w = (length hist + ticks w)%nat /\
              dimension_names w = dimension_names w /\
              staged (dataframe w) = staged (dataframe w) /\
              committed (dataframe w) = committed (dataframe w) /\
              pushed (dataframe w) = pushed (dataframe w)).
  { intros w p0 Hp Hc. exists [], [], p0. simpl. rewrite Hp. by repeat split. }
  induction feed as [|x feed IH]; intros w w' Hfeed H; simpl in H;
    destruct (player w) as [p0|] eqn:Hp; try done;
    destruct (cond p0) eqn:Hc; try done.
  - injection H as <-. rewrite <- Hfeed, <- Hp. by apply (Hstop w p0).
  - apply IH in H as (hist & before & p & Hf & Hseen & Hall & Hcp & Hp' & Ht
                      & Hn & Hs & Hco & Hpu); [|done].
    exists (x :: hist), (Some p0 :: before), p. simpl in *.
    rewrite Hseen, <- Hf. repeat split; try done.
    + apply Forall_cons. split; [by exists p0|done].
    + lia.
  - injection H as <-. rewrite <- Hfeed, <- Hp. by apply (Hstop w p0).
Qed.

(** The polling loop ends once a version that stops it is published. *)
Lemma poll_returns (cond : Player -> bool) (consumed : list snapshot) :
  forall (snap : snapshot) (rest : list snapshot) (p p0 : Player) (w : worker),
    player w = Some p0 -> cond p0 = true ->
    Forall (fun x => exists q, snap_player x = Some q /\ cond q = true)
           consumed ->
    snap_player snap = Some p -> cond p = false ->
    poll cond (consumed ++ snap :: rest) w =
    Ret tt (polled (S (length consumed)) snap rest w).
Proof.
  induction consumed as [|x consumed IH]; intros snap rest p p0 w Hp Hc Hall
    Hs Hcp; simpl; rewrite Hp, Hc.
  - by rewrite (poll_done cond rest _ p).
  - apply Forall_cons in Hall as [(q & Hq & Hcq) Hall].
    rewrite (IH snap rest p q); try done. by rewrite polled_refresh.
Qed.

(** X14. When the worker reaches its first [remote.send], the observation
    it sends is read from a version of its player record with [turn] set:
    it is the dictionary that holds, for each dimension name and for
    nothing else, that attribute of this version.  Every version the
    worker saw before showed [number = -1] or [turn] cleared, and some
    version seen up to then showed a player number; it polled once per
    version consumed and wrote nothing. *)
Theorem first_observation_is_first_turn (w w' : worker)
    (obs : gmap string string) :
  first_turn w = Ret obs w' ->
  exists hist before p,
    incoming (dataframe w) = hist ++ incoming (dataframe w') /\
    player w :: map snap_player hist = before ++ [Some p] /\
    Forall not_yet before /\
    Exists started (before ++ [Some p]) /\
    turn p = true /\
    player w' = Some p /\
    obs = read_dimensions (dimension_names w) p /\
    observes (dimension_names w) p obs /\
    ticks w' = (length hist + ticks w)%nat /\
    staged (dataframe w') = staged (dataframe w) /\
    committed (dataframe w') = committed (dataframe w) /\
    pushed (dataframe w') = pushed (dataframe w).
Proof.
  intros H. unfold first_turn, bind, wait_for_start, wait_for_first_turn in H.
  destruct (poll _ (incoming (dataframe w)) w) as [[] w1|e w1|w1] eqn:E1;
    try done.
  destruct (poll _ (incoming (dataframe w1)) w1) as [[] w2|e w2|w2] eqn:E2;
    try done.
  apply poll_trace in E1
    as (h1 & b1 & p1 & Hf1 & Hseen1 & Hall1 & Hc1 & Hp1 & Ht1 & Hn1 & Hs1
        & Hco1 & Hpu1); [|done].
  apply poll_trace in E2
    as (h2 & b2 & p2 & Hf2 & Hseen2 & Hall2 & Hc2 & Hp2 & Ht2 & Hn2 & Hs2
        & Hco2 & Hpu2); [|done].
  unfold the_player in H. rewrite Hp2 in H. injection H as <- <-.
  rewrite Hp1 in Hseen2.
  exists (h1 ++ h2), (b1 ++ b2), p2.
  split; [by rewrite <- app_assoc, <- Hf2|].
  split.
  { rewrite map_app, app_comm_cons, Hseen1, <- !app_assoc. simpl.
    by rewrite Hseen2. }
  split.
  { apply Forall_app. split.
    - eapply Forall_impl; [exact Hall1|]. intros x (q & -> & Hq).
      exists q. split; [done|]. left. by apply Z.eqb_eq.
    - eapply Forall_impl; [exact Hall2|]. intros x (q & -> & Hq).
      exists q. split; [done|]. right. by destruct (turn q). }
  split.
  { rewrite <- app_assoc, <- Hseen2. apply Exists_app. right.
    apply Exists_cons. left. exists p1. split; [done|]. by apply Z.eqb_neq. }
  split; [by destruct (turn p2)|].
  split; [done|].
  split; [by rewrite Hn2, Hn1|].
  split; [rewrite Hn2, Hn1; apply read_dimensions_observes|].
  split; [rewrite length_app; lia|].
  by rewrite Hs2, Hco2, Hpu2.
Qed.

(** X15. The first observation does arrive: with a fresh player record
    ([number = -1]), versions that show no player number yet, then
    versions with a number but [turn] cleared, then a version with a
    number and [turn] set, the worker sends the observation of that last
    version (the dictionary that holds, for each dimension name and for
    nothing else, that attribute of it), after one poll for each of these
    versions. *)
Theorem first_observation_arrives (w : worker) (p0 p : Player)
    (unstarted idle : list snapshot) (snap : snapshot)
    (rest : list snapshot) :
  player w = Some p0 -> number p0 = -1 ->
  incoming (dataframe w) = unstarted ++ idle ++ snap :: rest ->
  Forall (fun x => exists q, snap_player x = Some q /\ number q = -1)
         unstarted ->
  Forall (fun x => exists q, snap_player x = Some q /\ number q <> -1 /\
                             turn q = false) idle ->
  snap_player snap = Some p -> number p <> -1 -> turn p = true ->
  first_turn w =
  Ret (read_dimensions (dimension_names w) p)
      (polled (length unstarted + length idle + 1) snap rest w) /\
  observes (dimension_names w) p (read_dimensions (dimension_names w) p).
Proof.
  intros Hp0 Hn0 Hinc Hun Hidle Hs Hn Ht.
  split; [|apply read_dimensions_observes].
  assert (Hun' : Forall (fun x => exists q, snap_player x = Some q /\
                           (number q =? -1) = true) unstarted).
  { eapply Forall_impl; [exact Hun|]. intros x (q & Hq & Hnq).
    exists q. split; [done|]. by apply Z.eqb_eq. }
  unfold first_turn, bind, wait_for_start, wait_for_first_turn. rewrite Hinc.
  destruct idle as [|x idle].
  - simpl. rewrite (poll_returns _ unstarted snap rest p p0); try done;
      [|by apply Z.eqb_eq|by apply Z.eqb_neq].
    rewrite (poll_done _ _ _ p); [|done|by rewrite Ht].
    unfold the_player. simpl.
    replace (length unstarted + 0 + 1)%nat with (S (length unstarted)) by lia.
    by rewrite Hs.
  - apply Forall_cons in Hidle as [(q & Hq & Hnq & Htq) Hidle].
    rewrite <- app_comm_cons.
    rewrite (poll_returns _ unstarted x _ q p0); try done;
      [|by apply Z.eqb_eq|by apply Z.eqb_neq].
    cbn [incoming dataframe polled].
    rewrite (poll_returns _ idle snap rest p q); try done.
    + rewrite polled_polled. unfold the_player. simpl.
      replace (length unstarted + S (length idle) + 1)%nat
        with (S (length idle + S (length unstarted))) by lia.
      by rewrite Hs.
    + by rewrite Htq.
    + eapply Forall_impl; [exact Hidle|]. intros y (r & Hr & _ & Htr).
      exists r. split; [done|]. by rewrite Htr.
    + by rewrite Ht.
Qed.

End StartUp.

(** ** Examples for the further properties *)

Section MatchmakerRuns.
Import PyStr RankingDatabase Messages Matchmaker.

(** Alice's one-player match is about to start. *)
Lemma running_matches_bounded_witness :
  let evs := [Recv [x0a] alice; Acquire; GetPort] in
  let s := default (example_start 1) (run (example_start 1) evs) in
  init (fun _ => false) example_random ∅ 21450 "localhost" 1 1 =
    InitOk (example_start 1) /\
  run (example_start 1) evs = Some s /\
  (match_limit s + units_out s = 1)%nat /\
  (length (List.filter is_running (janitors s)) <= 1)%nat.
Proof.
  intros evs s.
  assert (H1 : init (fun _ => false) example_random ∅ 21450 "localhost" 1 1 =
               InitOk (example_start 1)) by reflexivity.
  assert (H2 : run (example_start 1) evs = Some s) by (vm_compute; reflexivity).
  exact (conj H1 (conj H2 (running_matches_bounded _ _ _ _ _ _ _ _ _ _ H1 H2))).
Defined.

(** Alice's match is over and its janitor has put the port back, and
    nothing else yet: the port is in the queue again while the janitor
    still holds its semaphore unit. *)
Lemma ports_accounted_witness :
  let evs := [Recv [x0a] alice; Acquire; GetPort; ReadySet 0; Proceed;
              ServerReturns 0; CleanupStep 0] in
  let s := default (example_start 1) (run (example_start 1) evs) in
  init (fun _ => false) example_random ∅ 21450 "localhost" 1 1 =
    InitOk (example_start 1) /\
  run (example_start 1) evs = Some s /\
  ports_to_use s = [21451; 21450] /\ ports_out s = [] /\
  match_limit s = 0%nat /\
  NoDup (ports_to_use s ++ ports_out s) /\
  (forall jid j, janitors s !! jid = Some j -> keeps_port j = true ->
     21450 <= j_port j < 21452 /\ j_port j ∉ ports_to_use s).
Proof.
  intros evs s.
  assert (H1 : init (fun _ => false) example_random ∅ 21450 "localhost" 1 1 =
               InitOk (example_start 1)) by reflexivity.
  assert (H2 : run (example_start 1) evs = Some s) by (vm_compute; reflexivity).
  destruct (ports_accounted _ _ _ _ _ _ _ _ _ _ H1 H2) as (_ & Hnd & Hlive & _).
  split; [exact H1|]. split; [exact H2|].
  split; [vm_compute; reflexivity|]. split; [vm_compute; reflexivity|].
  split; [vm_compute; reflexivity|]. split; [exact Hnd|].
  intros jid j Hj Hk. destruct (Hlive jid j Hj Hk) as (Hr & _ & Hq).
  exact (conj Hr Hq).
Defined.

(** Alice is popped for a match; a port is there for it. *)
Lemma get_port_never_blocks_witness :
  let evs := [Recv [x0a] alice; Acquire] in
  let s := default (example_start 1) (run (example_start 1) evs) in
  let cohort :=
    [([x0a], alice,
      "000102030405060708090a0b0c0d0e0f101112131415161718191a1b1c1d1e1f")] in
  init (fun _ => false) example_random ∅ 21450 "localhost" 1 1 =
    InitOk (example_start 1) /\
  run (example_start 1) evs = Some s /\
  pc s = GettingPort cohort /\
  ports_to_use s <> [] /\
  exists s' jid,
    step s GetPort = Some s' /\
    pc s' = WaitingReady jid cohort 21450
              (rankings_dict (get_multi (database s) ["alice"])) /\
    ports_to_use s' = [21451].
Proof.
  intros evs s cohort.
  assert (H1 : init (fun _ => false) example_random ∅ 21450 "localhost" 1 1 =
               InitOk (example_start 1)) by reflexivity.
  assert (H2 : run (example_start 1) evs = Some s) by (vm_compute; reflexivity).
  assert (H3 : pc s = GettingPort cohort) by reflexivity.
  exact (conj H1 (conj H2 (conj H3
           (get_port_never_blocks _ _ _ _ _ _ _ _ _ _ _ H1 H2 H3)))).
Defined.

(** Alice is matched and answered, bob waits for a free slot. *)
Lemma requests_accounted_witness :
  let evs := [Recv [x0a] alice; Acquire; GetPort; ReadySet 0; Proceed;
              Recv [x0b] bob] in
  let s := default (example_start 1) (run (example_start 1) evs) in
  init (fun _ => false) example_random ∅ 21450 "localhost" 1 1 =
    InitOk (example_start 1) /\
  run (example_start 1) evs = Some s /\
  received evs = [([x0a], "alice"); ([x0b], "bob")] /\
  answered s = [([x0a], "alice")] /\
  pending s = [([x0b], "bob")] /\
  received evs ≡ₚ answered s ++ pending s.
Proof.
  intros evs s.
  assert (H1 : init (fun _ => false) example_random ∅ 21450 "localhost" 1 1 =
               InitOk (example_start 1)) by reflexivity.
  assert (H2 : run (example_start 1) evs = Some s) by (vm_compute; reflexivity).
  split; [exact H1|]. split; [exact H2|].
  split; [reflexivity|]. split; [vm_compute; reflexivity|].
  split; [vm_compute; reflexivity|].
  exact (requests_accounted _ _ _ _ _ _ _ _ _ _ H1 H2).
Defined.

Lemma matchmaker_never_raises_witness :
  let evs := [Recv [x0a] alice; Acquire; GetPort; ReadySet 0] in
  let s := default (example_start 1) (run (example_start 1) evs) in
  init (fun _ => false) example_random ∅ 21450 "localhost" 1 1 =
    InitOk (example_start 1) /\
  run (example_start 1) evs = Some s /\
  pc s <> Crashed /\
  (forall jid new_players match_port database_entries,
     pc s = WaitingReady jid new_players match_port database_entries ->
     (send_replies database_entries match_port new_players s).1 = true).
Proof.
  intros evs s.
  assert (H1 : init (fun _ => false) example_random ∅ 21450 "localhost" 1 1 =
               InitOk (example_start 1)) by reflexivity.
  assert (H2 : run (example_start 1) evs = Some s) by (vm_compute; reflexivity).
  destruct (matchmaker_never_raises _ _ _ _ _ _ _ _ _ _ H1 H2)
    as (Hc & _ & Hr).
  exact (conj H1 (conj H2 (conj Hc Hr))).
Defined.

(** Alice's reply leads her to the match server on port 21450. *)
Lemma replies_lead_to_ready_match_witness :
  let evs := [Recv [x0a] alice; Acquire; GetPort; ReadySet 0; Proceed] in
  let s := default (example_start 1) (run (example_start 1) evs) in
  let r := Reply "alice" "localhost:21450"
             "000102030405060708090a0b0c0d0e0f101112131415161718191a1b1c1d1e1f"
             1000%Q "" in
  init (fun _ => false) example_random ∅ 21450 "localhost" 1 1 =
    InitOk (example_start 1) /\
  run (example_start 1) evs = Some s /\
  ([x0a], r) ∈ sent s /\
  exists jid j,
    janitors s !! jid = Some j /\ ready j = true /\
    auth_key r ∈ whitelist j /\ reply_username r ∈ player_list j /\
    21450 <= j_port j < 21452 /\
    (forall u, RequestGame.request_game_result u r =
               RequestGame.Game
                 (RequestGame.MkGameResponse "localhost" (j_port j) (lower u)
                    (auth_key r) (reply_ranking r))).
Proof.
  intros evs s r.
  assert (H1 : init (fun _ => false) example_random ∅ 21450 "localhost" 1 1 =
               InitOk (example_start 1)) by reflexivity.
  assert (H2 : run (example_start 1) evs = Some s) by (vm_compute; reflexivity).
  assert (H3 : ([x0a], r) ∈ sent s) by (vm_compute; left).
  split; [exact H1|]. split; [exact H2|]. split; [exact H3|].
  destruct (replies_lead_to_ready_match _ _ _ _ _ _ _ _ _ _ _ _ H1 H2 H3)
    as [[Hf _]|(jid & j & Hj & Hr & Hw & Hu & Hp & _ & _ & Hgame)].
  - discriminate Hf.
  - exists jid, j. repeat (split; [assumption|]).
    apply Hgame. reflexivity.
Defined.

(** Two games at a time: alice plays, and the match server for bob raises
    before it is ready.  Alice's match ends; the matchmaker still waits. *)
Lemma unready_match_blocks_matchmaker_witness :
  let s0 := State 1 "localhost" [] 2 [21450; 21451; 21452; 21453] ∅ [] []
              (Rng example_random 0) Receiving in
  let s := default s0
             (run s0 [Recv [x0a] alice; Acquire; GetPort; ReadySet 0; Proceed;
                      Recv [x0b] bob; Acquire; GetPort;
                      ServerDone 1 Raised]) in
  let later := [ServerDone 0 Returned] in
  let s' := default s (run s later) in
  blocked 1 s /\
  run s later = Some s' /\
  blocked 1 s' /\ pc s' = pc s /\ sent s' = sent s /\
  match_requests s' = match_requests s /\
  List.filter is_recv later = [].
Proof.
  intros s0 s later s'.
  assert (H1 : blocked 1 s).
  { unfold blocked. vm_compute. eexists _, _, _, _.
    split; [reflexivity|]. split; [reflexivity|]. split; [reflexivity|].
    discriminate. }
  assert (H2 : run s later = Some s') by (vm_compute; reflexivity).
  exact (conj H1 (conj H2
           (unready_match_blocks_matchmaker 1 later s s' H1 H2))).
Defined.

(** Alice has played and bob waits; the janitor of alice's match has put
    its port back and logged alice off, and has not released the semaphore
    yet: bob is logged in, alice no longer. *)
Lemma held_users_are_logged_in_witness :
  let evs := [Recv [x0a] alice; Acquire; GetPort; ReadySet 0; Proceed;
              Recv [x0b] bob; ServerReturns 0; CleanupStep 0;
              CleanupStep 0] in
  let s := default (example_start 1) (run (example_start 1) evs) in
  init (fun _ => false) example_random ∅ 21450 "localhost" 1 1 =
    InitOk (example_start 1) /\
  run (example_start 1) evs = Some s /\
  status <$> janitors s !! 0%nat = Some (LoggingOff []) /\
  users_waiting s ++ users_playing s = ["bob"] /\
  NoDup (users_waiting s ++ users_playing s) /\
  forall u, logged_in_at (database s) u <->
            u ∈ users_waiting s ++ users_playing s.
Proof.
  intros evs s.
  assert (H1 : init (fun _ => false) example_random ∅ 21450 "localhost" 1 1 =
               InitOk (example_start 1)) by reflexivity.
  assert (H2 : run (example_start 1) evs = Some s) by (vm_compute; reflexivity).
  split; [exact H1|]. split; [exact H2|].
  split; [vm_compute; reflexivity|]. split; [vm_compute; reflexivity|].
  exact (held_users_are_logged_in _ _ _ _ _ _ _ _ _ _ H1 H2).
Defined.


(** Alice waits for a second player; somebody asks in her name with
    another password. *)
Lemma wrong_password_reply_witness :
  let s := handle_request [x0a] alice (example_start 2) in
  let request := Request "alice" [x09] in
  pc s = Receiving /\
  (login (database s) (username request) (password request)).1 = LoginFail /\
  exists s',
    step s (Recv [x0c] request) = Some s' /\
    sent s' = sent s ++
      [([x0c], Reply "alice" "FAIL" "FAIL" 0%Q
                 "Failed to login: Wrong password.")] /\
    match_requests s' = match_requests s /\
    database s' = database s /\
    pc s' = Receiving.
Proof.
  intros s request.
  assert (H1 : pc s = Receiving) by reflexivity.
  assert (H2 : (login (database s) (username request) (password request)).1 =
               LoginFail) by reflexivity.
  destruct (wrong_password_reply s [x0c] request H1 H2)
    as (s' & Hstep & Hsent & Hq & _ & _ & _ & _ & Hdb & Hpc).
  split; [exact H1|]. split; [exact H2|].
  exists s'. repeat (split; [assumption|]). exact Hpc.
Defined.

(** Two players per game: the janitor of alice and bob has both. *)
Lemma every_match_is_full_witness :
  let evs := [Recv [x0a] alice; Recv [x0b] bob; Acquire; GetPort] in
  let s := default (example_start 2) (run (example_start 2) evs) in
  let j := default (Janitor 0 [] [] false Failed) (janitors s !! 0%nat) in
  init (fun _ => false) example_random ∅ 21450 "localhost" 1 2 =
    InitOk (example_start 2) /\
  run (example_start 2) evs = Some s /\
  janitors s !! 0%nat = Some j /\
  player_list j = ["bob"; "alice"] /\
  length (player_list j) = 2%nat /\
  length (whitelist j) = 2%nat.
Proof.
  intros evs s j.
  assert (H1 : init (fun _ => false) example_random ∅ 21450 "localhost" 1 2 =
               InitOk (example_start 2)) by reflexivity.
  assert (H2 : run (example_start 2) evs = Some s) by (vm_compute; reflexivity).
  assert (H3 : janitors s !! 0%nat = Some j) by reflexivity.
  split; [exact H1|]. split; [exact H2|]. split; [exact H3|].
  split; [reflexivity|].
  exact (every_match_is_full _ _ _ _ _ _ _ _ _ _ 0%nat j H1 H2 H3).
Defined.

End MatchmakerRuns.

Section WorkerRuns.
Import ClientNetworkEnv ClientApp.

(** The step that ends the example game, and three more after it. *)
Lemma game_over_is_final_witness :
  let r := (read_dimensions ["x"] my_last_turn, 1%Q, true, Some [0]) in
  let c' := (step example_unpickle "go" example_env).2 in
  let c'' := step_all example_unpickle ["a"; "b"; "c"] c' in
  step example_unpickle "go" example_env = (Returns r, c') /\
  r.1.2 = true /\
  (step example_unpickle "d" c'').1 = Returns r /\
  ticks (player_client c'') = ticks (player_client c') /\
  pushed (dataframe (player_client c'')) =
    pushed (dataframe (player_client c')) ++
    [[SetAcknowledged true]; [SetAcknowledged true]; [SetAcknowledged true]].
Proof.
  intros r c' c''.
  assert (H1 : step example_unpickle "go" example_env = (Returns r, c'))
    by (vm_compute; reflexivity).
  assert (H2 : r.1.2 = true) by reflexivity.
  destruct (game_over_is_final example_unpickle "go" example_env c' r H1 H2
              ["a"; "b"; "c"] "d") as (Hr & _ & Ht & Hp).
  exact (conj H1 (conj H2 (conj Hr (conj Ht Hp)))).
Defined.

Lemma get_server_state_agrees_with_step_witness :
  let w := player_client example_env in
  let r := (read_dimensions ["x"] my_last_turn, 1%Q, true, Some [0]) in
  let w' := player_client (step example_unpickle "go" example_env).2 in
  serve_step example_unpickle "go" w = Ret r w' /\
  exists ss tail,
    server_states (dataframe w') = ss :: tail /\
    serve_get_server_state w' =
      Ret (env_class_name ss, env_dimensions ss, terminal ss, winners ss,
           serialized_state ss) w' /\
    terminal ss = r.1.2 /\
    (r.1.2 = true -> example_unpickle (winners ss) = r.2).
Proof.
  intros w r w'.
  assert (H1 : serve_step example_unpickle "go" w = Ret r w')
    by (vm_compute; reflexivity).
  exact (conj H1
           (get_server_state_agrees_with_step example_unpickle "go" w w' r H1)).
Defined.

(** A worker that has just joined: the game starts with the second
    published version and the player's first turn comes with the third. *)
Lemma first_observation_arrives_witness :
  let fresh := MkPlayer 7 "token" (-1) false "" false 0%Q false
                 (fun _ => "none") in
  let waiting := MkPlayer 7 "token" 1 false "" false 0%Q false
                   (fun _ => "none") in
  let unstarted := [Snapshot [running_state] (Some fresh)] in
  let idle := [Snapshot [running_state] (Some waiting)] in
  let snap := Snapshot [running_state] (Some my_turn) in
  let w := Worker (MkDataframe [running_state] (Some fresh) [] [] []
                     (unstarted ++ idle ++ [snap]))
                  (Some fresh) ["x"] 0 in
  player w = Some fresh /\ number fresh = -1 /\
  incoming (dataframe w) = unstarted ++ idle ++ snap :: [] /\
  snap_player snap = Some my_turn /\ number my_turn <> -1 /\
  turn my_turn = true /\
  first_turn w = Ret {["x" := "first"]} (polled 3 snap [] w) /\
  observes ["x"] my_turn {["x" := "first"]}.
Proof.
  intros fresh waiting unstarted idle snap w.
  assert (H1 : player w = Some fresh) by reflexivity.
  assert (H2 : number fresh = -1) by reflexivity.
  assert (H3 : incoming (dataframe w) = unstarted ++ idle ++ snap :: [])
    by reflexivity.
  assert (H4 : Forall (fun x => exists q, snap_player x = Some q /\
                                          number q = -1) unstarted).
  { apply Forall_cons. split; [|apply Forall_nil_2]. by exists fresh. }
  assert (H5 : Forall (fun x => exists q, snap_player x = Some q /\
                                          number q <> -1 /\ turn q = false)
                      idle).
  { apply Forall_cons. split; [|apply Forall_nil_2]. by exists waiting. }
  assert (H6 : snap_player snap = Some my_turn) by reflexivity.
  assert (H7 : number my_turn <> -1) by discriminate.
  assert (H8 : turn my_turn = true) by reflexivity.
  repeat (split; [assumption|]).
  exact (first_observation_arrives w fresh my_turn unstarted idle snap []
           H1 H2 H3 H4 H5 H6 H7 H8).
Defined.

Lemma first_observation_is_first_turn_witness :
  let fresh := MkPlayer 7 "token" (-1) false "" false 0%Q false
                 (fun _ => "none") in
  let snap := Snapshot [running_state] (Some my_turn) in
  let w := Worker (MkDataframe [running_state] (Some fresh) [] [] [] [snap])
                  (Some fresh) ["x"] 0 in
  let w' := polled 1 snap [] w in
  first_turn w = Ret {["x" := "first"]} w' /\
  exists hist before p,
    incoming (dataframe w) = hist ++ incoming (dataframe w') /\
    player w :: map snap_player hist = before ++ [Some p] /\
    Forall not_yet before /\
    turn p = true /\
    player w' = Some p /\
    observes ["x"] p {["x" := "first"]} /\
    pushed (dataframe w') = pushed (dataframe w).
Proof.
  intros fresh snap w w'.
  assert (H1 : first_turn w = Ret {["x" := "first"]} w')
    by (vm_compute; reflexivity).
  split; [exact H1|].
  destruct (first_observation_is_first_turn w w' _ H1)
    as (hist & before & p & Hi & Hseen & Hall & _ & Ht & Hp & _ & Hobs & _ & _
        & _ & Hpu).
  exists hist, before, p. repeat (split; [assumption|]). exact Hpu.
Defined.

End WorkerRuns.
